(** * Linear-regression notebooks: numerical model and properties

    The notebooks fit a straight line through ten data points with two
    formulas, [LinearFit] (moments of products) and [LinearFit2] (centred
    sums), and show that the first one breaks down when the abscissae carry
    a large common offset.  A third notebook shows that a numpy array passed
    to a function is shared with the caller.

    The development has four layers:
    - [Arith]: the arithmetic the formulas are written in, with three
      instances: exact rationals ([Qc]), IEEE binary64 ([float]), and
      binary64 with the warnings numpy issues ([flagged]);
    - the numpy value operations the code calls ([np_sum], [np_average],
      elementwise products with broadcasting);
    - the estimators and the comparator cell, once as functions on array
      values and once as programs over a store of shared arrays; the
      cells of the variable-scope notebook as programs over named
      variables ([Scope]); the curves and the trial loop of the
      curve-fitting notebook ([Fitting]);
    - the properties: first those the specification states, then further
      ones read off the code. *)

From Stdlib Require Import Floats QArith Qcanon.
From stdpp Require Import base numbers list gmap strings.

Set Warnings "-inexact-float".
Set Default Proof Using "Type".

(** ** Arithmetic interface *)

(** The four operations the estimators use, the additive identity that
    seeds a reduction, and the conversion of an element count. *)
Class Arith (A : Type) := {
  azero : A;
  aadd : A → A → A;
  asub : A → A → A;
  amul : A → A → A;
  adiv : A → A → A;
  of_count : nat → A
}.

Declare Scope arith_scope.
Delimit Scope arith_scope with ar.
Infix "⊕" := aadd (at level 50, left associativity) : arith_scope.
Infix "⊖" := asub (at level 50, left associativity) : arith_scope.
Infix "⊗" := amul (at level 40, left associativity) : arith_scope.
Infix "⊘" := adiv (at level 40, left associativity) : arith_scope.
Local Open Scope arith_scope.

(** Exact arithmetic: the formulas read over the rationals, what the code
    would return if no operation rounded.  [Qc] division is total, with
    [q / 0 = 0]: a statement in exact arithmetic says what is returned
    only together with the fact that no divisor is zero.  What the code
    returns on [float64] is stated on [binary64]. *)
#[export] Instance exact : Arith Qc := {|
  azero := 0%Qc;
  aadd := Qcplus;
  asub := Qcminus;
  amul := Qcmult;
  adiv := Qcdiv;
  of_count n := Qc_of_Z (Z.of_nat n)
|}.

(** IEEE 754 binary64, round to nearest even: numpy's [float64].  A count
    is converted exactly as long as it is below 2^53. *)
#[export] Instance binary64 : Arith float := {|
  azero := 0%float;
  aadd := PrimFloat.add;
  asub := PrimFloat.sub;
  amul := PrimFloat.mul;
  adiv := PrimFloat.div;
  of_count n := PrimFloat.of_uint63 (Uint63.of_Z (Z.of_nat n))
|}.

(** ** Results of a call *)

Inductive exn := ValueError | IndexError | NameError.

Inductive result (X : Type) :=
  | Ok (v : X)
  | Raise (e : exn).
Arguments Ok {X} v.
Arguments Raise {X} e.

#[export] Instance result_ret : MRet result := @Ok.
#[export] Instance result_bind : MBind result := λ X Y k r,
  match r with
  | Ok v => k v
  | Raise e => Raise e
  end.
#[export] Instance result_fmap : FMap result := λ X Y f r,
  match r with
  | Ok v => Ok (f v)
  | Raise e => Raise e
  end.

(** ** numpy value operations *)

Section Numpy.
Context {A : Type} `{Arith A}.

(** [x**2], elementwise on an array: numpy's squaring loop multiplies
    each element by itself.  [sq] is also the square of a scalar wherever
    the power is exact or correctly rounded; the power that the C library
    computes for a numpy scalar is the parameter of [LinearFit_pow]. *)
Definition sq (a : A) : A := a ⊗ a.
Definition square (x : list A) : list A := sq <$> x.

(** Array and scalar: the scalar is broadcast. *)
Definition scalar_add (b : A) (x : list A) : list A := (λ a, b ⊕ a) <$> x.
Definition sub_scalar (x : list A) (b : A) : list A := (λ a, a ⊖ b) <$> x.

(** Two arrays: equal shapes go elementwise, a one-element array is
    broadcast, any other pair of shapes raises. *)
Definition multiply (x y : list A) : result (list A) :=
  if decide (length x = length y) then Ok (zip_with amul x y)
  else match x, y with
       | [a], _ => Ok ((λ b, a ⊗ b) <$> y)
       | _, [b] => Ok ((λ a, a ⊗ b) <$> x)
       | _, _ => Raise ValueError
       end.

(** The reduction behind [np.sum]: numpy adds a contiguous array
    pairwise.  Fewer than eight elements are added left to right; a block
    of at most 128 is added into eight accumulators which are then
    combined as a balanced tree, the remainder being added one by one;
    a longer array is split in two, the first half a multiple of eight. *)
Definition PW_BLOCKSIZE : nat := 128.

Definition sum8 (r : list A) : A :=
  match r with
  | [r0; r1; r2; r3; r4; r5; r6; r7] =>
      ((r0 ⊕ r1) ⊕ (r2 ⊕ r3)) ⊕ ((r4 ⊕ r5) ⊕ (r6 ⊕ r7))
  | _ => azero
  end.

Fixpoint accumulate8 (k : nat) (r a : list A) : list A * list A :=
  match k with
  | O => (r, a)
  | S k' => accumulate8 k' (zip_with aadd r (take 8 a)) (drop 8 a)
  end.

Definition block_sum (a : list A) : A :=
  let '(r, rest) := accumulate8 (length a / 8 - 1) (take 8 a) (drop 8 a) in
  foldl aadd (sum8 r) rest.

Fixpoint pairwise_sum (fuel : nat) (a : list A) : A :=
  let n := length a in
  if decide (n < 8) then foldl aadd azero a
  else if decide (n ≤ PW_BLOCKSIZE) then block_sum a
  else match fuel with
       | O => azero
       | S fuel' =>
           let n2 := n / 2 - (n / 2) `mod` 8 in
           pairwise_sum fuel' (take n2 a) ⊕ pairwise_sum fuel' (drop n2 a)
       end.

(** The reduction starts from the identity of the addition. *)
Definition np_sum (a : list A) : A := azero ⊕ pairwise_sum (length a) a.

(** [np.average] without weights is the mean: the sum over the count. *)
Definition np_average (a : list A) : A := np_sum a ⊘ of_count (length a).

(** ** The estimators *)

Definition linear (x : list A) (m c : A) : list A := (λ a, m ⊗ a ⊕ c) <$> x.

(** [LinearFit] has the power of the mean, [xMean**2], as the product
    [sq]: the estimator where that power is exact or correctly rounded.
    [LinearFit_pow], further down, has the power as a parameter. *)
Definition LinearFit (x y : list A) : result (A * A) :=
  let xMean := np_average x in
  let yMean := np_average y in
  let x2Mean := np_average (square x) in
  xy ← multiply x y;
  let xyMean := np_average xy in
  let beta := (xyMean ⊖ xMean ⊗ yMean) ⊘ (x2Mean ⊖ sq xMean) in
  let alpha := yMean ⊖ beta ⊗ xMean in
  Ok (beta, alpha).

Definition LinearFit2 (x y : list A) : result (A * A) :=
  let xMean := np_average x in
  let yMean := np_average y in
  dxy ← multiply (sub_scalar x xMean) (sub_scalar y yMean);
  let beta := np_sum dxy ⊘ np_sum (square (sub_scalar x xMean)) in
  let alpha := yMean ⊖ beta ⊗ xMean in
  Ok (beta, alpha).
End Numpy.


(** ** The data of the notebook

    The three slopes below are those of the comparator cell; on binary64
    the model gives, digit for digit, the values the notebook recorded. *)

Definition baseline : float := 770656.892832%float.
Definition _t : list float :=
  [0.440225; 0.45023; 0.460235; 0.470241; 0.480245;
   0.490251; 0.500256; 0.510261; 0.520266; 0.530271]%float.
Definition t : list float := scalar_add baseline _t.
Definition ph : list float :=
  [568.1473; 568.4774; 568.7626; 569.0398; 569.234;
   569.5013; 569.8461; 570.1536; 570.3557; 570.6171]%float.


(** ** The formulas as the specification words them (exact arithmetic) *)

Module Spec.
Local Open Scope Qc_scope.

Fixpoint total (l : list Qc) : Qc :=
  match l with
  | [] => 0
  | a :: l' => a + total l'
  end.

Definition count (l : list Qc) : Qc := Qc_of_Z (Z.of_nat (length l)).

(** Arithmetic mean of a sequence, and mean of the products of a
    sequence of pairs. *)
Definition mean (l : list Qc) : Qc := total l / count l.
Definition mean_products (ps : list (Qc * Qc)) : Qc :=
  total ((λ p, p.1 * p.2) <$> ps) / Qc_of_Z (Z.of_nat (length ps)).

(** Section 4.2: moments of products. *)
Definition naive (x y : list Qc) : Qc * Qc :=
  let meanX := mean x in
  let meanY := mean y in
  let meanX2 := mean_products (zip x x) in
  let meanXY := mean_products (zip x y) in
  let slope := (meanXY - meanX * meanY) / (meanX2 - meanX * meanX) in
  let intercept := meanY - slope * meanX in
  (slope, intercept).

(** Section 4.3: centred sums. *)
Definition stable (x y : list Qc) : Qc * Qc :=
  let meanX := mean x in
  let meanY := mean y in
  let slope :=
    total ((λ p, (p.1 - meanX) * (p.2 - meanY)) <$> zip x y)
    / total ((λ a, (a - meanX) * (a - meanX)) <$> x) in
  let intercept := meanY - slope * meanX in
  (slope, intercept).
End Spec.

(** The products x_i·y_i of two sequences, and samples that have two
    distinct abscissae. *)
Definition products (x y : list Qc) : list Qc := (λ p, (p.1 * p.2)%Qc) <$> zip x y.

Definition two_distinct (x : list Qc) : Prop := ∃ a b, a ∈ x ∧ b ∈ x ∧ a ≠ b.


(** ** Arrays as shared objects

    A numpy array is an object: a name holds a reference, and a function
    that receives an array receives the reference.  The store maps
    references to array contents; [stdout] collects what is printed. *)

Module Store.
Section Heap.
Context {A : Type}.

Definition loc := positive.

Inductive out :=
  | Text (s : string)
  | Number (v : A)
  | Formatted (s : string) (shown : list A).

Record state := State {
  heap : gmap loc (list A);
  stdout : list out
}.

Definition prog (X : Type) : Type := state → result X * state.

#[global] Instance prog_ret : MRet prog := λ X v σ, (Ok v, σ).
#[global] Instance prog_bind : MBind prog := λ X Y k m σ,
  match m σ with
  | (Ok v, σ') => k v σ'
  | (Raise e, σ') => (Raise e, σ')
  end.

Definition raise {X} (e : exn) : prog X := λ σ, (Raise e, σ).

Definition of_result {X} (r : result X) : prog X := λ σ, (r, σ).

(** A new array object. *)
Definition alloc (a : list A) : prog loc := λ σ,
  let l := fresh (dom (heap σ)) in
  (Ok l, State (<[l := a]> (heap σ)) (stdout σ)).

(** The contents behind a reference. *)
Definition load (l : loc) : prog (list A) := λ σ,
  match heap σ !! l with
  | Some a => (Ok a, σ)
  | None => (Raise NameError, σ)
  end.

(** [e[i] = v]: in place, with a bounds check. *)
Definition setitem (l : loc) (i : nat) (v : A) : prog unit := λ σ,
  match heap σ !! l with
  | Some a =>
      if decide (i < length a) then
        (Ok (), State (<[l := <[i := v]> a]> (heap σ)) (stdout σ))
      else (Raise IndexError, σ)
  | None => (Raise NameError, σ)
  end.

(** [e.copy()]. *)
Definition copy (l : loc) : prog loc := a ← load l; alloc a.

Definition print (o : out) : prog unit := λ σ,
  (Ok (), State (heap σ) (stdout σ ++ [o])).

(** [print(s.format(e))] shows the contents the array has now. *)
Definition print_format (s : string) (l : loc) : prog unit :=
  a ← load l; print (Formatted s a).

(** [σ'] has every array of [σ], unchanged, and the same output. *)
Definition extends (σ σ' : state) : Prop :=
  heap σ ⊆ heap σ' ∧ stdout σ' = stdout σ.

(** The variable-scope notebook: [function4] writes through the
    reference it was given, [function4_safe] writes to a copy.  [of_int]
    converts the constant to the element type of the array. *)
Context (of_int : Z → A).

Definition function4 (e : loc) : prog unit :=
  print_format " Inside the function, we receive an argument with value {0}" e;;
  setitem e 2 (of_int 0);;
  print_format " We set one element to zero - now, inside the function, e={0}" e.

Definition function4_safe (e : loc) : prog unit :=
  e' ← copy e;
  print_format " Inside the function, we receive an argument with value {0}" e';;
  setitem e' 2 (of_int 1);;
  print_format " We set one element to zero - now, inside the function, e={0}" e'.
End Heap.

Arguments out : clear implicits.
Arguments state : clear implicits.
Arguments prog : clear implicits.

Section Programs.
Context {A : Type} `{Arith A}.
Local Abbreviation prog := (prog A).

(** Array expressions build a new array and leave their operands alone. *)
Definition average (x : loc) : prog A := a ← load x; mret (np_average a).
Definition sum (x : loc) : prog A := a ← load x; mret (np_sum a).
Definition power2 (x : loc) : prog loc := a ← load x; alloc (square a).
Definition minus (x : loc) (b : A) : prog loc := a ← load x; alloc (sub_scalar a b).
Definition times (x y : loc) : prog loc :=
  a ← load x; b ← load y; c ← of_result (multiply a b); alloc c.

Definition LinearFit (x y : loc) : prog (A * A) :=
  xMean ← average x;
  yMean ← average y;
  x2 ← power2 x;
  x2Mean ← average x2;
  xy ← times x y;
  xyMean ← average xy;
  let beta := (xyMean ⊖ xMean ⊗ yMean) ⊘ (x2Mean ⊖ sq xMean) in
  let alpha := yMean ⊖ beta ⊗ xMean in
  mret (beta, alpha).

Definition LinearFit2 (x y : loc) : prog (A * A) :=
  xMean ← average x;
  yMean ← average y;
  dx ← minus x xMean;
  dy ← minus y yMean;
  dxy ← times dx dy;
  num ← sum dxy;
  dx' ← minus x xMean;
  dx2 ← power2 dx';
  den ← sum dx2;
  let beta := num ⊘ den in
  let alpha := yMean ⊖ beta ⊗ xMean in
  mret (beta, alpha).

(** The comparator cell, over the globals [baseline], [t] and [ph]; it
    binds [lfBaseline], [lfNoBaseline] and [lf2Baseline]. *)
Definition comparator (baseline : A) (t ph : loc)
    : prog ((A * A) * (A * A) * (A * A)) :=
  print (Text "== Fit with baseline present ==");;
  lfBaseline ← LinearFit t ph;
  print (Number lfBaseline.1);;
  print (Text "== Fit with baseline manually removed ==");;
  t0 ← minus t baseline;
  lfNoBaseline ← LinearFit t0 ph;
  print (Number lfNoBaseline.1);;
  print (Text "== Alternative formula works with baseline present ==");;
  lf2Baseline ← LinearFit2 t ph;
  print (Number lf2Baseline.1);;
  mret (lfBaseline, lfNoBaseline, lf2Baseline).


End Programs.
End Store.

(** ** Binary64: magnitudes and tolerances *)

Section Magnitudes.
Local Open Scope Z_scope.

(** What rounding a positive mantissa returns: an infinity, or a finite
    number whose exponent is at least [e0]. *)
Definition rounded (s : bool) (e0 : Z) (r : spec_float) : Prop :=
  r = S754_infinity s ∨ ∃ m' e', r = S754_finite s m' e' ∧ e0 ≤ e' ≤ 971.

(** Magnitudes.  [big]: an infinity or a finite number of exponent at
    least 490, whose square overflows.  [huge]: above 2^600 in absolute
    value.  [small]: below 2 in absolute value and not subnormal. *)
Definition big (v : spec_float) : Prop :=
  match v with
  | S754_infinity _ => True
  | S754_finite _ _ e => 490 ≤ e
  | _ => False
  end.

Definition huge (B : spec_float) : bool :=
  SFltb (S754_finite false 4503599627370496 548) (SFabs B).

Definition small (x : spec_float) : bool :=
  match x with
  | S754_zero _ => true
  | S754_finite _ m e => (-1022 <=? e) && (e <=? 0) && (Zpos m <? 2 ^ 54)
  | _ => false
  end.
End Magnitudes.

Section Tolerances.
Local Open Scope float_scope.

(** [tol]-closeness of two computed values; a NaN is close to nothing. *)
Definition within (tol a b : float) : bool := abs (a - b) <=? tol.

Definition is_huge (B : float) : bool := 0x1p600 <? abs B.
Definition is_small (x : float) : bool := small (Prim2SF x).

(** Values that make a quotient undefined: the zeros and NaN. *)
Definition zero_or_nan (x : float) : Prop := x = 0 ∨ x = -0 ∨ x = nan.

(** Closeness relative to the size of the second value. *)
Definition rel_within (tol a b : float) : bool :=
  abs (a - b) <=? tol * abs b.
End Tolerances.

(** ** The stores of the notebooks *)

(** The globals of the notebook when the comparator cell runs: [t] and
    [ph] are arrays in the store, nothing has been printed. *)
Definition t_ref : Store.loc := 1%positive.
Definition ph_ref : Store.loc := 2%positive.
Definition notebook_store : Store.state float :=
  Store.State {[ t_ref := t; ph_ref := ph ]} [].

(** The array [e = np.array([1, 2, 3])] of the variable-scope notebook. *)
Definition e_ref : Store.loc := 1%positive.
Definition scope_store : Store.state Z :=
  Store.State {[ e_ref := [1; 2; 3]%Z ]} [].

(** ** The error of a line (exact arithmetic) *)

(** The sum of the squared deviations of the ordinates from the line
    [linear x m c]: the quantity a least-squares fit makes minimal. *)
Definition squared_error (x y : list Qc) (m c : Qc) : Qc :=
  Spec.total (square (zip_with Qcminus y (linear x m c))).

(** ** The cell that expands the denominator *)

Section Rearrangement.
Context {A : Type} `{Arith A}.

(** [np.average(_t**2) + baseline**2 + 2*baseline*np.average(_t)] *)
Definition x2Mean_expanded (baseline : A) (_t : list A) : A :=
  np_average (square _t) ⊕ sq baseline ⊕ of_count 2 ⊗ baseline ⊗ np_average _t.

(** [(baseline)**2 + 2*baseline*np.average(_t) + np.average(_t)**2] *)
Definition xMean2_expanded (baseline : A) (_t : list A) : A :=
  sq baseline ⊕ of_count 2 ⊗ baseline ⊗ np_average _t ⊕ sq (np_average _t).

(** [denom = np.average(_t**2) - np.average(_t)**2] *)
Definition denom (_t : list A) : A := np_average (square _t) ⊖ sq (np_average _t).

(** [(np.average(t*ph) - np.average(t) * np.average(ph)) / denom] *)
Definition slope_with_denom (t ph _t : list A) : result A :=
  tph ← multiply t ph;
  Ok ((np_average tph ⊖ np_average t ⊗ np_average ph) ⊘ denom _t).
End Rearrangement.

(** ** Every element once: the shape of a pairwise reduction

    [tree_sum l v]: the value [v] is obtained by adding the elements of
    [l], each one once, in some order and some grouping, possibly with
    the identity the reduction starts from. *)
Inductive tree_sum {A : Type} `{Arith A} : list A → A → Prop :=
  | tree_sum_nil : tree_sum [] azero
  | tree_sum_one (a : A) : tree_sum [a] a
  | tree_sum_add (l k : list A) (u v : A) :
      tree_sum l u → tree_sum k v → tree_sum (l ++ k) (u ⊕ v)
  | tree_sum_perm (l k : list A) (u : A) :
      l ≡ₚ k → tree_sum l u → tree_sum k u.

(** A mean of [a]: a sum of its elements, each one once, over their
    number. *)
Definition is_mean {A : Type} `{Arith A} (a : list A) (m : A) : Prop :=
  ∃ s, tree_sum a s ∧ m = s ⊘ of_count (length a).

(** ** The power of a scalar

    [xMean**2] in [LinearFit] is the power of a numpy scalar, which numpy
    hands to the [pow] of the C library; on an array, [x**2] is numpy's
    own squaring loop, the product of each element with itself
    ([square]).  The C library's power is a parameter, [pow2]: in exact
    arithmetic it is the product, in binary64 it returns the rounded
    product at most arguments and a neighbour of it at some.
    [LinearFit] above is [LinearFit_pow sq]. *)
Section Power.
Context {A : Type} `{Arith A}.

Definition LinearFit_pow (pow2 : A → A) (x y : list A) : result (A * A) :=
  let xMean := np_average x in
  let yMean := np_average y in
  let x2Mean := np_average (square x) in
  xy ← multiply x y;
  let xyMean := np_average xy in
  let beta := (xyMean ⊖ xMean ⊗ yMean) ⊘ (x2Mean ⊖ pow2 xMean) in
  let alpha := yMean ⊖ beta ⊗ xMean in
  Ok (beta, alpha).

(** The power returns the product at [m]. *)
Definition square_at (pow2 : A → A) (m : A) : Prop := pow2 m = sq m.
End Power.

(** ** Binary64: warnings

    numpy reads the floating-point status after every operation, on
    arrays and on scalars.  In its default error state an invalid
    operation (a NaN out of operands that are not NaN), a division by zero
    and an overflow (an infinity out of finite operands) each issue a
    [RuntimeWarning]; underflow is ignored.  A [flagged] value is a number
    together with the answer to: did one of the operations it was computed
    with issue a warning?  The estimators use every value they compute in
    the intercept they return, so the warnings of a call are those of the
    returned pair. *)
Section Warnings.
Local Open Scope float_scope.

Definition flagged : Type := float * bool.

(** A value of the data: no operation yet. *)
Definition quiet (v : float) : flagged := (v, false).

(** The operation with operands [a], [b] and result [r] issues a warning. *)
Definition signals (a b r : float) : bool :=
  (is_nan r && negb (is_nan a) && negb (is_nan b))
  || (is_infinity r && is_finite a && is_finite b).

Definition flag2 (op : float → float → float) (a b : flagged) : flagged :=
  let r := op a.1 b.1 in (r, a.2 || b.2 || signals a.1 b.1 r).

#[export] Instance warning : Arith flagged := {|
  azero := quiet 0;
  aadd := flag2 PrimFloat.add;
  asub := flag2 PrimFloat.sub;
  amul := flag2 PrimFloat.mul;
  adiv := flag2 PrimFloat.div;
  of_count n := quiet (of_count n)
|}.

Definition flagged_pow (pow2 : float → float) (a : flagged) : flagged :=
  let r := pow2 a.1 in (r, a.2 || signals a.1 a.1 r).

(** A NaN that carries its warning: [a] is not a silent NaN. *)
Definition noticed (a : flagged) : Prop := is_nan a.1 = true → a.2 = true.

(** The numbers of a returned pair, and whether the call warned. *)
Definition values (r : result (flagged * flagged)) : result (float * float) :=
  (λ p, (p.1.1, p.2.1)) <$> r.

Definition warned (r : result (flagged * flagged)) : bool :=
  match r with
  | Ok (β, α) => β.2 || α.2
  | Raise _ => false
  end.

(** A returned pair holds a NaN. *)
Definition has_nan (r : result (float * float)) : bool :=
  match r with
  | Ok (β, α) => is_nan β || is_nan α
  | Raise _ => false
  end.

End Warnings.

(** ** Binary64: deviations and trial offsets *)

Section Deviations.
Local Open Scope float_scope.

(** [a] differs from [b] by more than [tol]; false when either is a NaN. *)
Definition deviates (tol a b : float) : bool := tol <? abs (a - b).

(** The offsets 10^0 ... 10^11 and 10^6 ... 10^15. *)
Definition offsets_stable : list float :=
  [1; 10; 100; 1000; 1e4; 1e5; 1e6; 1e7; 1e8; 1e9; 1e10; 1e11].
Definition offsets_naive : list float :=
  [1e6; 1e7; 1e8; 1e9; 1e10; 1e11; 1e12; 1e13; 1e14; 1e15].
End Deviations.

(** ** Binary64: whole numbers

    The whole numbers below 2^53 in absolute value are binary64 numbers,
    and a sum, a difference or an exact quotient of two of them that
    stays below 2^53 is computed without rounding. *)
Section Whole.
Local Open Scope Z_scope.

(** The binary64 number nearest to the whole number [z]: [z] itself
    below 2^53. *)
Definition whole (z : Z) : spec_float := binary_normalize prec emax z 0 false.

(** The canonical form of the whole number [c] with the sign [s]. *)
Definition canon (s : bool) (c : positive) : spec_float :=
  S754_finite s (Z.to_pos (Zpos c * 2 ^ (53 - Zpos (digits2_pos c))))
    (Zpos (digits2_pos c) - 53).

(** The float [x] is the whole number [z]. *)
Definition is_whole (x : float) (z : Z) : Prop :=
  Z.abs z < 2 ^ 53 ∧ Prim2SF x = whole z.

Definition Zsum (zs : list Z) : Z := foldr Z.add 0 zs.
Definition Zabs_sum (zs : list Z) : Z := foldr (λ z s, Z.abs z + s) 0 zs.
End Whole.

(** ** Binary64 against exact arithmetic

    A finite binary64 number is a rational number, so what the code
    returns on binary64 data can be set against what the same formula
    gives on the same data when no operation rounds. *)
Section Accuracy.

(** The rational number that a finite binary64 number is. *)
Definition SF2Q (s : spec_float) : Q :=
  match s with
  | S754_finite sg m e => ((if sg then -1 else 1) * (Zpos m # 1) * Qpower 2 e)%Q
  | _ => 0%Q
  end.

Definition to_Qc (x : float) : Qc := Q2Qc (SF2Q (Prim2SF x)).

Definition Qcleb (p q : Qc) : bool := Qle_bool p q.
Definition Qc_abs (q : Qc) : Qc := if Qcleb 0 q then q else (- q)%Qc.

(** 10^-k and 2^-52. *)
Definition tenth_to (k : positive) : Qc := Q2Qc (1 # 10 ^ k).
Definition ulp2 : Qc := Q2Qc (1 # 2 ^ 52).

(** [v] is finite and is the number [e] to within the relative error
    [tol]. *)
Definition accurate (tol : Qc) (v : float) (e : Qc) : bool :=
  is_finite v && Qcleb (Qc_abs (to_Qc v - e)) (tol * Qc_abs e).

(** The slope of a binary64 result against the slope of an exact one. *)
Definition slope_accurate (tol : Qc) (r : result (float * float))
    (e : result (Qc * Qc)) : bool :=
  match r, e with
  | Ok (β, _), Ok (βe, _) => accurate tol β βe
  | _, _ => false
  end.

(** The data as rationals. *)
Definition rationals (x : list float) : list Qc := to_Qc <$> x.

(** The mean the code computes is the arithmetic mean of the data to
    within 2^-52 of its size. *)
Definition mean_accurate (a : list float) : bool :=
  accurate ulp2 (np_average a) (Spec.mean (rationals a)).
End Accuracy.

(** ** Binary64: small samples

    Every sample of three points whose coordinates are among six values,
    and every list of up to four of these values. *)
Section Grid.
Local Open Scope float_scope.

Definition grid : list float := [0.1; 0.3; 0.5; 0.7; 0.9; 1.1].

Fixpoint lists (n : nat) : list (list float) :=
  match n with
  | O => [[]]
  | S n' => a ← grid; l ← lists n'; [a :: l]
  end.

Definition triples : list (list float) := lists 3.

Definition all_equal (x : list float) : bool :=
  match x with
  | [] => true
  | a :: x' => forallb (λ b, a =? b) x'
  end.

(** The power at [m] is the rounded product or one of its two
    neighbours: within one unit in the last place. *)
Definition powers (m : float) : list float :=
  [next_down (sq m); sq m; next_up (sq m)].

Definition faithful_at (pow2 : float → float) (m : float) : Prop :=
  pow2 m ∈ powers m.

(** Two values agree: to an absolute 1e-12 and, where the second one is
    at least 1e-3 in absolute value, to a relative 1e-9. *)
Definition close (a b : float) : bool :=
  within 1e-12 a b && (if 1e-3 <=? abs b then rel_within 1e-9 a b else true).

Definition agree (r1 r2 : result (float * float)) : bool :=
  match r1, r2 with
  | Ok (β1, α1), Ok (β2, α2) => close β1 β2 && close α1 α2
  | _, _ => false
  end.

(** The slope with the offset [B] is the slope without it to within
    4e-15 * B. *)
Definition slope_kept (B : float) (r' r : result (float * float)) : bool :=
  match r', r with
  | Ok (β', _), Ok (β, _) => within (4e-15 * B) β' β
  | _, _ => false
  end.

Definition offsets_grid : list float := [1; 1000; 1e6].

(** The offsets 10^0 ... 10^8. *)
Definition offsets_small : list float :=
  [1; 10; 100; 1000; 1e4; 1e5; 1e6; 1e7; 1e8].

(** The checks of one sample, and of one abscissa list against every
    ordinate list. *)
Definition agree_at (x y : list float) : bool :=
  forallb (λ p, agree (LinearFit_pow (λ _, p) x y) (LinearFit2 x y))
    (powers (np_average x)).

Definition agree_row (x : list float) : bool :=
  all_equal x || forallb (agree_at x) triples.

Definition kept_at (x y : list float) : bool :=
  forallb (λ B, slope_kept B (LinearFit2 (scalar_add B x) y) (LinearFit2 x y))
    offsets_grid.

Definition kept_row (x : list float) : bool :=
  all_equal x || forallb (kept_at x) triples.

Definition short_lists : list (list float) :=
  lists 1 ++ lists 2 ++ lists 3 ++ lists 4.
End Grid.



(** ** The curve-fitting notebook *)

Section Curves.
Context {A : Type} `{Arith A}.

(** [a * (x**2)] and [a * (x**2) + b * x + c], elementwise. *)
Definition quadratic (x : list A) (a : A) : list A := (λ v, a ⊗ sq v) <$> x.

Definition generalised_quadratic (x : list A) (a b c : A) : list A :=
  (λ v, a ⊗ sq v ⊕ b ⊗ v ⊕ c) <$> x.
End Curves.

(** [np.sin(x)/x] at one value; on an array numpy goes elementwise.  The
    sine is numpy's and is a parameter here. *)
Definition sinc (sin : float → float) (x : float) : float := (sin x / x)%float.

(** [silly_curve_fit] draws one figure per trial value and then prints a
    question.  The figures and the printed line are recorded as a trace;
    [function] is the caller's, and may raise. *)
Module Fitting.
Section Trace.
Context {A : Type}.

Inductive event :=
  | Title (s : string) (a : Z)
  | Plot (x y : list A) (fmt : option string)
  | Show
  | Print (s : string).

(** [range(lo, hi)]. *)
Definition range (lo hi : Z) : list Z := seqZ lo (hi - lo).

(** The body of the loop, for the trial values that are left. *)
Fixpoint trials (function : list A → Z → result (list A)) (xData yData : list A)
    (values : list Z) (log : list event) : result unit * list event :=
  match values with
  | [] => (Ok (), log)
  | a :: values' =>
      let log1 := log ++ [Title "Function plotted with a={0}" a;
                          Plot xData yData (Some "x")] in
      match function xData a with
      | Ok yBestFit =>
          trials function xData yData values' (log1 ++ [Plot xData yBestFit None; Show])
      | Raise e => (Raise e, log1)
      end
  end.

Definition silly_curve_fit (function : list A → Z → result (list A))
    (xData yData : list A) (p0 : Z) : result unit * list event :=
  match trials function xData yData (range (p0 - 4) (p0 + 4)) [] with
  | (Ok (), log) => (Ok (), log ++ [Print "Which of those looks like the best fit to you?"])
  | (Raise e, log) => (Raise e, log)
  end.

(** The figure of one trial value. *)
Definition figure (xData yData : list A) (a : Z) (yBestFit : list A) : list event :=
  [Title "Function plotted with a={0}" a; Plot xData yData (Some "x");
   Plot xData yBestFit None; Show].
End Trace.
Arguments event : clear implicits.
End Fitting.


(** ** Names and scopes

    The variable-scope notebook is about where a name is visible.  A
    name is bound at the top level (a global) or in the frame of the
    function call that is running; a call gets a new frame holding its
    parameters, an assignment inside a function binds in that frame, and
    the frame is gone when the call returns.  A name is looked up in the
    running frame, then among the globals.  (Python decides at compile
    time which names of a function are local; the two rules agree on the
    functions of the notebook, which bind every local before reading it.)

    Values are integers and references to arrays of the store. *)

Module Scope.

Inductive value :=
  | Int (z : Z)
  | Ref (l : Store.loc).

Inductive error :=
  | Builtin (e : exn)
  | TypeError
  | AttributeError.

Inductive outcome (X : Type) :=
  | Return (v : X)
  | Throw (e : error).
Arguments Return {X} v.
Arguments Throw {X} e.

Definition frame := gmap string value.

Record state := State {
  globals : frame;
  frames : list frame;
  store : Store.state Z
}.

Definition prog (X : Type) : Type := state → outcome X * state.

#[global] Instance prog_ret : MRet prog := λ X v σ, (Return v, σ).
#[global] Instance prog_bind : MBind prog := λ X Y k m σ,
  match m σ with
  | (Return v, σ') => k v σ'
  | (Throw e, σ') => (Throw e, σ')
  end.

Definition throw {X} (e : error) : prog X := λ σ, (Throw e, σ).

(** An operation on the store of arrays. *)
Definition lift {X} (p : Store.prog Z X) : prog X := λ σ,
  match p (store σ) with
  | (Ok v, s) => (Return v, State (globals σ) (frames σ) s)
  | (Raise e, s) => (Throw (Builtin e), State (globals σ) (frames σ) s)
  end.

(** Reading a name. *)
Definition lookup (x : string) : prog value := λ σ,
  match head (frames σ) ≫= (.!! x) with
  | Some v => (Return v, σ)
  | None =>
      match globals σ !! x with
      | Some v => (Return v, σ)
      | None => (Throw (Builtin NameError), σ)
      end
  end.

(** [x = v]: binds in the running frame, at the top level among the
    globals. *)
Definition assign (x : string) (v : value) : prog unit := λ σ,
  match frames σ with
  | [] => (Return (), State (<[x := v]> (globals σ)) [] (store σ))
  | f :: fs => (Return (), State (globals σ) (<[x := v]> f :: fs) (store σ))
  end.

(** A function: its parameters and its body. *)
Record func := Def {
  params : list string;
  body : prog unit
}.

(** [f(args)]: the arguments are bound to the parameters in a new frame,
    which is dropped when the body returns or raises.  A wrong number of
    arguments is a [TypeError], raised before anything runs. *)
Definition call (f : func) (args : list value) : prog unit := λ σ,
  if decide (length args = length (params f)) then
    let '(r, σ') :=
      body f (State (globals σ) (list_to_map (zip (params f) args) :: frames σ) (store σ)) in
    (r, State (globals σ') (tail (frames σ')) (store σ'))
  else (Throw TypeError, σ).

(** What [format] shows of a value: an integer, or the contents of an
    array at this moment. *)
Definition show (v : value) : prog (list Z) :=
  match v with
  | Int z => mret [z]
  | Ref l => lift (Store.load l)
  end.

Fixpoint shows (xs : list string) : prog (list Z) :=
  match xs with
  | [] => mret []
  | x :: xs' => v ← lookup x; a ← show v; b ← shows xs'; mret (a ++ b)
  end.

(** [print(s)] and [print(s.format(x1, ..., xn))]. *)
Definition print_text (s : string) : prog unit := lift (Store.print (Store.Text s)).

Definition print_format (s : string) (xs : list string) : prog unit :=
  a ← shows xs; lift (Store.print (Store.Formatted s a)).

(** [print(x)]. *)
Definition print_name (x : string) : prog unit :=
  v ← lookup x;
  match v with
  | Int z => lift (Store.print (Store.Number z))
  | Ref l => a ← lift (Store.load l); lift (Store.print (Store.Formatted "{0}" a))
  end.

(** [np.array(a)], [x.copy()] and [x[i] = z]. *)
Definition array (a : list Z) : prog value := l ← lift (Store.alloc a); mret (Ref l).

Definition copy (x : string) : prog value :=
  v ← lookup x;
  match v with
  | Ref l => l' ← lift (Store.copy l); mret (Ref l')
  | Int _ => throw AttributeError
  end.

Definition setitem (x : string) (i : nat) (z : Z) : prog unit :=
  v ← lookup x;
  match v with
  | Ref l => lift (Store.setitem l i z)
  | Int _ => throw TypeError
  end.

(** *** The functions of the notebook *)

Definition function1 : func := Def [] (
  assign "b" (Int 10);;
  assign "c" (Int 11);;
  print_format " Inside the function, we can use variables b and c. They have values of {0} and {1}"
    ["b"; "c"]).

Definition function2 : func := Def ["c"] (
  print_format " Inside the function, we receive an argument with value {0}" ["c"];;
  assign "c" (Int 0);;
  print_format " We set it to a new value - now, inside the function, c={0}" ["c"]).

Definition function3 : func := Def [] (
  print_format " Inside the function, we can actually access d. It has value {0}" ["d"]).

Definition function4 : func := Def ["e"] (
  print_format " Inside the function, we receive an argument with value {0}" ["e"];;
  setitem "e" 2 0;;
  print_format " We set one element to zero - now, inside the function, e={0}" ["e"]).

Definition function4_safe : func := Def ["e"] (
  e ← copy "e"; assign "e" e;;
  print_format " Inside the function, we receive an argument with value {0}" ["e"];;
  setitem "e" 2 1;;
  print_format " We set one element to zero - now, inside the function, e={0}" ["e"]).

(** *** The cells of the notebook, in order *)

Definition cell_function1 : prog unit :=
  call function1 [];;
  print_text "After the function returns, we cannot refer to that variable b again";;
  print_text "The next line of code will therefore fail";;
  print_name "b".

Definition cell_c : prog unit :=
  print_text "We will define the variable c outside the function";;
  assign "c" (Int 2);;
  print_format "It has value {0}" ["c"];;
  print_text "Now we will call our function, which will define a *different* internal variable with the same name";;
  call function1 [];;
  print_format "After the function returns, back in our main code our variable c still has value {0}"
    ["c"].

Definition cell_function2 : prog unit :=
  print_format "We start with c={0}, and pass it to our function" ["c"];;
  c ← lookup "c"; call function2 [c];;
  print_format "Back at the top-level scope, c={0} still!" ["c"].

Definition cell_function3 : prog unit :=
  print_text "We will define the variable d outside the function";;
  assign "d" (Int 3);;
  print_format "It has value {0}" ["d"];;
  call function2 [].

Definition cell_function4 : prog unit :=
  e ← array [1; 2; 3]%Z; assign "e" e;;
  print_format "We start with e={0}, and pass it to our function" ["e"];;
  e ← lookup "e"; call function4 [e];;
  print_format "Back at the top-level scope, e={0} has been modified!" ["e"].

Definition cell_function4_safe : prog unit :=
  print_format "We start with e={0}, and pass it to our function" ["e"];;
  e ← lookup "e"; call function4_safe [e];;
  print_format "Back at the top-level scope, e={0} is unchanged!" ["e"].

(** What has been printed. *)
Definition stdout (σ : state) : list (Store.out Z) := Store.stdout (store σ).
Definition heap (σ : state) : gmap Store.loc (list Z) := Store.heap (store σ).

(** The state with more printed. *)
Definition printed (σ : state) (o : list (Store.out Z)) : state :=
  State (globals σ) (frames σ) (Store.State (heap σ) (stdout σ ++ o)).
End Scope.

(** * Lemmas *)

(** The fuel of [pairwise_sum] bounds the depth of the halving; the length
    of the array is always enough, and more fuel changes nothing. *)
Section Shapes.
Context {A : Type} `{Arith A}.

Lemma pairwise_sum_fuel (fuel fuel' : nat) (a : list A) :
  length a ≤ fuel → length a ≤ fuel' → pairwise_sum fuel a = pairwise_sum fuel' a.
Proof.
  revert fuel' a; induction fuel as [|fuel IH]; intros fuel' a Hfuel Hfuel'.
  - destruct a; [|cbn in Hfuel; lia]. by destruct fuel'.
  - destruct fuel' as [|fuel'].
    { destruct a; [|cbn in Hfuel'; lia]. reflexivity. }
    cbn [pairwise_sum]. repeat case_decide; try done.
    unfold PW_BLOCKSIZE in *.
    set (n2 := length a / 2 - (length a / 2) `mod` 8).
    assert (Hn2 : 0 < n2 < length a).
    { subst n2.
      pose proof (Nat.mod_upper_bound (length a / 2) 8).
      pose proof (Nat.Div0.mul_div_le (length a) 2).
      assert (64 ≤ length a / 2) by (apply Nat.div_le_lower_bound; lia).
      lia. }
    f_equal; apply IH; rewrite ?length_take, ?length_drop; lia.
Qed.

(** Equal shapes never raise. *)

Lemma multiply_same_length (x y : list A) :
  length x = length y → multiply x y = Ok (zip_with amul x y).
Proof. intros Hlen. unfold multiply. by rewrite decide_True. Qed.

Lemma LinearFit_same_length (x y : list A) :
  length x = length y → ∃ r, LinearFit x y = Ok r.
Proof.
  intros Hlen. unfold LinearFit. rewrite multiply_same_length by done. by eexists.
Qed.

End Shapes.

(** ** The recorded outputs *)

Section Recorded.
Local Open Scope float_scope.

Example LinearFit_baseline :
  LinearFit t ph = Ok (26.355189732142858, -20310252.004286788).
Proof. vm_compute. reflexivity. Qed.

Example LinearFit_no_baseline :
  fst <$> LinearFit (sub_scalar t baseline) ph = Ok 27.26933888725625.
Proof. vm_compute. reflexivity. Qed.

Example LinearFit2_baseline :
  LinearFit2 t ph = Ok (27.269338887270596, -21014747.795351669).
Proof. vm_compute. reflexivity. Qed.

(** The cell that expands the two terms of the denominator; the four
    values are the ones the notebook printed. *)
Example rearrangement_cell :
  (np_average (square _t) + sq baseline + 2 * baseline * np_average _t
   = 593912794389.295
   ∧ sq baseline + 2 * baseline * np_average _t + sq (np_average _t)
     = 593912794389.2942
   ∧ np_average (square _t) - sq (np_average _t) = 0.0008258472174900444
   ∧ (np_average (zip_with mul t ph) - np_average t * np_average ph)
     / (np_average (square _t) - sq (np_average _t))
     = 27.269334144687328).
Proof. repeat split; vm_compute; reflexivity. Qed.
End Recorded.

(** ** Exact arithmetic: the pairwise reduction is the plain sum *)

Section Exact.
Local Open Scope Qc_scope.
Import Spec.

Ltac unfold_exact :=
  cbn [azero aadd asub amul adiv of_count exact] in *.

Lemma total_app (l k : list Qc) : total (l ++ k) = total l + total k.
Proof. induction l as [|a l IH]; cbn; [ring | rewrite IH; ring]. Qed.

Lemma total_take_drop (n : nat) (l : list Qc) :
  total (take n l) + total (drop n l) = total l.
Proof. by rewrite <- total_app, take_drop. Qed.

Lemma foldl_total (l : list Qc) (a : Qc) : foldl aadd a l = a + total l.
Proof.
  revert a; induction l as [|b l IH]; intros a; cbn.
  - ring.
  - rewrite IH. unfold_exact. ring.
Qed.

Lemma total_zip_with_add (r c : list Qc) :
  length r = length c → total (zip_with aadd r c) = total r + total c.
Proof.
  revert c; induction r as [|a r IH]; intros [|b c] Hlen; try discriminate.
  - cbn. ring.
  - cbn in *. rewrite IH by lia. unfold_exact. ring.
Qed.

Lemma sum8_total (r : list Qc) : length r = 8%nat → sum8 r = total r.
Proof.
  intros Hlen.
  do 8 (destruct r as [|? r]; [discriminate|]).
  destruct r; [|discriminate].
  cbn. unfold_exact. ring.
Qed.

Lemma accumulate8_total (k : nat) (r a : list Qc) :
  length r = 8%nat → (8 * k ≤ length a)%nat →
  length (accumulate8 k r a).1 = 8%nat ∧
  total (accumulate8 k r a).1 + total (accumulate8 k r a).2 = total r + total a.
Proof.
  revert r a; induction k as [|k IH]; intros r a Hr Ha; cbn [accumulate8].
  - done.
  - assert (Htake : length (take 8 a) = 8%nat) by (rewrite length_take; lia).
    destruct (IH (zip_with aadd r (take 8 a)) (drop 8 a)) as [Hlen Hsum].
    + rewrite length_zip_with. lia.
    + rewrite length_drop. lia.
    + split; [done|]. rewrite Hsum, total_zip_with_add by lia.
      rewrite <- (total_take_drop 8 a). ring.
Qed.

Lemma block_sum_total (a : list Qc) : (8 ≤ length a)%nat → block_sum a = total a.
Proof.
  intros Hlen. unfold block_sum.
  assert (Hk : (8 * (length a / 8 - 1) ≤ length (drop 8 a))%nat).
  { rewrite length_drop. pose proof (Nat.Div0.mul_div_le (length a) 8). lia. }
  assert (Htake : length (take 8 a) = 8%nat) by (rewrite length_take; lia).
  destruct (accumulate8_total _ _ _ Htake Hk) as [Hr Hsum].
  destruct (accumulate8 _ _ _) as [r rest]; cbn in *.
  rewrite foldl_total, sum8_total, Hsum by done.
  apply total_take_drop.
Qed.

Lemma pairwise_sum_total (fuel : nat) (a : list Qc) :
  (length a ≤ fuel)%nat → pairwise_sum fuel a = total a.
Proof.
  revert a; induction fuel as [|fuel IH]; intros a Hfuel.
  - destruct a; [|cbn in Hfuel; lia]. reflexivity.
  - cbn [pairwise_sum]. case_decide as H8.
    { rewrite foldl_total. unfold_exact. ring. }
    case_decide as H128.
    { apply block_sum_total. lia. }
    unfold PW_BLOCKSIZE in H128.
    set (n2 := (length a / 2 - (length a / 2) `mod` 8)%nat).
    assert (Hn2 : (0 < n2 < length a)%nat).
    { subst n2.
      pose proof (Nat.mod_upper_bound (length a / 2) 8).
      pose proof (Nat.Div0.mul_div_le (length a) 2).
      assert (64 ≤ length a / 2)%nat by (apply Nat.div_le_lower_bound; lia).
      lia. }
    rewrite !IH.
    + unfold_exact. apply total_take_drop.
    + rewrite length_drop. lia.
    + rewrite length_take. lia.
Qed.

Lemma np_sum_total (a : list Qc) : np_sum a = total a.
Proof.
  unfold np_sum. rewrite pairwise_sum_total by done. unfold_exact. ring.
Qed.

Lemma np_average_mean (a : list Qc) : np_average a = mean a.
Proof. unfold np_average, mean. by rewrite np_sum_total. Qed.
End Exact.

(** ** Exact arithmetic: sums of products and of centred products *)

Section Algebra.
Local Open Scope Qc_scope.
Import Spec.

Ltac unfold_exact :=
  cbn [azero aadd asub amul adiv of_count exact] in *.


Lemma count_cons (a : Qc) (l : list Qc) : count (a :: l) = 1 + count l.
Proof.
  unfold count. cbn [length].
  by rewrite Nat2Z.inj_succ, <- Z.add_1_l, Z2Qc_inj_add, Z2Qc_inj_1.
Qed.

Lemma count_nonzero (l : list Qc) : l ≠ [] → count l ≠ 0.
Proof.
  intros Hl Hc. unfold count in Hc. rewrite <- Z2Qc_inj_0 in Hc.
  apply Z2Qc_inj in Hc. destruct l; [done | cbn in Hc; lia].
Qed.

Lemma count_eq (l k : list Qc) : length l = length k → count l = count k.
Proof. unfold count. by intros ->. Qed.

Lemma zip_with_products (x y : list Qc) : zip_with amul x y = products x y.
Proof.
  unfold products. revert y; induction x as [|a x IH]; intros [|b y]; cbn; try done.
  by rewrite IH.
Qed.

Lemma square_products (x : list Qc) : square x = products x x.
Proof. unfold square, products. induction x as [|a x IH]; cbn; [done | by rewrite IH]. Qed.

Lemma length_products (x y : list Qc) :
  length x = length y → length (products x y) = length x.
Proof. intros Hlen. unfold products. rewrite length_fmap, length_zip. lia. Qed.

Lemma zip_with_centred (x y : list Qc) (c d : Qc) :
  zip_with amul (sub_scalar x c) (sub_scalar y d)
  = (λ p, (p.1 - c) * (p.2 - d)) <$> zip x y.
Proof.
  unfold sub_scalar. revert y; induction x as [|a x IH]; intros [|b y]; cbn; try done.
  by rewrite IH.
Qed.

Lemma square_centred (x : list Qc) (c : Qc) :
  square (sub_scalar x c) = (λ a, (a - c) * (a - c)) <$> x.
Proof.
  unfold square, sub_scalar. by rewrite <- list_fmap_compose.
Qed.

(** Σ (x_i - c)(y_i - d) = Σ x_i y_i - c Σ y_i - d Σ x_i + n c d. *)
Lemma total_centred_products (x y : list Qc) (c d : Qc) :
  length x = length y →
  total ((λ p, (p.1 - c) * (p.2 - d)) <$> zip x y)
  = total (products x y) - c * total y - d * total x + count x * c * d.
Proof.
  unfold products.
  revert y; induction x as [|a x IH]; intros [|b y] Hlen; try discriminate.
  - cbn [zip zip_with fmap list_fmap total].
    change (count []) with (Qc_of_Z 0). rewrite Z2Qc_inj_0. ring.
  - cbn [zip zip_with fmap list_fmap total fst snd].
    rewrite IH by (cbn in Hlen; lia). rewrite count_cons. ring.
Qed.

Lemma total_centred_squares (x : list Qc) (c : Qc) :
  total ((λ a, (a - c) * (a - c)) <$> x)
  = total (products x x) - c * total x - c * total x + count x * c * c.
Proof.
  rewrite <- (total_centred_products x x c c) by done.
  f_equal. induction x as [|a x IH]; cbn; [done | by rewrite IH].
Qed.

Lemma total_scalar_add (B : Qc) (x : list Qc) :
  total (scalar_add B x) = count x * B + total x.
Proof.
  unfold scalar_add. induction x as [|a x IH].
  - cbn [fmap list_fmap total].
    change (count []) with (Qc_of_Z 0). rewrite Z2Qc_inj_0. ring.
  - cbn [fmap list_fmap total]. rewrite IH, count_cons. unfold_exact. ring.
Qed.

(** A square is not negative, and a sum of squares vanishes only when every
    term does. *)
Lemma Qc_square_nonneg (a : Qc) : 0 ≤ a * a.
Proof.
  destruct (Qclt_le_dec a 0) as [Hneg | Hpos].
  - replace (a * a) with ((- a) * (- a)) by ring.
    assert (0 ≤ - a).
    { apply Qclt_le_weak in Hneg. apply Qcopp_le_compat in Hneg.
      by replace (- 0) with 0 in Hneg by ring. }
    by apply Qcmult_nonneg_nonneg.
  - by apply Qcmult_nonneg_nonneg.
Qed.

Lemma total_squares_nonneg (f : Qc → Qc) (x : list Qc) :
  0 ≤ total ((λ a, f a * f a) <$> x).
Proof.
  induction x as [|a x IH]; cbn; [done|].
  apply Qcplus_nonneg_nonneg; [apply Qc_square_nonneg | done].
Qed.

Lemma total_squares_zero (f : Qc → Qc) (x : list Qc) (a : Qc) :
  total ((λ a, f a * f a) <$> x) = 0 → a ∈ x → f a = 0.
Proof.
  induction x as [|b x IH]; intros Htot Hin; [by apply elem_of_nil in Hin|].
  cbn in Htot.
  pose proof (Qc_square_nonneg (f b)) as Hb.
  pose proof (total_squares_nonneg f x) as Hx.
  assert (Hb0 : f b * f b = 0).
  { apply Qcle_antisym; [|done].
    rewrite <- Htot. rewrite <- (Qcplus_0_r (f b * f b)) at 1.
    by apply Qcplus_le_mono_l. }
  apply elem_of_cons in Hin as [-> | Hin].
  - by destruct (Qcmult_integral _ _ Hb0).
  - apply IH; [|done]. rewrite Hb0 in Htot. by rewrite Qcplus_0_l in Htot.
Qed.

Lemma centred_squares_nonzero (x : list Qc) (c : Qc) :
  two_distinct x → total ((λ a, (a - c) * (a - c)) <$> x) ≠ 0.
Proof.
  intros (a & b & Ha & Hb & Hab) Hzero.
  pose proof (total_squares_zero (λ a, a - c) x a Hzero Ha) as Ha0.
  pose proof (total_squares_zero (λ a, a - c) x b Hzero Hb) as Hb0.
  cbn in Ha0, Hb0. apply Hab.
  replace a with ((a - c) + c) by ring. replace b with ((b - c) + c) by ring.
  by rewrite Ha0, Hb0.
Qed.

Lemma two_distinct_nonempty (x : list Qc) : two_distinct x → x ≠ [].
Proof. intros (a & _ & Ha & _) ->. by apply elem_of_nil in Ha. Qed.

Lemma two_distinct_length (x : list Qc) : two_distinct x → (2 ≤ length x)%nat.
Proof.
  intros (a & b & Ha & Hb & Hab).
  destruct x as [|c [|d x]]; cbn; [| |lia].
  - by apply elem_of_nil in Ha.
  - apply list_elem_of_singleton in Ha, Hb. congruence.
Qed.
End Algebra.

(** ** Binary64: magnitudes and rounding

    Facts about the binary64 operations, proved on their specification
    ([SpecFloat]) and carried to [float] by the correspondence
    [Prim2SF]. *)

Section Binary64Facts.
Local Open Scope Z_scope.

Lemma digits2_bounds (p : positive) :
  2 ^ (Zpos (digits2_pos p) - 1) ≤ Zpos p < 2 ^ Zpos (digits2_pos p).
Proof.
  induction p as [p IH | p IH |]; cbn [digits2_pos].
  - rewrite Pos2Z.inj_succ, Z.pow_succ_r by lia.
    replace (Z.succ (Zpos (digits2_pos p)) - 1) with (Z.succ (Zpos (digits2_pos p) - 1)) by lia.
    rewrite Z.pow_succ_r by lia. lia.
  - rewrite Pos2Z.inj_succ, Z.pow_succ_r by lia.
    replace (Z.succ (Zpos (digits2_pos p)) - 1) with (Z.succ (Zpos (digits2_pos p) - 1)) by lia.
    rewrite Z.pow_succ_r by lia. lia.
  - cbn. lia.
Qed.

Lemma shr_1_m (mrs : shr_record) :
  0 ≤ shr_m mrs → shr_m (shr_1 mrs) = shr_m mrs / 2.
Proof.
  destruct mrs as [m r s]; cbn [shr_m]. intros Hm.
  destruct m as [|[p|p|]|p]; cbn [shr_1 shr_m]; try lia; try reflexivity.
  - apply Z.div_unique with 1; lia.
  - apply Z.div_unique with 0; lia.
Qed.

Lemma shr_1_nonneg (mrs : shr_record) : 0 ≤ shr_m mrs → 0 ≤ shr_m (shr_1 mrs).
Proof. intros Hm. rewrite shr_1_m by done. apply Z.div_pos; lia. Qed.

Lemma iter_shr_1_m (p : positive) (mrs : shr_record) :
  0 ≤ shr_m mrs →
  shr_m (SpecFloat.iter_pos shr_1 p mrs) = shr_m mrs / 2 ^ Zpos p.
Proof.
  revert mrs; induction p as [p IH | p IH |]; intros mrs Hm; cbn [SpecFloat.iter_pos].
  - assert (H1 : 0 ≤ shr_m (shr_1 mrs)) by by apply shr_1_nonneg.
    assert (H2 : 0 ≤ shr_m (SpecFloat.iter_pos shr_1 p (shr_1 mrs))).
    { rewrite IH by done. apply Z.div_pos; lia. }
    rewrite IH, IH, shr_1_m by done.
    rewrite !Z.div_div by lia. f_equal.
    replace (Z.pos p~1) with (Z.pos p + Z.pos p + 1) by lia.
    rewrite !Z.pow_add_r by lia. ring.
  - assert (H2 : 0 ≤ shr_m (SpecFloat.iter_pos shr_1 p mrs)).
    { rewrite IH by done. apply Z.div_pos; lia. }
    rewrite IH, IH by done.
    rewrite !Z.div_div by lia. f_equal.
    replace (Z.pos p~0) with (Z.pos p + Z.pos p) by lia.
    rewrite !Z.pow_add_r by lia. ring.
  - rewrite shr_1_m by done. reflexivity.
Qed.

Lemma shr_spec (mrs : shr_record) (e n : Z) :
  0 ≤ shr_m mrs →
  shr_m (shr mrs e n).1 = shr_m mrs / 2 ^ Z.max n 0
  ∧ (shr mrs e n).2 = e + Z.max n 0.
Proof.
  intros Hm. destruct n as [|p|p]; cbn [shr fst snd].
  - rewrite Z.max_l by lia. cbn. rewrite Z.div_1_r. split; [done | lia].
  - rewrite Z.max_l by lia. split; [by apply iter_shr_1_m | done].
  - rewrite Z.max_r by lia. cbn. rewrite Z.div_1_r. split; [done | lia].
Qed.

Lemma fexp_large (d e : Z) : 1 ≤ d → -1022 ≤ e → fexp prec emax (d + e) = d + e - 53.
Proof. intros Hd He. unfold fexp, emin, prec, emax. lia. Qed.

Lemma shr_record_of_loc_m (m : Z) (l : location) : shr_m (shr_record_of_loc m l) = m.
Proof. by destruct l as [|[]]. Qed.

Lemma shr_fexp_pos (m : positive) (e : Z) (l : location) :
  -1022 ≤ e →
  0 < shr_m (shr_fexp prec emax (Zpos m) e l).1
  ∧ (shr_fexp prec emax (Zpos m) e l).2 = e + Z.max (Zpos (digits2_pos m) - 53) 0.
Proof.
  intros He. unfold shr_fexp. cbn [Zdigits2].
  rewrite fexp_large by lia.
  replace (Zpos (digits2_pos m) + e - 53 - e) with (Zpos (digits2_pos m) - 53) by lia.
  destruct (shr_spec (shr_record_of_loc (Zpos m) l) e (Zpos (digits2_pos m) - 53)) as [Hm He'].
  { rewrite shr_record_of_loc_m. lia. }
  rewrite Hm, He', shr_record_of_loc_m. split; [|done].
  pose proof (digits2_bounds m) as [Hlo _].
  apply Z.div_str_pos. split; [apply Z.pow_pos_nonneg; lia|].
  etrans; [|exact Hlo]. apply Z.pow_le_mono_r; lia.
Qed.


Lemma round_nearest_even_pos (m : Z) (l : location) :
  0 < m → 0 < round_nearest_even m l.
Proof.
  intros Hm. destruct l as [|[]]; cbn [round_nearest_even]; try lia.
  destruct (Z.even m); lia.
Qed.

Lemma binary_round_aux_pos (s : bool) (m : positive) (e : Z) (l : location) :
  -1022 ≤ e →
  rounded s (e + Z.max (Zpos (digits2_pos m) - 53) 0)
    (binary_round_aux prec emax s (Zpos m) e l).
Proof.
  intros He. unfold binary_round_aux.
  destruct (shr_fexp_pos m e l He) as [Hm1 He1].
  destruct (shr_fexp prec emax (Zpos m) e l) as [mrs1 e1]; cbn [fst snd] in *.
  pose proof (round_nearest_even_pos _ (loc_of_shr_record mrs1) Hm1) as Hr.
  destruct (round_nearest_even (shr_m mrs1) (loc_of_shr_record mrs1)) as [|r|r]; try lia.
  destruct (shr_fexp_pos r e1 loc_Exact) as [Hm2 He2]; [lia|].
  destruct (shr_fexp prec emax (Zpos r) e1 loc_Exact) as [mrs2 e2]; cbn [fst snd] in *.
  destruct (shr_m mrs2) as [|m2|m2]; try lia.
  change (Z.sub emax prec) with 971.
  destruct (Z.leb_spec e2 971).
  - right. exists m2, e2. split; [done | lia].
  - by left.
Qed.


Lemma SFmul_big_self (v : spec_float) : big v → SF64mul v v = S754_infinity false.
Proof.
  destruct v as [s|s| |s m e]; cbn [big]; try done.
  - intros _. by destruct s.
  - intros He. unfold SF64mul, SFmul.
    destruct (binary_round_aux_pos (xorb s s) (m * m) (e + e) loc_Exact) as [Hr | (m' & e' & Hr & He')];
      [lia | | lia].
    rewrite Hr. by destruct s.
Qed.

Lemma shl_align_value (m : positive) (e e' : Z) :
  e' ≤ e → Zpos (shl_align m e e').1 = Zpos m * 2 ^ (e - e') ∧ (shl_align m e e').2 = e'.
Proof.
  intros He. unfold shl_align. destruct (e' - e) as [|d|d] eqn:Hd; try lia; cbn [fst snd].
  - replace (e - e') with 0 by lia. cbn. lia.
  - replace (e - e') with (Zpos d) by lia.
    change (Pos.iter xO m d) with (shift_pos d m).
    rewrite shift_pos_correct. change (Zpower_pos 2 d) with (2 ^ Zpos d). lia.
Qed.

Lemma huge_finite (s : bool) (m : positive) (e : Z) :
  huge (S754_finite s m e) = true → 548 ≤ e.
Proof.
  unfold huge, SFltb. cbn [SFabs SFcompare].
  destruct (Z.compare_spec 548 e); [lia | lia | done].
Qed.

Lemma binary_round_big (s : bool) (p : positive) (e : Z) :
  -1022 ≤ e → 53 ≤ Zpos (digits2_pos p) → 543 ≤ e + Zpos (digits2_pos p) →
  big (binary_round prec emax s p e).
Proof.
  intros He Hd Hbig. unfold binary_round.
  rewrite fexp_large by lia.
  unfold shl_align.
  destruct (Zpos (digits2_pos p) + e - 53 - e) eqn:Hsub; try lia.
  - destruct (binary_round_aux_pos s p e loc_Exact He) as [-> | (m' & e' & -> & He')];
      cbn [big]; [done | lia].
  - destruct (binary_round_aux_pos s p e loc_Exact He) as [-> | (m' & e' & -> & He')];
      cbn [big]; [done | lia].
Qed.

Lemma SFadd_huge_small (B x : spec_float) :
  huge B = true → small x = true → big (SF64add B x).
Proof.
  destruct B as [sb|sb| |sb mb eb]; try done.
  - intros _. by destruct x.
  - intros HB%huge_finite.
    destruct x as [sx|sx| |sx mx ex]; try done; cbn [small].
    { intros _. cbn. lia. }
    intros [[He1%Z.leb_le He2%Z.leb_le]%andb_prop Hm%Z.ltb_lt]%andb_prop.
    unfold SF64add, SFadd.
    rewrite Z.min_r by lia.
    destruct (shl_align_value mb eb ex) as [HmB _]; [lia|].
    destruct (shl_align_value mx ex ex) as [Hmx _]; [lia|].
    rewrite HmB, Hmx, Z.sub_diag, Z.mul_1_r.
    assert (Hpow : 2 ^ (eb - ex) = 2 * 2 ^ (eb - ex - 1)).
    { rewrite <- Z.pow_succ_r by lia. f_equal. lia. }
    assert (Hlow : 2 ^ 54 ≤ 2 ^ (eb - ex - 1)) by (apply Z.pow_le_mono_r; lia).
    assert (HmbX : 2 ^ (eb - ex) ≤ Zpos mb * 2 ^ (eb - ex)) by nia.
    set (X := 2 ^ (eb - ex)) in *. set (Y := 2 ^ (eb - ex - 1)) in *.
    assert (Hdig : ∀ p, Y ≤ Zpos p → eb - ex ≤ Zpos (digits2_pos p)).
    { intros p Hp. pose proof (digits2_bounds p) as [_ Hup].
      destruct (Z.le_gt_cases (eb - ex) (Zpos (digits2_pos p))) as [|Hlt]; [done|].
      exfalso. assert (2 ^ Zpos (digits2_pos p) ≤ Y); [|lia].
      subst Y. apply Z.pow_le_mono_r; lia. }
    unfold binary_normalize.
    destruct (cond_Zopp sb (Zpos mb * X) + cond_Zopp sx (Zpos mx)) as [|p|p] eqn:HM.
    + exfalso. destruct sb, sx; cbn [cond_Zopp] in HM; lia.
    + assert (Y ≤ Zpos p) by (destruct sb, sx; cbn [cond_Zopp] in HM; lia).
      specialize (Hdig p). apply binary_round_big; lia.
    + assert (Y ≤ Zpos p) by (destruct sb, sx; cbn [cond_Zopp] in HM; lia).
      specialize (Hdig p). apply binary_round_big; lia.
Qed.
End Binary64Facts.

Section Binary64.
Local Open Scope float_scope.


Lemma is_huge_spec (B : float) : is_huge B = true → huge (Prim2SF B) = true.
Proof. unfold is_huge. by rewrite ltb_spec, abs_spec. Qed.

(** Above the threshold the square of every shifted abscissa overflows. *)
Lemma sq_offset_infinity (B x : float) :
  is_huge B = true → is_small x = true → sq (B + x) = infinity.
Proof.
  intros HB Hx. apply Prim2SF_inj. unfold sq. cbn [amul binary64].
  rewrite mul_spec, add_spec.
  rewrite SFmul_big_self; [done|].
  apply SFadd_huge_small; [by apply is_huge_spec | done].
Qed.

(** A quotient whose divisor is [infinity - w] is a zero or a NaN. *)
Lemma div_infinity_minus (num w : float) :
  let β := num / (infinity - w) in β = nan ∨ β = 0 ∨ β = -0.
Proof.
  intros β.
  assert (Hβ : Prim2SF β = S754_nan ∨ Prim2SF β = S754_zero false ∨ Prim2SF β = S754_zero true).
  { subst β. rewrite div_spec, sub_spec.
    change (Prim2SF infinity) with (S754_infinity false).
    destruct (Prim2SF w) as [[]|[]| |[] ? ?], (Prim2SF num) as [[]|[]| |[] ? ?]; cbn; auto. }
  destruct Hβ as [Hβ | [Hβ | Hβ]]; [left | right; left | right; right];
    apply Prim2SF_inj; by rewrite Hβ.
Qed.

Lemma square_offset_infinity (B : float) (x : list float) :
  is_huge B = true → forallb is_small x = true →
  square (scalar_add B x) = replicate (length x) infinity.
Proof.
  intros HB. induction x as [|a x IH]; cbn [forallb]; [done|].
  intros [Ha Hx]%andb_prop.
  cbn [scalar_add square fmap list_fmap length replicate].
  f_equal; [by apply sq_offset_infinity | by apply IH].
Qed.


(** *** Exact operations: multiplying by one, subtracting a number from
    itself, NaN operands *)

Lemma SFmul_1_l (s : bool) (m : positive) (e : Z) :
  bounded prec emax m e = true →
  SF64mul (S754_finite false 4503599627370496 (-52)) (S754_finite s m e)
  = S754_finite s m e.
Proof.
  intros [Hcanon%Z.eqb_eq Hemax]%andb_prop.
  unfold SF64mul, SFmul, binary_round_aux, shr_fexp. cbn [xorb Zdigits2].
  assert (Hd : Zpos (digits2_pos (4503599627370496 * m))
               = (Zpos (digits2_pos m) + 52)%Z).
  { lazy [Pos.mul digits2_pos]. rewrite !Pos2Z.inj_succ. lia. }
  rewrite Hd.
  replace (Zpos (digits2_pos m) + 52 + (-52 + e))%Z
    with (Zpos (digits2_pos m) + e)%Z by lia.
  rewrite Hcanon.
  replace (e - (-52 + e))%Z with 52%Z by lia.
  cbn [shr shr_record_of_loc].
  change (SpecFloat.iter_pos shr_1 52
            {| shr_m := Zpos (4503599627370496 * m); shr_r := false; shr_s := false |})
    with {| shr_m := Zpos m; shr_r := false; shr_s := false |}.
  cbn [shr_m loc_of_shr_record round_nearest_even Zdigits2].
  replace (-52 + e + 52)%Z with e by lia.
  rewrite Hcanon, Z.sub_diag. cbn [shr shr_m].
  by rewrite Hemax.
Qed.

Lemma mul_1_l (v : float) : 1 * v = v.
Proof.
  apply Prim2SF_inj. rewrite mul_spec.
  change (Prim2SF 1) with (S754_finite false 4503599627370496 (-52)).
  pose proof (Prim2SF_valid v) as Hv.
  destruct (Prim2SF v) as [s|s| |s m e]; try done.
  by apply SFmul_1_l.
Qed.

Lemma SFsub_diag (V : spec_float) :
  SF64sub V V = S754_zero false ∨ SF64sub V V = S754_nan.
Proof.
  destruct V as [[]|[]| |s m e]; cbn; auto.
  left. by rewrite Z.sub_diag.
Qed.

Lemma sub_diag (v : float) : v - v = 0 ∨ v - v = nan.
Proof.
  destruct (SFsub_diag (Prim2SF v)) as [HV | HV]; [left | right];
    apply Prim2SF_inj; by rewrite sub_spec, HV.
Qed.

Lemma sub_nan_r (v : float) : v - nan = nan.
Proof.
  apply Prim2SF_inj. rewrite sub_spec.
  change (Prim2SF nan) with S754_nan. by destruct (Prim2SF v).
Qed.

Lemma mul_0_l_cases (w : float) : 0 * w = 0 ∨ 0 * w = -0 ∨ 0 * w = nan.
Proof.
  assert (H : Prim2SF (0 * w) = S754_zero false ∨ Prim2SF (0 * w) = S754_zero true
              ∨ Prim2SF (0 * w) = S754_nan).
  { rewrite mul_spec. change (Prim2SF 0) with (S754_zero false).
    destruct (Prim2SF w) as [[]|[]| |[] ? ?]; cbn; auto. }
  destruct H as [H | [H | H]]; [left | right; left | right; right];
    apply Prim2SF_inj; by rewrite H.
Qed.

Lemma canonical_fexp_pred (m : positive) (e : Z) :
  fexp prec emax (Zpos (digits2_pos m) + e) = e →
  fexp prec emax (Zpos (digits2_pos m) + e - 1) = e
  ∨ fexp prec emax (Zpos (digits2_pos m) + e - 1) = (e - 1)%Z.
Proof. unfold fexp, emin, prec, emax. lia. Qed.

Lemma SFdiv_1_r (s : bool) (m : positive) (e : Z) :
  bounded prec emax m e = true →
  SF64div (S754_finite s m e) (S754_finite false 4503599627370496 (-52))
  = S754_finite s m e.
Proof.
  intros [Hcanon%Z.eqb_eq Hemax]%andb_prop.
  unfold SF64div, SFdiv, SFdiv_core_binary.
  change (Zdigits2 4503599627370496) with 53%Z. cbn [Zdigits2].
  replace (Zpos (digits2_pos m) + e - (53 + -52))%Z
    with (Zpos (digits2_pos m) + e - 1)%Z by lia.
  replace (e - -52)%Z with (e + 52)%Z by lia.
  destruct (canonical_fexp_pred m e Hcanon) as [-> | ->].
  - rewrite Z.min_l by lia.
    replace (e + 52 - e)%Z with 52%Z by lia.
    rewrite Z.shiftl_mul_pow2 by lia.
    change (Z.div_eucl (Zpos m * 2 ^ 52) 4503599627370496)
      with (Z.div_eucl (Zpos m * 4503599627370496) 4503599627370496).
    pose proof (Z_div_mod (Zpos m * 4503599627370496) 4503599627370496 eq_refl) as Hdm.
    destruct (Z.div_eucl (Zpos m * 4503599627370496) 4503599627370496) as [q r].
    assert (q = Zpos m ∧ r = 0%Z) as [-> ->] by lia.
    change (new_location 4503599627370496 0) with loc_Exact.
    unfold binary_round_aux, shr_fexp. cbn [Zdigits2 xorb shr_record_of_loc].
    rewrite Hcanon, Z.sub_diag. cbn [shr shr_m loc_of_shr_record round_nearest_even Zdigits2].
    rewrite Hcanon, Z.sub_diag. cbn [shr shr_m].
    rewrite Hemax. by destruct s.
  - rewrite Z.min_l by lia.
    replace (e + 52 - (e - 1))%Z with 53%Z by lia.
    rewrite Z.shiftl_mul_pow2 by lia.
    change (Z.div_eucl (Zpos m * 2 ^ 53) 4503599627370496)
      with (Z.div_eucl (Zpos m * 9007199254740992) 4503599627370496).
    pose proof (Z_div_mod (Zpos m * 9007199254740992) 4503599627370496 eq_refl) as Hdm.
    destruct (Z.div_eucl (Zpos m * 9007199254740992) 4503599627370496) as [q r].
    assert (q = Zpos m~0 ∧ r = 0%Z) as [-> ->] by lia.
    change (new_location 4503599627370496 0) with loc_Exact.
    unfold binary_round_aux, shr_fexp. cbn [Zdigits2 xorb shr_record_of_loc digits2_pos].
    rewrite Pos2Z.inj_succ.
    replace (Z.succ (Zpos (digits2_pos m)) + (e - 1))%Z
      with (Zpos (digits2_pos m) + e)%Z by lia.
    rewrite Hcanon.
    replace (e - (e - 1))%Z with 1%Z by lia.
    cbn [shr SpecFloat.iter_pos shr_1 shr_m loc_of_shr_record round_nearest_even Zdigits2 orb].
    replace (e - 1 + 1)%Z with e by lia.
    rewrite Hcanon, Z.sub_diag. cbn [shr shr_m].
    rewrite Hemax. by destruct s.
Qed.

Lemma div_1_r (v : float) : v / 1 = v.
Proof.
  apply Prim2SF_inj. rewrite div_spec.
  change (Prim2SF 1) with (S754_finite false 4503599627370496 (-52)).
  pose proof (Prim2SF_valid v) as Hv.
  destruct (Prim2SF v) as [[]|[]| |s m e]; try done.
  by apply SFdiv_1_r.
Qed.

Lemma add_0_l (v : float) : 0 + v = v ∨ (v = -0 ∧ 0 + v = 0).
Proof.
  destruct (Prim2SF v) as [[]|s| |s m e] eqn:Hv.
  - right. assert (v = -0) as -> by (apply Prim2SF_inj; by rewrite Hv). done.
  - left. apply Prim2SF_inj. rewrite add_spec, Hv. done.
  - left. apply Prim2SF_inj. rewrite add_spec, Hv. done.
  - left. apply Prim2SF_inj. rewrite add_spec, Hv. done.
  - left. apply Prim2SF_inj. rewrite add_spec, Hv. done.
Qed.

(** The mean of a single value is that value, a negative zero apart. *)
Lemma np_average_singleton (a : float) :
  np_average [a] = a ∨ (a = -0 ∧ np_average [a] = 0).
Proof.
  unfold np_average, np_sum. cbn [length pairwise_sum].
  rewrite decide_True by lia. cbn [foldl azero aadd adiv binary64].
  change (of_count 1) with 1. rewrite div_1_r.
  destruct (add_0_l a) as [-> | [-> _]].
  - destruct (add_0_l a) as [-> | [-> _]]; [by left | right; done].
  - right. done.
Qed.


Lemma zero_or_nan_spec (x : float) :
  Prim2SF x = S754_zero false ∨ Prim2SF x = S754_zero true ∨ Prim2SF x = S754_nan →
  zero_or_nan x.
Proof.
  intros [H | [H | H]]; [left | right; left | right; right];
    apply Prim2SF_inj; by rewrite H.
Qed.

Ltac zero_or_nan_cases :=
  repeat match goal with
         | H : zero_or_nan _ |- _ => destruct H as [-> | [-> | ->]]
         end.
Ltac zero_or_nan_compute :=
  vm_compute;
  first [ left; reflexivity | right; left; reflexivity | right; right; reflexivity ].

Lemma zero_or_nan_mul_l (x w : float) : zero_or_nan x → zero_or_nan (x * w).
Proof.
  intros Hx. apply zero_or_nan_spec. rewrite mul_spec.
  zero_or_nan_cases;
    [change (Prim2SF 0) with (S754_zero false)
    |change (Prim2SF (-0)) with (S754_zero true)
    |change (Prim2SF nan) with S754_nan];
    destruct (Prim2SF w) as [[]|[]| |[] ? ?]; cbn; auto.
Qed.

Lemma zero_or_nan_mul_r (w x : float) : zero_or_nan x → zero_or_nan (w * x).
Proof.
  intros Hx. apply zero_or_nan_spec. rewrite mul_spec.
  zero_or_nan_cases;
    [change (Prim2SF 0) with (S754_zero false)
    |change (Prim2SF (-0)) with (S754_zero true)
    |change (Prim2SF nan) with S754_nan];
    destruct (Prim2SF w) as [[]|[]| |[] ? ?]; cbn; auto.
Qed.

Lemma zero_or_nan_sub (x y : float) :
  zero_or_nan x → zero_or_nan y → zero_or_nan (x - y).
Proof. intros Hx Hy. zero_or_nan_cases; zero_or_nan_compute. Qed.

Lemma zero_or_nan_sub_diag (v : float) : zero_or_nan (v - v).
Proof. destruct (sub_diag v) as [-> | ->]; [by left | by right; right]. Qed.

Lemma zero_or_nan_np_sum (z : float) : zero_or_nan z → zero_or_nan (np_sum [z]).
Proof. intros Hz. zero_or_nan_cases; zero_or_nan_compute. Qed.

Lemma zero_or_nan_np_average (z : float) : zero_or_nan z → zero_or_nan (np_average [z]).
Proof. intros Hz. zero_or_nan_cases; zero_or_nan_compute. Qed.

Lemma zero_or_nan_div (x y : float) : zero_or_nan x → zero_or_nan y → x / y = nan.
Proof. intros Hx Hy. zero_or_nan_cases; vm_compute; reflexivity. Qed.

Lemma mul_nan_l (v : float) : nan * v = nan.
Proof.
  apply Prim2SF_inj. rewrite mul_spec. change (Prim2SF nan) with S754_nan. done.
Qed.


(** *** The specification's degenerate sample: x = [1, 1, 1] *)

Lemma LinearFit_ones (y1 y2 y3 : float) :
  LinearFit [1; 1; 1] [y1; y2; y3] = Ok (nan, nan).
Proof.
  unfold LinearFit, multiply. rewrite decide_True by done.
  cbn [mbind result_bind zip_with amul binary64].
  rewrite !mul_1_l.
  replace (np_average (square [1; 1; 1])) with 1 by (vm_compute; reflexivity).
  replace (np_average [1; 1; 1]) with 1 by (vm_compute; reflexivity).
  set (v := np_average [y1; y2; y3]).
  cbn [asub amul adiv binary64].
  replace (1 - sq 1) with 0 by (vm_compute; reflexivity).
  destruct (sub_diag v) as [-> | ->].
  - replace (0 / 0 * 1) with nan by (vm_compute; reflexivity).
    replace (0 / 0) with nan by (vm_compute; reflexivity).
    by rewrite sub_nan_r.
  - replace (nan / 0 * 1) with nan by (vm_compute; reflexivity).
    replace (nan / 0) with nan by (vm_compute; reflexivity).
    by rewrite sub_nan_r.
Qed.

Lemma LinearFit2_ones (y1 y2 y3 : float) :
  LinearFit2 [1; 1; 1] [y1; y2; y3] = Ok (nan, nan).
Proof.
  unfold LinearFit2, multiply.
  replace (np_average [1; 1; 1]) with 1 by (vm_compute; reflexivity).
  set (v := np_average [y1; y2; y3]).
  rewrite decide_True by done.
  cbn [mbind result_bind].
  replace (np_sum (square (sub_scalar [1; 1; 1] 1))) with 0 by (vm_compute; reflexivity).
  replace (sub_scalar [1; 1; 1] 1) with [0; 0; 0] by (vm_compute; reflexivity).
  cbn [sub_scalar fmap list_fmap zip_with asub amul adiv binary64].
  assert (Hnum : ∀ p1 p2 p3 : float,
    (p1 = 0 ∨ p1 = -0 ∨ p1 = nan) → (p2 = 0 ∨ p2 = -0 ∨ p2 = nan) →
    (p3 = 0 ∨ p3 = -0 ∨ p3 = nan) →
    np_sum [p1; p2; p3] / 0 = nan).
  { intros p1 p2 p3 [-> | [-> | ->]] [-> | [-> | ->]] [-> | [-> | ->]];
      vm_compute; reflexivity. }
  rewrite Hnum by apply mul_0_l_cases.
  replace (nan * 1) with nan by (vm_compute; reflexivity).
  by rewrite sub_nan_r.
Qed.

(** *** A single point *)

Lemma centred_singleton (a : float) : zero_or_nan (a - np_average [a]).
Proof.
  destruct (np_average_singleton a) as [-> | [-> ->]].
  - apply zero_or_nan_sub_diag.
  - zero_or_nan_compute.
Qed.

Lemma naive_denominator_singleton (a : float) :
  zero_or_nan (np_average [sq a] - sq (np_average [a])).
Proof.
  destruct (np_average_singleton a) as [-> | [-> ->]].
  - destruct (np_average_singleton (sq a)) as [-> | [-> ->]].
    + apply zero_or_nan_sub_diag.
    + zero_or_nan_compute.
  - zero_or_nan_compute.
Qed.

Lemma naive_numerator_singleton (a b : float) :
  zero_or_nan (np_average [a * b] - np_average [a] * np_average [b]).
Proof.
  destruct (np_average_singleton a) as [-> | [-> ->]].
  - destruct (np_average_singleton b) as [-> | [-> ->]].
    + destruct (np_average_singleton (a * b)) as [-> | [-> ->]].
      * apply zero_or_nan_sub_diag.
      * zero_or_nan_compute.
    + apply zero_or_nan_sub.
      * apply zero_or_nan_np_average, zero_or_nan_mul_r. by right; left.
      * apply zero_or_nan_mul_r. by left.
  - apply zero_or_nan_sub.
    + apply zero_or_nan_np_average, zero_or_nan_mul_l. by right; left.
    + apply zero_or_nan_mul_l. by left.
Qed.

Lemma LinearFit_singleton (a b : float) : LinearFit [a] [b] = Ok (nan, nan).
Proof.
  unfold LinearFit, multiply. rewrite decide_True by done.
  cbn [mbind result_bind zip_with square fmap list_fmap].
  cbn [asub amul adiv binary64].
  rewrite (zero_or_nan_div _ _ (naive_numerator_singleton a b)
             (naive_denominator_singleton a)).
  by rewrite mul_nan_l, sub_nan_r.
Qed.

Lemma LinearFit2_singleton (a b : float) : LinearFit2 [a] [b] = Ok (nan, nan).
Proof.
  unfold LinearFit2, multiply. rewrite decide_True by done.
  cbn [mbind result_bind zip_with square sub_scalar fmap list_fmap].
  cbn [asub amul adiv binary64].
  rewrite zero_or_nan_div.
  - by rewrite mul_nan_l, sub_nan_r.
  - apply zero_or_nan_np_sum, zero_or_nan_mul_l, centred_singleton.
  - apply zero_or_nan_np_sum, zero_or_nan_mul_l, centred_singleton.
Qed.
End Binary64.

(** ** The pairwise reduction adds every element once *)

Section TreeSum.
Context {A : Type} `{Arith A}.

Lemma tree_sum_foldl (l k : list A) (u : A) :
  tree_sum l u → tree_sum (l ++ k) (foldl aadd u k).
Proof.
  revert l u; induction k as [|b k IH]; intros l u Hl; cbn [foldl].
  - by rewrite app_nil_r.
  - replace (l ++ b :: k) with ((l ++ [b]) ++ k) by (by rewrite <- app_assoc).
    apply IH. apply tree_sum_add; [done | constructor].
Qed.

Lemma tree_sum_zip_with (ls : list (list A)) (r c : list A) :
  Forall2 tree_sum ls r → length c = length r →
  Forall2 tree_sum (zip_with (λ l b, l ++ [b]) ls c) (zip_with aadd r c).
Proof.
  intros Hls. revert c; induction Hls as [|l u ls r Hl Hls IH]; intros [|b c] Hlen;
    try discriminate; cbn [zip_with]; constructor.
  - apply tree_sum_add; [done | constructor].
  - apply IH. cbn in Hlen. lia.
Qed.

Lemma concat_zip_with_snoc (ls : list (list A)) (c : list A) :
  length ls = length c →
  concat (zip_with (λ l b, l ++ [b]) ls c) ≡ₚ concat ls ++ c.
Proof.
  revert c; induction ls as [|l ls IH]; intros [|b c] Hlen; try discriminate; [done|].
  cbn [zip_with concat]. rewrite IH by (cbn in Hlen; lia).
  rewrite <- !app_assoc. f_equiv. cbn [app]. by rewrite Permutation_middle.
Qed.

Lemma accumulate8_tree (k : nat) (ls : list (list A)) (r a : list A) :
  Forall2 tree_sum ls r → length r = 8 → 8 * k ≤ length a →
  ∃ ls', Forall2 tree_sum ls' (accumulate8 k r a).1
         ∧ length (accumulate8 k r a).1 = 8
         ∧ concat ls' ++ (accumulate8 k r a).2 ≡ₚ concat ls ++ a.
Proof.
  revert ls r a; induction k as [|k IH]; intros ls r a Hls Hr Ha; cbn [accumulate8].
  - by exists ls.
  - assert (Htake : length (take 8 a) = 8) by (rewrite length_take; lia).
    destruct (IH (zip_with (λ l b, l ++ [b]) ls (take 8 a))
                (zip_with aadd r (take 8 a)) (drop 8 a)) as (ls' & Hls' & Hlen' & Hperm).
    + apply tree_sum_zip_with; [done | lia].
    + rewrite length_zip_with. lia.
    + rewrite length_drop. lia.
    + exists ls'. split; [done|]. split; [done|].
      rewrite Hperm, concat_zip_with_snoc
        by (apply Forall2_length in Hls; lia).
      by rewrite <- app_assoc, take_drop.
Qed.

Lemma sum8_tree (ls : list (list A)) (r : list A) :
  Forall2 tree_sum ls r → length r = 8 → tree_sum (concat ls) (sum8 r).
Proof.
  intros Hls Hr.
  do 8 (destruct r as [|? r]; [discriminate|]). destruct r; [|discriminate].
  repeat match goal with
         | H : Forall2 _ _ (_ :: _) |- _ => apply Forall2_cons_inv_r in H as (? & ? & ? & H & ->)
         | H : Forall2 _ _ [] |- _ => apply Forall2_nil_inv_r in H as ->
         end.
  cbn [sum8 concat]. rewrite app_nil_r.
  match goal with
  | |- tree_sum (?l0 ++ ?l1 ++ ?l2 ++ ?l3 ++ ?l4 ++ ?l5 ++ ?l6 ++ ?l7) _ =>
      replace (l0 ++ l1 ++ l2 ++ l3 ++ l4 ++ l5 ++ l6 ++ l7)
        with (((l0 ++ l1) ++ (l2 ++ l3)) ++ ((l4 ++ l5) ++ (l6 ++ l7)))
        by (by rewrite <- !app_assoc)
  end.
  by repeat apply tree_sum_add.
Qed.

Lemma block_sum_tree (a : list A) : 8 ≤ length a → tree_sum a (block_sum a).
Proof.
  intros Hlen. unfold block_sum.
  assert (Hk : 8 * (length a / 8 - 1) ≤ length (drop 8 a)).
  { rewrite length_drop. pose proof (Nat.Div0.mul_div_le (length a) 8). lia. }
  assert (Htake : length (take 8 a) = 8) by (rewrite length_take; lia).
  assert (Hinit : Forall2 tree_sum ((λ b, [b]) <$> take 8 a) (take 8 a)).
  { apply Forall2_fmap_l, Forall_Forall2_diag, Forall_forall. intros b _. constructor. }
  destruct (accumulate8_tree _ _ _ _ Hinit Htake Hk) as (ls' & Hls' & Hr & Hperm).
  destruct (accumulate8 _ _ _) as [r rest]; cbn [fst snd] in *.
  apply (tree_sum_perm (concat ls' ++ rest)).
  - rewrite Hperm. replace (concat ((λ b, [b]) <$> take 8 a)) with (take 8 a).
    + by rewrite take_drop.
    + clear. induction (take 8 a) as [|b l IH]; cbn; [done | by rewrite <- IH].
  - apply tree_sum_foldl. by apply sum8_tree.
Qed.

Lemma pairwise_sum_tree (fuel : nat) (a : list A) :
  length a ≤ fuel → tree_sum a (pairwise_sum fuel a).
Proof.
  revert a; induction fuel as [|fuel IH]; intros a Hfuel.
  - destruct a; [|cbn in Hfuel; lia]. cbn. constructor.
  - cbn [pairwise_sum]. case_decide as H8.
    { apply (tree_sum_foldl [] a azero). constructor. }
    case_decide as H128.
    { apply block_sum_tree. lia. }
    unfold PW_BLOCKSIZE in H128.
    set (n2 := length a / 2 - (length a / 2) `mod` 8).
    assert (Hn2 : 0 < n2 < length a).
    { subst n2.
      pose proof (Nat.mod_upper_bound (length a / 2) 8).
      pose proof (Nat.Div0.mul_div_le (length a) 2).
      assert (64 ≤ length a / 2) by (apply Nat.div_le_lower_bound; lia).
      lia. }
    rewrite <- (take_drop n2 a) at 1.
    apply tree_sum_add; apply IH; rewrite ?length_take, ?length_drop; lia.
Qed.

(** [np.sum] adds every element once. *)
Lemma np_sum_tree (a : list A) : tree_sum a (np_sum a).
Proof.
  unfold np_sum. apply (tree_sum_add [] a); [constructor | by apply pairwise_sum_tree].
Qed.

(** A value that absorbs the addition is the sum of any array that holds it. *)
Lemma tree_sum_absorbing (z : A) (l : list A) (v : A) :
  (∀ a, z ⊕ a = z) → (∀ a, a ⊕ z = z) → tree_sum l v → z ∈ l → v = z.
Proof.
  intros Hl Hr Hsum. induction Hsum as [|a|l k u v _ IHu _ IHv|l k u Hperm _ IH]; intros Hz.
  - by apply elem_of_nil in Hz.
  - by apply list_elem_of_singleton in Hz as ->.
  - apply elem_of_app in Hz as [Hz | Hz].
    + by rewrite (IHu Hz).
    + by rewrite (IHv Hz).
  - apply IH. by rewrite Hperm.
Qed.
End TreeSum.

(** ** Binary64: NaN operands *)

Section NaNOperands.
Local Open Scope float_scope.

Lemma add_nan_l (v : float) : nan + v = nan.
Proof.
  apply Prim2SF_inj. rewrite add_spec. change (Prim2SF nan) with S754_nan. done.
Qed.

Lemma add_nan_r (v : float) : v + nan = nan.
Proof.
  apply Prim2SF_inj. rewrite add_spec.
  change (Prim2SF nan) with S754_nan. by destruct (Prim2SF v).
Qed.

Lemma sub_nan_l (v : float) : nan - v = nan.
Proof.
  apply Prim2SF_inj. rewrite sub_spec. change (Prim2SF nan) with S754_nan. done.
Qed.

Lemma mul_nan_r (v : float) : v * nan = nan.
Proof.
  apply Prim2SF_inj. rewrite mul_spec.
  change (Prim2SF nan) with S754_nan. by destruct (Prim2SF v).
Qed.

Lemma div_nan_l (v : float) : nan / v = nan.
Proof.
  apply Prim2SF_inj. rewrite div_spec. change (Prim2SF nan) with S754_nan. done.
Qed.

Lemma div_nan_r (v : float) : v / nan = nan.
Proof.
  apply Prim2SF_inj. rewrite div_spec.
  change (Prim2SF nan) with S754_nan. by destruct (Prim2SF v).
Qed.

End NaNOperands.

Ltac nan_absorb :=
  repeat (progress rewrite ?add_nan_l, ?add_nan_r, ?sub_nan_l, ?sub_nan_r,
            ?mul_nan_l, ?mul_nan_r, ?div_nan_l, ?div_nan_r).

Section NaNSums.
Local Open Scope float_scope.

Lemma np_sum_nan (l : list float) : nan ∈ l → np_sum l = nan.
Proof.
  apply (tree_sum_absorbing nan l); [apply add_nan_l | apply add_nan_r | apply np_sum_tree].
Qed.

Lemma np_average_nan (l : list float) : nan ∈ l → np_average l = nan.
Proof.
  intros Hl. unfold np_average. rewrite np_sum_nan by done. apply div_nan_l.
Qed.
End NaNSums.

(** ** The scalar power *)

Section PowerFacts.
Context {A : Type} `{Arith A}.

Lemma LinearFit_pow_sq (x y : list A) : LinearFit_pow sq x y = LinearFit x y.
Proof. reflexivity. Qed.

(** The power is used at the mean of the abscissae only. *)
Lemma LinearFit_pow_ext (pow2 pow2' : A → A) (x y : list A) :
  pow2 (np_average x) = pow2' (np_average x) →
  LinearFit_pow pow2 x y = LinearFit_pow pow2' x y.
Proof. intros Hp. unfold LinearFit_pow. cbv zeta. by rewrite Hp. Qed.

(** Where the power returns the product, [LinearFit_pow] is [LinearFit]. *)
Lemma LinearFit_pow_agree (pow2 : A → A) (x y : list A) :
  square_at pow2 (np_average x) → LinearFit_pow pow2 x y = LinearFit x y.
Proof. apply LinearFit_pow_ext. Qed.

Lemma square_zip_with (x : list A) : square x = zip_with amul x x.
Proof. induction x as [|a x IH]; [done|]. cbn. by rewrite <- IH. Qed.

Lemma LinearFit_pow_same_length (pow2 : A → A) (x y : list A) :
  length x = length y →
  LinearFit_pow pow2 x y
  = Ok (let slope := (np_average (zip_with amul x y) ⊖ np_average x ⊗ np_average y)
                     ⊘ (np_average (zip_with amul x x) ⊖ pow2 (np_average x)) in
        (slope, np_average y ⊖ slope ⊗ np_average x)).
Proof.
  intros Hlen. unfold LinearFit_pow. rewrite multiply_same_length by done.
  by rewrite square_zip_with.
Qed.

Lemma zip_with_centred_products (x y : list A) (c d : A) :
  zip_with amul (sub_scalar x c) (sub_scalar y d)
  = zip_with (λ a b, (a ⊖ c) ⊗ (b ⊖ d)) x y.
Proof.
  revert y; induction x as [|a x IH]; intros [|b y]; try done.
  cbn. f_equal. apply IH.
Qed.

Lemma square_centred_fmap (x : list A) (c : A) :
  square (sub_scalar x c) = (λ a, (a ⊖ c) ⊗ (a ⊖ c)) <$> x.
Proof. unfold square, sub_scalar. by rewrite <- list_fmap_compose. Qed.

Lemma LinearFit2_same_length_eq (x y : list A) :
  length x = length y →
  LinearFit2 x y
  = Ok (let slope := np_sum (zip_with (λ a b, (a ⊖ np_average x) ⊗ (b ⊖ np_average y)) x y)
                     ⊘ np_sum ((λ a, (a ⊖ np_average x) ⊗ (a ⊖ np_average x)) <$> x) in
        (slope, np_average y ⊖ slope ⊗ np_average x)).
Proof.
  intros Hlen. unfold LinearFit2.
  rewrite multiply_same_length by (unfold sub_scalar; by rewrite !length_fmap).
  by rewrite zip_with_centred_products, square_centred_fmap.
Qed.

(** [np.average]: every element once, over the count. *)
Lemma np_average_is_mean (a : list A) : is_mean a (np_average a).
Proof. exists (np_sum a). split; [apply np_sum_tree | done]. Qed.
End PowerFacts.

(** ** A map that commutes with the arithmetic commutes with the code *)

Section Morphism.
Context {A B : Type} {HA : Arith A} {HB : Arith B} (h : A → B).
Context (h_zero : h azero = azero)
        (h_add : ∀ a b, h (a ⊕ b) = h a ⊕ h b)
        (h_sub : ∀ a b, h (a ⊖ b) = h a ⊖ h b)
        (h_mul : ∀ a b, h (a ⊗ b) = h a ⊗ h b)
        (h_div : ∀ a b, h (a ⊘ b) = h a ⊘ h b)
        (h_count : ∀ n, h (of_count n) = of_count n).

Lemma fmap_zip_with_morph (f : A → A → A) (g : B → B → B) (r c : list A) :
  (∀ a b, h (f a b) = g (h a) (h b)) →
  zip_with g (h <$> r) (h <$> c) = h <$> zip_with f r c.
Proof.
  intros Hfg. revert c; induction r as [|a r IH]; intros [|b c]; try done.
  cbn. by rewrite Hfg, <- IH.
Qed.

Lemma foldl_morph (u : A) (l : list A) :
  foldl aadd (h u) (h <$> l) = h (foldl aadd u l).
Proof using h_add.
  revert u; induction l as [|a l IH]; intros u; [done|].
  cbn. by rewrite <- h_add, IH.
Qed.

Lemma sum8_morph (r : list A) : sum8 (h <$> r) = h (sum8 r).
Proof using h_zero h_add.
  do 9 (destruct r as [|? r]; [by cbn; rewrite ?h_add|]).
  by cbn.
Qed.

Lemma accumulate8_morph (k : nat) (r a : list A) :
  accumulate8 k (h <$> r) (h <$> a)
  = (h <$> (accumulate8 k r a).1, h <$> (accumulate8 k r a).2).
Proof using h_add.
  revert r a; induction k as [|k IH]; intros r a; [done|].
  cbn [accumulate8].
  rewrite <- fmap_take, <- fmap_drop, (fmap_zip_with_morph aadd aadd) by done.
  apply IH.
Qed.

Lemma block_sum_morph (a : list A) : block_sum (h <$> a) = h (block_sum a).
Proof using h_zero h_add.
  unfold block_sum. rewrite length_fmap, <- fmap_take, <- fmap_drop, accumulate8_morph.
  destruct (accumulate8 _ _ _) as [r rest]. cbn [fst snd].
  by rewrite sum8_morph, foldl_morph.
Qed.

Lemma pairwise_sum_morph (fuel : nat) (a : list A) :
  pairwise_sum fuel (h <$> a) = h (pairwise_sum fuel a).
Proof using h_zero h_add.
  revert a; induction fuel as [|fuel IH]; intros a; cbn [pairwise_sum];
    rewrite length_fmap; repeat case_decide;
    rewrite <- ?h_zero, ?foldl_morph, ?block_sum_morph, ?h_zero; try done.
  by rewrite <- fmap_take, <- fmap_drop, !IH, h_add.
Qed.

Lemma np_sum_morph (a : list A) : np_sum (h <$> a) = h (np_sum a).
Proof using h_zero h_add.
  unfold np_sum. by rewrite length_fmap, pairwise_sum_morph, h_add, h_zero.
Qed.

Lemma np_average_morph (a : list A) : np_average (h <$> a) = h (np_average a).
Proof using h_zero h_add h_div h_count.
  unfold np_average. by rewrite np_sum_morph, length_fmap, h_div, h_count.
Qed.

Lemma square_morph (a : list A) : square (h <$> a) = h <$> square a.
Proof using h_mul.
  unfold square. rewrite <- !list_fmap_compose. apply list_fmap_ext.
  intros _ v _. cbn. unfold sq. by rewrite h_mul.
Qed.

Lemma sub_scalar_morph (a : list A) (c : A) :
  sub_scalar (h <$> a) (h c) = h <$> sub_scalar a c.
Proof using h_sub.
  unfold sub_scalar. rewrite <- !list_fmap_compose. apply list_fmap_ext.
  intros _ v _. cbn. by rewrite h_sub.
Qed.

Lemma multiply_morph (x y : list A) :
  multiply (h <$> x) (h <$> y) = fmap (M:=result) (fmap h) (multiply x y).
Proof using h_mul.
  unfold multiply. rewrite !length_fmap. case_decide.
  { cbn. by rewrite (fmap_zip_with_morph amul amul). }
  destruct x as [|a [|a' x]], y as [|b [|b' y]]; cbn; try done;
    f_equal; rewrite <- ?list_fmap_compose; try (f_equal; [by rewrite h_mul|]);
    try (f_equal; [by rewrite h_mul|]);
    apply list_fmap_ext; intros _ v _; cbn; by rewrite h_mul.
Qed.

Lemma LinearFit_pow_morph (pa : A → A) (pb : B → B) (x y : list A) :
  (∀ a, h (pa a) = pb (h a)) →
  LinearFit_pow pb (h <$> x) (h <$> y)
  = fmap (M:=result) (λ p, (h p.1, h p.2)) (LinearFit_pow pa x y).
Proof using All.
  intros Hp. unfold LinearFit_pow. rewrite multiply_morph.
  destruct (multiply x y) as [xy | e]; [|done].
  cbn. rewrite square_morph, !np_average_morph.
  by rewrite !h_sub, !h_mul, !h_div, !h_sub, !h_mul, Hp.
Qed.

Lemma LinearFit2_morph (x y : list A) :
  LinearFit2 (h <$> x) (h <$> y)
  = fmap (M:=result) (λ p, (h p.1, h p.2)) (LinearFit2 x y).
Proof using All.
  unfold LinearFit2. rewrite !np_average_morph, !sub_scalar_morph, multiply_morph.
  destruct (multiply _ _) as [dxy | e]; [|done].
  cbn. rewrite square_morph, !np_sum_morph.
  by rewrite !h_sub, !h_mul, !h_div.
Qed.
End Morphism.

(** ** Binary64: warnings *)

Section WarningFacts.
Local Open Scope float_scope.

Lemma is_nan_spec (x : float) : is_nan x = true ↔ Prim2SF x = S754_nan.
Proof.
  unfold is_nan. rewrite FloatAxioms.eqb_spec.
  destruct (Prim2SF x) as [[]|[]| |[] m e]; cbn; try (split; [discriminate|discriminate]);
    try (split; done).
  all: unfold SFeqb, SFcompare; cbn.
  all: rewrite ?Z.compare_refl, ?Pos.compare_cont_refl; cbn; split; discriminate.
Qed.

Lemma binary_normalize_count (z : Z) :
  (0 ≤ z)%Z → binary_normalize prec emax z 0 false ≠ S754_nan.
Proof.
  intros Hz. destruct z as [|p|p]; [done| |lia].
  cbn [binary_normalize]. unfold binary_round.
  rewrite fexp_large by lia. unfold shl_align.
  destruct (Zpos (digits2_pos p) + 0 - 53 - 0)%Z as [|d|d] eqn:Hd; cbv beta iota;
    match goal with
    | |- binary_round_aux _ _ _ (Zpos ?m) ?e _ ≠ _ =>
        destruct (binary_round_aux_pos false m e loc_Exact) as [-> | (m' & e' & -> & He')];
          [lia | done | done]
    end.
Qed.

Lemma of_count_not_nan (n : nat) : is_nan (of_count n) = false.
Proof.
  apply not_true_is_false. rewrite is_nan_spec. cbn [of_count binary64].
  rewrite of_uint63_spec. apply binary_normalize_count.
  apply Uint63.to_Z_bounded.
Qed.

Lemma quiet_noticed (v : float) : is_nan v = false → noticed (quiet v).
Proof. intros Hv. unfold noticed, quiet. cbn. congruence. Qed.

Lemma flag2_noticed (op : float → float → float) (a b : flagged) :
  noticed a → noticed b → noticed (flag2 op a b).
Proof.
  unfold noticed, flag2, signals. destruct a as [a fa], b as [b fb]. cbn.
  intros Ha Hb Hr. rewrite Hr.
  destruct (is_nan a); [by rewrite Ha|].
  destruct (is_nan b); [rewrite Hb by done; by destruct fa|].
  cbn. by destruct fa, fb.
Qed.

Lemma flagged_pow_noticed (pow2 : float → float) (a : flagged) :
  noticed a → noticed (flagged_pow pow2 a).
Proof.
  unfold noticed, flagged_pow, signals. destruct a as [a fa]. cbn.
  intros Ha Hr. rewrite Hr.
  destruct (is_nan a); [by rewrite Ha|]. cbn. by destruct fa.
Qed.

Lemma tree_sum_noticed (l : list flagged) (v : flagged) :
  Forall noticed l → tree_sum l v → noticed v.
Proof.
  intros Hl Hsum. induction Hsum as [|a|l k u v _ IHu _ IHv|l k u Hperm _ IH].
  - by apply quiet_noticed.
  - exact (proj1 (Forall_singleton noticed a) Hl).
  - apply Forall_app in Hl as [Hl Hk]. apply flag2_noticed; auto.
  - apply IH. by rewrite Hperm.
Qed.

Lemma np_sum_noticed (l : list flagged) : Forall noticed l → noticed (np_sum l).
Proof. intros Hl. eapply tree_sum_noticed; [done | apply np_sum_tree]. Qed.

Lemma np_average_noticed (l : list flagged) : Forall noticed l → noticed (np_average l).
Proof.
  intros Hl. apply flag2_noticed; [by apply np_sum_noticed|].
  apply quiet_noticed, of_count_not_nan.
Qed.

Lemma Forall_zip_with_op (P : flagged → Prop) (f : flagged → flagged → flagged)
    (x y : list flagged) :
  (∀ a b, P a → P b → P (f a b)) → Forall P x → Forall P y → Forall P (zip_with f x y).
Proof.
  intros Hf Hx. revert y; induction Hx as [|a x Ha Hx IH]; intros y Hy; [constructor|].
  destruct Hy as [|b y Hb Hy]; [constructor|].
  cbn. constructor; auto.
Qed.

Lemma mul_broadcast_l_noticed (a : flagged) (y : list flagged) :
  noticed a → Forall noticed y → Forall noticed ((λ b, a ⊗ b) <$> y).
Proof.
  intros Ha Hy. apply Forall_fmap. eapply Forall_impl; [done|].
  intros b Hb. cbn. by apply flag2_noticed.
Qed.

Lemma mul_broadcast_r_noticed (x : list flagged) (b : flagged) :
  Forall noticed x → noticed b → Forall noticed ((λ a, a ⊗ b) <$> x).
Proof.
  intros Hx Hb. apply Forall_fmap. eapply Forall_impl; [done|].
  intros a Ha. cbn. by apply flag2_noticed.
Qed.

Lemma multiply_noticed (x y xy : list flagged) :
  Forall noticed x → Forall noticed y → multiply x y = Ok xy → Forall noticed xy.
Proof.
  intros Hx Hy. unfold multiply. case_decide.
  { intros [= <-]. apply Forall_zip_with_op; [|done|done].
    intros a b. apply flag2_noticed. }
  destruct x as [|a [|a' x]], y as [|b [|b' y]]; try discriminate; intros [= <-];
    try (by constructor).
  - change (Forall noticed ((λ b0, a ⊗ b0) <$> b :: b' :: y)).
    apply mul_broadcast_l_noticed; [exact (proj1 (Forall_singleton _ _) Hx) | done].
  - change (Forall noticed ((λ a0, a0 ⊗ b) <$> a :: a' :: x)).
    apply mul_broadcast_r_noticed; [done | exact (proj1 (Forall_singleton _ _) Hy)].
Qed.

Lemma square_noticed (x : list flagged) : Forall noticed x → Forall noticed (square x).
Proof.
  intros Hx. apply Forall_fmap. eapply Forall_impl; [done|].
  intros a Ha. cbn. by apply flag2_noticed.
Qed.

Lemma sub_scalar_noticed (x : list flagged) (c : flagged) :
  Forall noticed x → noticed c → Forall noticed (sub_scalar x c).
Proof.
  intros Hx Hc. apply Forall_fmap. eapply Forall_impl; [done|].
  intros a Ha. cbn. by apply flag2_noticed.
Qed.

(** On data that are not silent NaNs, no estimator returns a silent NaN. *)
Lemma LinearFit_pow_noticed (pow2 : float → float) (x y : list flagged) (β α : flagged) :
  Forall noticed x → Forall noticed y →
  LinearFit_pow (flagged_pow pow2) x y = Ok (β, α) → noticed β ∧ noticed α.
Proof.
  intros Hx Hy. unfold LinearFit_pow.
  destruct (multiply x y) as [xy | e] eqn:Hxy; [|discriminate].
  pose proof (multiply_noticed x y xy Hx Hy Hxy) as Hxyn.
  cbn. intros [= <- <-].
  assert (Hβ : noticed
    (flag2 PrimFloat.div
       (flag2 PrimFloat.sub (np_average xy) (flag2 PrimFloat.mul (np_average x) (np_average y)))
       (flag2 PrimFloat.sub (np_average (square x)) (flagged_pow pow2 (np_average x))))).
  { repeat first [ apply np_average_noticed | apply square_noticed
                 | apply flagged_pow_noticed | apply flag2_noticed ]; done. }
  split; [exact Hβ|].
  repeat first [ exact Hβ | apply np_average_noticed | apply flag2_noticed ]; done.
Qed.

Lemma LinearFit2_noticed (x y : list flagged) (β α : flagged) :
  Forall noticed x → Forall noticed y →
  LinearFit2 x y = Ok (β, α) → noticed β ∧ noticed α.
Proof.
  intros Hx Hy. unfold LinearFit2.
  pose proof (np_average_noticed x Hx) as Hmx.
  pose proof (np_average_noticed y Hy) as Hmy.
  destruct (multiply _ _) as [dxy | e] eqn:Hdxy; [|discriminate].
  apply multiply_noticed in Hdxy; [|by apply sub_scalar_noticed..].
  cbn. intros [= <- <-].
  assert (Hβ : noticed
    (flag2 PrimFloat.div (np_sum dxy)
       (np_sum (square (sub_scalar x (np_average x)))))).
  { apply flag2_noticed; apply np_sum_noticed; [done|].
    by apply square_noticed, sub_scalar_noticed. }
  split; [exact Hβ|].
  repeat first [ exact Hβ | exact Hmx | exact Hmy | apply flag2_noticed ]; done.
Qed.

(** The flags change no number. *)
Lemma fst_quiet (x : list float) : fst <$> (quiet <$> x) = x.
Proof. rewrite <- list_fmap_compose. by rewrite list_fmap_id. Qed.

Lemma values_LinearFit_pow (pow2 : float → float) (x y : list flagged) :
  values (LinearFit_pow (flagged_pow pow2) x y) = LinearFit_pow pow2 (fst <$> x) (fst <$> y).
Proof.
  rewrite LinearFit_pow_morph with (h := fst) (pa := flagged_pow pow2) (pb := pow2) by done.
  reflexivity.
Qed.

Lemma values_LinearFit2 (x y : list flagged) :
  values (LinearFit2 x y) = LinearFit2 (fst <$> x) (fst <$> y).
Proof.
  rewrite LinearFit2_morph with (h := fst) by done.
  reflexivity.
Qed.

Lemma Forall_quiet (x : list float) :
  Forall (λ v, is_nan v = false) x → Forall noticed (quiet <$> x).
Proof.
  intros Hx. apply Forall_fmap. eapply Forall_impl; [done|].
  intros v Hv. by apply quiet_noticed.
Qed.

Lemma noticed_warned (r : result (flagged * flagged)) :
  (∀ β α, r = Ok (β, α) → noticed β ∧ noticed α) →
  has_nan (values r) = true → warned r = true.
Proof.
  destruct r as [[β α]|e]; [|done]. intros Hn. destruct (Hn β α eq_refl) as [Hβ Hα].
  cbn. intros [H | H]%orb_prop; [rewrite Hβ by done | rewrite Hα by done]; [done|].
  by destruct (β.2).
Qed.

Lemma np_average_never_silent (a : list float) :
  Forall (λ v, is_nan v = false) a →
  (np_average (quiet <$> a)).1 = np_average a
  ∧ (is_nan (np_average a) = true → (np_average (quiet <$> a)).2 = true).
Proof.
  intros Ha.
  assert (Hv : (np_average (quiet <$> a)).1 = np_average a).
  { rewrite <- (fst_quiet a) at 2. symmetry. by apply (np_average_morph fst). }
  split; [done|]. rewrite <- Hv. by apply np_average_noticed, Forall_quiet.
Qed.

(** A NaN is never returned without a warning. *)
Lemma LinearFit_pow_never_silent (pow2 : float → float) (x y : list float) :
  Forall (λ v, is_nan v = false) x → Forall (λ v, is_nan v = false) y →
  has_nan (LinearFit_pow pow2 x y) = true →
  warned (LinearFit_pow (flagged_pow pow2) (quiet <$> x) (quiet <$> y)) = true.
Proof.
  intros Hx Hy Hnan. apply noticed_warned.
  - intros β α. apply LinearFit_pow_noticed; by apply Forall_quiet.
  - by rewrite values_LinearFit_pow, !fst_quiet.
Qed.

Lemma LinearFit2_never_silent (x y : list float) :
  Forall (λ v, is_nan v = false) x → Forall (λ v, is_nan v = false) y →
  has_nan (LinearFit2 x y) = true →
  warned (LinearFit2 (quiet <$> x) (quiet <$> y)) = true.
Proof.
  intros Hx Hy Hnan. apply noticed_warned.
  - intros β α. apply LinearFit2_noticed; by apply Forall_quiet.
  - by rewrite values_LinearFit2, !fst_quiet.
Qed.
End WarningFacts.

(** ** Binary64: the naive estimator and the power *)

Section PowerBinary64.
Local Open Scope float_scope.

(** Beyond the threshold the naive slope on the notebook data is a zero
    or a NaN, and a NaN when the power of the mean overflows as the
    squares of the abscissae do. *)
Lemma naive_offset_degenerate (pow2 : float → float) (B : float) :
  is_huge B = true →
  ∃ β α, LinearFit_pow pow2 (scalar_add B _t) ph = Ok (β, α)
         ∧ zero_or_nan β
         ∧ (pow2 (np_average (scalar_add B _t)) = infinity → β = nan).
Proof.
  intros HB. unfold LinearFit_pow.
  rewrite square_offset_infinity by done.
  unfold multiply. rewrite decide_True by done.
  cbn [mbind result_bind].
  eexists _, _. split; [reflexivity|].
  replace (np_average (replicate (length _t) infinity)) with infinity
    by (vm_compute; reflexivity).
  cbn [asub adiv binary64]. split.
  - match goal with
    | |- zero_or_nan (?n / (infinity - ?w)) =>
        destruct (div_infinity_minus n w) as [-> | [-> | ->]]
    end; [by right; right | by left | by right; left].
  - intros ->. replace (infinity - infinity) with nan by (vm_compute; reflexivity).
    apply div_nan_r.
Qed.

(** At the largest finite offset, and at an infinite one, the numerator
    is already a NaN, whatever the power returns. *)
Lemma naive_offset_overflow (pow2 : float → float) (B : float) :
  B = 0x1.fffffffffffffp+1023 ∨ B = infinity →
  LinearFit_pow pow2 (scalar_add B _t) ph = Ok (nan, nan).
Proof.
  intros HB. unfold LinearFit_pow, multiply. rewrite decide_True by by destruct HB as [-> | ->].
  cbn [mbind result_bind].
  replace (np_average (zip_with amul (scalar_add B _t) ph)
           ⊖ np_average (scalar_add B _t) ⊗ np_average ph)%ar with nan
    by (destruct HB as [-> | ->]; vm_compute; reflexivity).
  cbn [asub amul adiv binary64]. by nan_absorb.
Qed.

Lemma deviates_nan (tol β0 : float) : deviates tol nan β0 = false.
Proof.
  unfold deviates. rewrite sub_nan_l.
  replace (abs nan) with nan by (vm_compute; reflexivity).
  rewrite ltb_spec. change (Prim2SF nan) with S754_nan.
  by destruct (Prim2SF tol) as [[]|[]| |[] ? ?].
Qed.

Lemma LinearFit_pow_ones (pow2 : float → float) (y1 y2 y3 : float) :
  pow2 1 = 1 → LinearFit_pow pow2 [1; 1; 1] [y1; y2; y3] = Ok (nan, nan).
Proof.
  intros Hp. rewrite LinearFit_pow_agree; [apply LinearFit_ones|].
  unfold square_at. replace (np_average [1; 1; 1]) with 1 by (vm_compute; reflexivity).
  rewrite Hp. vm_compute. reflexivity.
Qed.

Lemma LinearFit_pow_singleton (pow2 : float → float) (a b : float) :
  square_at pow2 (np_average [a]) → LinearFit_pow pow2 [a] [b] = Ok (nan, nan).
Proof. intros Hp. rewrite LinearFit_pow_agree by done. apply LinearFit_singleton. Qed.

Lemma LinearFit_pow_empty (pow2 : float → float) :
  LinearFit_pow pow2 [] [] = Ok (nan, nan).
Proof.
  unfold LinearFit_pow, multiply. rewrite decide_True by done.
  cbn [mbind result_bind zip_with square fmap list_fmap].
  replace (np_average (@nil float)) with nan by (vm_compute; reflexivity).
  cbn [asub amul adiv binary64]. by nan_absorb.
Qed.

Lemma LinearFit2_empty : LinearFit2 (@nil float) [] = Ok (nan, nan).
Proof. vm_compute. reflexivity. Qed.

(** The slope of the stable estimator reads the abscissae through their
    centred values only. *)
Lemma LinearFit2_centred (x x' y : list float) :
  length x = length y → length x' = length y →
  sub_scalar x (np_average x) = sub_scalar x' (np_average x') →
  ∃ β α α', LinearFit2 x y = Ok (β, α) ∧ LinearFit2 x' y = Ok (β, α').
Proof.
  intros Hx Hx' Hc. unfold LinearFit2. rewrite <- Hc.
  rewrite multiply_same_length by (unfold sub_scalar; by rewrite !length_fmap).
  cbn [mbind result_bind]. by eexists _, _, _.
Qed.
End PowerBinary64.

(** ** Exact arithmetic: an offset keeps distinct abscissae distinct *)

Lemma two_distinct_scalar_add (B : Qc) (x : list Qc) :
  two_distinct x → two_distinct (scalar_add B x).
Proof.
  intros (a & b & Ha & Hb & Hab). exists (B + a)%Qc, (B + b)%Qc.
  repeat split; [apply list_elem_of_fmap; by exists a | apply list_elem_of_fmap; by exists b |].
  intros Heq. apply Hab.
  replace a with (B + a - B)%Qc by ring. rewrite Heq. ring.
Qed.

(** ** Binary64: whole numbers *)

Section WholeFacts.
Local Open Scope Z_scope.

Lemma digits2_unique (p : positive) (d : Z) :
  2 ^ (d - 1) ≤ Zpos p < 2 ^ d → Zpos (digits2_pos p) = d.
Proof.
  intros [Hlo Hhi]. pose proof (digits2_bounds p) as [Hlo' Hhi'].
  set (D := Zpos (digits2_pos p)) in *.
  assert (HD : 1 ≤ D) by (subst D; lia).
  destruct (Z.lt_trichotomy D d) as [Hlt | [Heq | Hgt]]; [|done|].
  - exfalso. assert (2 ^ D ≤ 2 ^ (d - 1)) by (apply Z.pow_le_mono_r; lia). lia.
  - exfalso. destruct (Z.le_gt_cases 0 d) as [Hd | Hd].
    + assert (2 ^ d ≤ 2 ^ (D - 1)) by (apply Z.pow_le_mono_r; lia). lia.
    + rewrite (Z.pow_neg_r 2 d) in Hhi by lia. lia.
Qed.

Lemma digits2_shift (c M : positive) (k : Z) :
  0 ≤ k → Zpos M = Zpos c * 2 ^ k →
  Zpos (digits2_pos M) = Zpos (digits2_pos c) + k.
Proof.
  intros Hk HM. apply digits2_unique. rewrite HM.
  pose proof (digits2_bounds c) as [Hlo Hhi].
  replace (Zpos (digits2_pos c) + k - 1) with (Zpos (digits2_pos c) - 1 + k) by lia.
  rewrite !Z.pow_add_r by lia.
  assert (0 < 2 ^ k) by (apply Z.pow_pos_nonneg; lia).
  split; nia.
Qed.

Lemma fexp_whole (x : Z) : -1021 ≤ x → fexp prec emax x = x - 53.
Proof. intros Hx. unfold fexp, emin, prec, emax. lia. Qed.

(** Shifting out bits that are all zero leaves no trace. *)
Lemma shr_1_exact (m : Z) :
  0 ≤ m → (2 | m) →
  shr_1 {| shr_m := m; shr_r := false; shr_s := false |}
  = {| shr_m := m / 2; shr_r := false; shr_s := false |}.
Proof.
  intros Hm [q Hq]. destruct m as [|[p|p|]|p]; cbn [shr_1 orb]; try lia; try done.
  f_equal. apply Z.div_unique with 0; lia.
Qed.

Lemma div_pow2 (m a b : Z) :
  0 ≤ a → 0 ≤ b → (2 ^ (a + b) | m) →
  (2 ^ a | m) ∧ (2 ^ b | m / 2 ^ a) ∧ m / 2 ^ a / 2 ^ b = m / 2 ^ (a + b).
Proof.
  intros Ha Hb [q Hq]. rewrite Z.pow_add_r in Hq by done.
  assert (0 < 2 ^ a) by (apply Z.pow_pos_nonneg; lia).
  assert (0 < 2 ^ b) by (apply Z.pow_pos_nonneg; lia).
  assert (Hma : m / 2 ^ a = q * 2 ^ b).
  { rewrite Hq. replace (q * (2 ^ a * 2 ^ b)) with (q * 2 ^ b * 2 ^ a) by ring.
    by rewrite Z.div_mul by lia. }
  split; [exists (q * 2 ^ b); rewrite Hq; ring|].
  split; [exists q; by rewrite Hma|].
  rewrite Hma, Z.div_mul by lia. rewrite Z.pow_add_r by done.
  rewrite Hq. by rewrite Z.div_mul by lia.
Qed.

Lemma iter_shr_1_exact (p : positive) (m : Z) :
  0 ≤ m → (2 ^ Zpos p | m) →
  SpecFloat.iter_pos shr_1 p {| shr_m := m; shr_r := false; shr_s := false |}
  = {| shr_m := m / 2 ^ Zpos p; shr_r := false; shr_s := false |}.
Proof.
  revert m; induction p as [p IH | p IH |]; intros m Hm Hdiv; cbn [SpecFloat.iter_pos].
  - replace (Zpos p~1) with (1 + (Zpos p + Zpos p)) in * by lia.
    destruct (div_pow2 m 1 (Zpos p + Zpos p)) as (H1 & H2 & <-); [lia | lia | done|].
    change (2 ^ 1) with 2 in *.
    rewrite shr_1_exact by done.
    assert (Hm1 : 0 ≤ m / 2) by (apply Z.div_pos; lia).
    destruct (div_pow2 (m / 2) (Zpos p) (Zpos p)) as (H3 & H4 & <-); [lia | lia | done|].
    rewrite IH by done. rewrite IH; [done | | done].
    apply Z.div_pos; [done|]. apply Z.pow_pos_nonneg; lia.
  - replace (Zpos p~0) with (Zpos p + Zpos p) in * by lia.
    destruct (div_pow2 m (Zpos p) (Zpos p)) as (H3 & H4 & <-); [lia | lia | done|].
    rewrite IH by done. rewrite IH; [done | | done].
    apply Z.div_pos; [done|]. apply Z.pow_pos_nonneg; lia.
  - change (2 ^ 1) with 2 in *. by apply shr_1_exact.
Qed.

Lemma shr_exact (m e n : Z) :
  0 ≤ m → 0 ≤ n → (2 ^ n | m) →
  shr {| shr_m := m; shr_r := false; shr_s := false |} e n
  = ({| shr_m := m / 2 ^ n; shr_r := false; shr_s := false |}, e + n).
Proof.
  intros Hm Hn Hdiv. destruct n as [|p|p]; [| |lia]; cbn [shr].
  - by rewrite Z.div_1_r, Z.add_0_r.
  - by rewrite iter_shr_1_exact.
Qed.

(** The canonical form of the whole number [c] with the sign [s]. *)
Lemma binary_round_aux_canon (s : bool) (M c : positive) (k : Z) :
  0 ≤ k → Zpos M = Zpos c * 2 ^ k → Zpos c < 2 ^ 53 →
  53 ≤ Zpos (digits2_pos M) →
  binary_round_aux prec emax s (Zpos M) (- k) loc_Exact
  = canon s c.
Proof.
  intros Hk HM Hc HD. unfold canon.
  pose proof (digits2_shift c M k Hk HM) as HdM.
  pose proof (digits2_bounds c) as [Hclo Hchi].
  set (dc := Zpos (digits2_pos c)) in *.
  assert (Hdc : 1 ≤ dc ≤ 53).
  { split; [subst dc; lia|].
    destruct (Z.le_gt_cases dc 53) as [|Hgt]; [done|]. exfalso.
    assert (2 ^ 53 ≤ 2 ^ (dc - 1)) by (apply Z.pow_le_mono_r; lia). lia. }
  set (n := dc - 53 + k).
  assert (Hn : 0 ≤ n ≤ k) by (subst n; lia).
  assert (Hpk : 2 ^ k = 2 ^ n * 2 ^ (53 - dc)).
  { rewrite <- Z.pow_add_r by lia. f_equal. lia. }
  assert (Hpn : 0 < 2 ^ n) by (apply Z.pow_pos_nonneg; lia).
  assert (Hpc : 0 < 2 ^ (53 - dc)) by (apply Z.pow_pos_nonneg; lia).
  remember (Zpos c * 2 ^ (53 - dc)) as m1 eqn:Hm1def.
  assert (Hm1 : 0 < m1) by (subst m1; lia).
  assert (HMm1 : Zpos M = m1 * 2 ^ n) by (subst m1; rewrite HM, Hpk; ring).
  unfold binary_round_aux, shr_fexp. cbn [Zdigits2 shr_record_of_loc].
  rewrite HdM, fexp_whole by lia.
  replace (dc + k + - k - 53 - - k) with n by (subst n; lia).
  rewrite shr_exact; [|lia|lia|by exists m1; rewrite HMm1].
  cbn [shr_m loc_of_shr_record round_nearest_even].
  rewrite HMm1, Z.div_mul by lia.
  destruct m1 as [|p1|p1]; try lia.
  cbn [shr_fexp Zdigits2 shr_record_of_loc].
  assert (Hd1 : Zpos (digits2_pos p1) = 53).
  { rewrite (digits2_shift c p1 (53 - dc)) by (done || lia). subst dc. lia. }
  rewrite Hd1, fexp_whole by lia.
  replace (53 + (- k + n) - 53 - (- k + n)) with 0 by lia.
  cbn [shr shr_m fst snd].
  replace (- k + n) with (dc - 53) by (subst n; lia).
  change (Z.sub emax prec) with 971.
  rewrite (proj2 (Z.leb_le (dc - 53) 971)) by lia. done.
Qed.

Lemma binary_round_canon (s : bool) (M c : positive) (k : Z) :
  0 ≤ k → Zpos M = Zpos c * 2 ^ k → Zpos c < 2 ^ 53 →
  binary_round prec emax s M (- k)
  = canon s c.
Proof.
  intros Hk HM Hc. unfold canon.
  pose proof (digits2_shift c M k Hk HM) as HdM.
  pose proof (digits2_bounds c) as [Hclo Hchi].
  set (dc := Zpos (digits2_pos c)) in *.
  assert (Hdc : 1 ≤ dc ≤ 53).
  { split; [subst dc; lia|].
    destruct (Z.le_gt_cases dc 53) as [|Hgt]; [done|]. exfalso.
    assert (2 ^ 53 ≤ 2 ^ (dc - 1)) by (apply Z.pow_le_mono_r; lia). lia. }
  unfold binary_round. rewrite HdM, fexp_whole by lia.
  destruct (Z.le_gt_cases 53 (dc + k)) as [Hbig | Hsmall].
  - assert (Hal : shl_align M (- k) (dc + k + - k - 53) = (M, - k)).
    { unfold shl_align. destruct (dc + k + - k - 53 - - k) eqn:Hd; try done. lia. }
    rewrite Hal. apply binary_round_aux_canon; try done. lia.
  - destruct (shl_align_value M (- k) (dc + k + - k - 53)) as [Hv He]; [lia|].
    destruct (shl_align M (- k) (dc + k + - k - 53)) as [M' e']. cbn [fst snd] in *.
    subst e'.
    replace (dc + k + - k - 53) with (- (53 - dc)) by lia.
    apply binary_round_aux_canon; try done; [lia | |].
    + rewrite Hv, HM. rewrite <- Z.mul_assoc, <- Z.pow_add_r by lia. do 2 f_equal. lia.
    + assert (HM' : Zpos M' = Zpos c * 2 ^ (53 - dc)).
      { rewrite Hv, HM. rewrite <- Z.mul_assoc, <- Z.pow_add_r by lia. do 2 f_equal. lia. }
      rewrite (digits2_shift c M' (53 - dc)) by (done || lia). subst dc. lia.
Qed.

Lemma digits2_whole (c : positive) :
  Zpos c < 2 ^ 53 → 1 ≤ Zpos (digits2_pos c) ≤ 53.
Proof.
  intros Hc. pose proof (digits2_bounds c) as [Hlo _]. split; [lia|].
  destruct (Z.le_gt_cases (Zpos (digits2_pos c)) 53) as [|Hgt]; [done|]. exfalso.
  assert (2 ^ 53 ≤ 2 ^ (Zpos (digits2_pos c) - 1)) by (apply Z.pow_le_mono_r; lia). lia.
Qed.

Lemma whole_pos (c : positive) : Zpos c < 2 ^ 53 → whole (Zpos c) = canon false c.
Proof.
  intros Hc. unfold whole. cbn [binary_normalize].
  apply (binary_round_canon false c c 0); [done | lia | done].
Qed.

Lemma whole_neg (c : positive) : Zpos c < 2 ^ 53 → whole (Zneg c) = canon true c.
Proof.
  intros Hc. unfold whole. cbn [binary_normalize].
  apply (binary_round_canon true c c 0); [done | lia | done].
Qed.

(** A whole number written with [k] more binary places normalises to
    itself. *)
Lemma normalize_whole (z k : Z) :
  Z.abs z < 2 ^ 53 → 0 ≤ k →
  binary_normalize prec emax (z * 2 ^ k) (- k) false = whole z.
Proof.
  intros Hz Hk. assert (0 < 2 ^ k) by (apply Z.pow_pos_nonneg; lia).
  destruct z as [|c|c].
  - done.
  - rewrite whole_pos by lia.
    destruct (Zpos c * 2 ^ k) as [|M|M] eqn:HM; try lia.
    cbn [binary_normalize]. by apply binary_round_canon; [|lia|lia].
  - rewrite whole_neg by lia.
    destruct (Zneg c * 2 ^ k) as [|M|M] eqn:HM; try lia.
    cbn [binary_normalize]. apply binary_round_canon; [done|lia|lia].
Qed.

Lemma canon_mantissa (c : positive) :
  Zpos c < 2 ^ 53 →
  Zpos (Z.to_pos (Zpos c * 2 ^ (53 - Zpos (digits2_pos c))))
  = Zpos c * 2 ^ (53 - Zpos (digits2_pos c)).
Proof.
  intros Hc. pose proof (digits2_whole c Hc).
  assert (0 < 2 ^ (53 - Zpos (digits2_pos c))) by (apply Z.pow_pos_nonneg; lia).
  rewrite Z2Pos.id; lia.
Qed.

(** The mantissa of a whole number, aligned to an exponent below its
    own. *)
Lemma canon_aligned (c : positive) (ez : Z) :
  Zpos c < 2 ^ 53 → ez ≤ Zpos (digits2_pos c) - 53 →
  Zpos (shl_align (Z.to_pos (Zpos c * 2 ^ (53 - Zpos (digits2_pos c))))
          (Zpos (digits2_pos c) - 53) ez).1
  = Zpos c * 2 ^ (- ez).
Proof.
  intros Hc Hez. pose proof (digits2_whole c Hc).
  destruct (shl_align_value (Z.to_pos (Zpos c * 2 ^ (53 - Zpos (digits2_pos c))))
              (Zpos (digits2_pos c) - 53) ez) as [-> _]; [done|].
  rewrite canon_mantissa by done.
  rewrite <- Z.mul_assoc, <- Z.pow_add_r by lia. do 2 f_equal. lia.
Qed.

Lemma whole_cases (z : Z) :
  Z.abs z < 2 ^ 53 →
  (z = 0 ∧ whole z = S754_zero false)
  ∨ ∃ s c, z = cond_Zopp s (Zpos c) ∧ Zpos c < 2 ^ 53 ∧ whole z = canon s c.
Proof.
  intros Hz. destruct z as [|c|c].
  - by left.
  - right. exists false, c. split; [done|]. split; [lia|]. apply whole_pos. lia.
  - right. exists true, c. split; [done|]. split; [lia|]. apply whole_neg. lia.
Qed.

Lemma SFadd_whole (a b : Z) :
  Z.abs a < 2 ^ 53 → Z.abs b < 2 ^ 53 → Z.abs (a + b) < 2 ^ 53 →
  SF64add (whole a) (whole b) = whole (a + b).
Proof.
  intros Ha Hb Hab.
  destruct (whole_cases a Ha) as [[-> Ea] | (sa & ca & -> & Hca & Ea)];
    destruct (whole_cases b Hb) as [[-> Eb] | (sb & cb & -> & Hcb & Eb)];
    rewrite ?Ea, ?Eb.
  - done.
  - rewrite Z.add_0_l, Eb. done.
  - rewrite Z.add_0_r, Ea. done.
  - unfold SF64add, SFadd, canon.
    pose proof (digits2_whole ca Hca). pose proof (digits2_whole cb Hcb).
    set (ez := Z.min (Zpos (digits2_pos ca) - 53) (Zpos (digits2_pos cb) - 53)).
    rewrite !canon_aligned by (done || lia).
    replace (cond_Zopp sa (Zpos ca * 2 ^ (- ez)) + cond_Zopp sb (Zpos cb * 2 ^ (- ez)))
      with ((cond_Zopp sa (Zpos ca) + cond_Zopp sb (Zpos cb)) * 2 ^ (- ez))
      by (destruct sa, sb; cbn [cond_Zopp]; ring).
    rewrite <- (Z.opp_involutive ez) at 2.
    apply normalize_whole; [done | lia].
Qed.

Lemma SFsub_whole (a b : Z) :
  Z.abs a < 2 ^ 53 → Z.abs b < 2 ^ 53 → Z.abs (a - b) < 2 ^ 53 →
  SF64sub (whole a) (whole b) = whole (a - b).
Proof.
  intros Ha Hb Hab.
  destruct (whole_cases a Ha) as [[-> Ea] | (sa & ca & -> & Hca & Ea)];
    destruct (whole_cases b Hb) as [[-> Eb] | (sb & cb & -> & Hcb & Eb)];
    rewrite ?Ea, ?Eb.
  - done.
  - unfold SF64sub, SFsub, canon.
    replace (0 - cond_Zopp sb (Zpos cb)) with (cond_Zopp (negb sb) (Zpos cb))
      by (destruct sb; cbn; lia).
    destruct sb; cbn [negb cond_Zopp];
      [by rewrite whole_pos | change (- Zpos cb) with (Zneg cb); by rewrite whole_neg].
  - rewrite Z.sub_0_r, Ea. done.
  - unfold SF64sub, SFsub, canon.
    pose proof (digits2_whole ca Hca). pose proof (digits2_whole cb Hcb).
    set (ez := Z.min (Zpos (digits2_pos ca) - 53) (Zpos (digits2_pos cb) - 53)).
    rewrite !canon_aligned by (done || lia).
    replace (cond_Zopp sa (Zpos ca * 2 ^ (- ez)) - cond_Zopp sb (Zpos cb * 2 ^ (- ez)))
      with ((cond_Zopp sa (Zpos ca) - cond_Zopp sb (Zpos cb)) * 2 ^ (- ez))
      by (destruct sa, sb; cbn [cond_Zopp]; ring).
    rewrite <- (Z.opp_involutive ez) at 2.
    apply normalize_whole; [done | lia].
Qed.

Lemma canon_digits (c : positive) :
  Zpos c < 2 ^ 53 →
  Zpos (digits2_pos (Z.to_pos (Zpos c * 2 ^ (53 - Zpos (digits2_pos c))))) = 53.
Proof.
  intros Hc. pose proof (digits2_whole c Hc).
  rewrite (digits2_shift c _ (53 - Zpos (digits2_pos c))); [lia | lia |].
  by apply canon_mantissa.
Qed.

Lemma digits2_mul (a b c : positive) :
  Zpos a = Zpos b * Zpos c →
  Zpos (digits2_pos a) ≤ Zpos (digits2_pos b) + Zpos (digits2_pos c).
Proof.
  intros Habc.
  pose proof (digits2_bounds a) as [Ha _].
  pose proof (digits2_bounds b) as [_ Hb].
  pose proof (digits2_bounds c) as [_ Hc].
  assert (Hlt : 2 ^ (Zpos (digits2_pos a) - 1)
                < 2 ^ (Zpos (digits2_pos b) + Zpos (digits2_pos c))).
  { rewrite Z.pow_add_r by lia. nia. }
  apply Z.pow_lt_mono_r_iff in Hlt; lia.
Qed.

Lemma new_location_exact (m : Z) : new_location m 0 = loc_Exact.
Proof. unfold new_location. by destruct (Z.even m). Qed.

(** A quotient of whole numbers that is a whole number is exact. *)
Lemma SFdiv_whole (a n : Z) :
  Z.abs a < 2 ^ 53 → 0 < n < 2 ^ 53 → (n | a) →
  SF64div (whole a) (whole n) = whole (a / n).
Proof.
  intros Ha Hn Hdiv. destruct n as [|cn|cn]; try lia.
  rewrite (whole_pos cn) by lia.
  destruct (whole_cases a Ha) as [[-> Ea] | (sa & ca & -> & Hca & Ea)]; rewrite Ea.
  { by rewrite Z.div_0_l by lia. }
  destruct Hdiv as [q Hq].
  assert (Hq0 : ∃ q0, q = cond_Zopp sa (Zpos q0) ∧ Zpos ca = Zpos q0 * Zpos cn).
  { destruct sa, q as [|q0|q0]; cbn [cond_Zopp] in *; try lia.
    - exists q0. split; [done | lia].
    - exists q0. split; [done | lia]. }
  destruct Hq0 as (q0 & -> & Hca0).
  rewrite Hq, Z.div_mul by lia.
  assert (Hq0 : Zpos q0 < 2 ^ 53) by nia.
  assert (Hwq : whole (cond_Zopp sa (Zpos q0)) = canon sa q0).
  { destruct sa; cbn [cond_Zopp]; [by apply whole_neg | by apply whole_pos]. }
  rewrite Hwq.
  pose proof (digits2_whole ca Hca) as Hda.
  pose proof (digits2_whole cn ltac:(lia)) as Hdn.
  pose proof (digits2_whole q0 Hq0) as Hdq.
  pose proof (digits2_mul ca q0 cn Hca0) as Hdmul.
  unfold canon at 1 2. unfold SF64div, SFdiv, SFdiv_core_binary.
  cbn [Zdigits2]. rewrite !canon_digits, !canon_mantissa by lia.
  set (da := Zpos (digits2_pos ca)) in *.
  set (dn := Zpos (digits2_pos cn)) in *.
  set (dq := Zpos (digits2_pos q0)) in *.
  set (K := 53 - da + dn).
  replace (53 + (da - 53) - (53 + (dn - 53))) with (da - dn) by lia.
  rewrite fexp_whole by lia.
  replace (Z.min (da - dn - 53) (da - 53 - (dn - 53))) with (- K) by (subst K; lia).
  replace (da - 53 - (dn - 53) - - K) with 53 by (subst K; lia).
  cbv iota. rewrite Z.shiftl_mul_pow2 by lia.
  assert (Hp1 : 0 < 2 ^ (53 - da)) by (apply Z.pow_pos_nonneg; lia).
  assert (Hp2 : 0 < 2 ^ (53 - dn)) by (apply Z.pow_pos_nonneg; lia).
  assert (Hpn : 0 < 2 ^ dn) by (apply Z.pow_pos_nonneg; lia).
  assert (HK : 2 ^ K = 2 ^ (53 - da) * 2 ^ dn).
  { subst K. by rewrite <- Z.pow_add_r by lia. }
  assert (H53 : 2 ^ 53 = 2 ^ (53 - dn) * 2 ^ dn).
  { rewrite <- Z.pow_add_r by lia. f_equal. lia. }
  set (X := Zpos ca * 2 ^ (53 - da) * 2 ^ 53).
  set (Y := Zpos cn * 2 ^ (53 - dn)).
  assert (HXY : X = Y * (Zpos q0 * 2 ^ K) + 0).
  { subst X Y. rewrite HK, H53, Hca0. ring. }
  assert (HY : 0 < Y) by (subst Y; lia).
  pose proof (Z_div_mod X Y ltac:(lia)) as Hdm.
  destruct (Z.div_eucl X Y) as [q r]. destruct Hdm as [Hdm Hr].
  destruct (Z.div_mod_unique Y q (Zpos q0 * 2 ^ K) r 0) as [-> ->];
    [lia | lia | lia |].
  rewrite new_location_exact.
  assert (HpK : 0 < 2 ^ K) by lia.
  destruct (Zpos q0 * 2 ^ K) as [|Q|Q] eqn:HQ; try lia.
  rewrite xorb_false_r.
  apply binary_round_aux_canon; [subst K; lia | done | done |].
  rewrite (digits2_shift q0 Q K) by (done || subst K; lia).
  fold dq. subst K. lia.
Qed.
End WholeFacts.

Section WholeSums.
Local Open Scope Z_scope.

Lemma Zsum_app (l k : list Z) : Zsum (l ++ k) = Zsum l + Zsum k.
Proof. induction l as [|z l IH]; cbn; [done|]. fold (Zsum (l ++ k)) (Zsum l). lia. Qed.

Lemma Zabs_sum_app (l k : list Z) : Zabs_sum (l ++ k) = Zabs_sum l + Zabs_sum k.
Proof.
  induction l as [|z l IH]; cbn; [done|]. fold (Zabs_sum (l ++ k)) (Zabs_sum l). lia.
Qed.

Lemma Zabs_sum_nonneg (l : list Z) : 0 ≤ Zabs_sum l.
Proof. induction l as [|z l IH]; cbn; [done|]. fold (Zabs_sum l). lia. Qed.

Lemma Zsum_abs_le (l : list Z) : Z.abs (Zsum l) ≤ Zabs_sum l.
Proof. induction l as [|z l IH]; cbn; [done|]. fold (Zsum l) (Zabs_sum l). lia. Qed.

Lemma Zabs_sum_elem (l : list Z) (z : Z) : z ∈ l → Z.abs z ≤ Zabs_sum l.
Proof.
  induction l as [|a l IH]; [by intros ?%elem_of_nil|].
  intros [-> | Hz]%elem_of_cons; cbn; fold (Zabs_sum l);
    pose proof (Zabs_sum_nonneg l); [lia|]. specialize (IH Hz). lia.
Qed.

Lemma Zsum_perm (l k : list Z) : l ≡ₚ k → Zsum l = Zsum k.
Proof.
  induction 1 as [|z l k _ IH|a b l|l k m _ IH1 _ IH2]; [done | | | congruence].
  - cbn. fold (Zsum l) (Zsum k). lia.
  - cbn. fold (Zsum l). lia.
Qed.

Lemma Zabs_sum_perm (l k : list Z) : l ≡ₚ k → Zabs_sum l = Zabs_sum k.
Proof.
  induction 1 as [|z l k _ IH|a b l|l k m _ IH1 _ IH2]; [done | | | congruence].
  - cbn. fold (Zabs_sum l) (Zabs_sum k). lia.
  - cbn. fold (Zabs_sum l). lia.
Qed.

Lemma Zsum_shift (b : Z) (l : list Z) :
  Zsum ((λ z, b + z) <$> l) = Z.of_nat (length l) * b + Zsum l.
Proof.
  induction l as [|z l IH]; [done|].
  cbn [fmap list_fmap length Zsum foldr].
  fold (Zsum ((λ z, b + z) <$> l)) (Zsum l). rewrite IH. lia.
Qed.

Lemma Forall2_perm_l {X Y : Type} (R : X → Y → Prop) (l k : list X) (zs : list Y) :
  l ≡ₚ k → Forall2 R k zs → ∃ zs', zs' ≡ₚ zs ∧ Forall2 R l zs'.
Proof.
  intros Hperm. revert zs.
  induction Hperm as [|a l k _ IH|a b l|l k m _ IH1 _ IH2]; intros zs Hzs.
  - apply Forall2_nil_inv_l in Hzs as ->. by exists [].
  - apply Forall2_cons_inv_l in Hzs as (z & zs0 & Hz & Hzs0 & ->).
    destruct (IH zs0 Hzs0) as (zs' & Hp & Hf).
    exists (z :: zs'). split; [by constructor | by constructor].
  - apply Forall2_cons_inv_l in Hzs as (z1 & zs1 & Hz1 & Hzs1 & ->).
    apply Forall2_cons_inv_l in Hzs1 as (z2 & zs2 & Hz2 & Hzs2 & ->).
    exists (z2 :: z1 :: zs2). split; [apply perm_swap | by repeat constructor].
  - destruct (IH2 zs Hzs) as (zs2 & Hp2 & Hf2).
    destruct (IH1 zs2 Hf2) as (zs1 & Hp1 & Hf1).
    exists zs1. split; [by etrans | done].
Qed.
End WholeSums.

Section WholeFloats.
Local Open Scope float_scope.

Lemma zero_whole : is_whole 0 0.
Proof. by split. Qed.

Lemma add_whole (x y : float) (a b : Z) :
  is_whole x a → is_whole y b → (Z.abs (a + b) < 2 ^ 53)%Z → is_whole (x + y) (a + b).
Proof.
  intros [Ha Hx] [Hb Hy] Hab. split; [done|].
  rewrite add_spec, Hx, Hy. by apply SFadd_whole.
Qed.

Lemma sub_whole (x y : float) (a b : Z) :
  is_whole x a → is_whole y b → (Z.abs (a - b) < 2 ^ 53)%Z → is_whole (x - y) (a - b).
Proof.
  intros [Ha Hx] [Hb Hy] Hab. split; [done|].
  rewrite sub_spec, Hx, Hy. by apply SFsub_whole.
Qed.

Lemma div_whole (x y : float) (a n : Z) :
  is_whole x a → is_whole y n → (0 < n)%Z → (n | a)%Z → is_whole (x / y) (a / n).
Proof.
  intros [Ha Hx] [Hn Hy] Hpos Hdiv. split.
  - destruct Hdiv as [q ->]. rewrite Z.div_mul by lia. nia.
  - rewrite div_spec, Hx, Hy. apply SFdiv_whole; [done | lia | done].
Qed.

Lemma of_count_whole (n : nat) :
  (Z.of_nat n < 2 ^ 53)%Z → is_whole (of_count n) (Z.of_nat n).
Proof.
  intros Hn. split; [lia|]. cbn [of_count binary64].
  rewrite of_uint63_spec. unfold whole. f_equal.
  rewrite Uint63.of_Z_spec. apply Z.mod_small. split; [lia|].
  change Uint63.wB with (2 ^ 63)%Z. lia.
Qed.

Lemma is_whole_inj (x y : float) (z : Z) : is_whole x z → is_whole y z → x = y.
Proof. intros [_ Hx] [_ Hy]. apply Prim2SF_inj. congruence. Qed.

(** A sum of whole numbers, in any order and grouping, is exact as long
    as the absolute values add up to less than 2^53. *)
Lemma tree_sum_whole (l : list float) (v : float) :
  tree_sum l v →
  ∀ zs, Forall2 is_whole l zs → (Zabs_sum zs < 2 ^ 53)%Z → is_whole v (Zsum zs).
Proof.
  induction 1 as [|a|l k u v _ IHu _ IHv|l k u Hperm _ IH]; intros zs Hzs Hbound.
  - apply Forall2_nil_inv_l in Hzs as ->. apply zero_whole.
  - apply Forall2_cons_inv_l in Hzs as (z & zs0 & Hz & Hzs0 & ->).
    apply Forall2_nil_inv_l in Hzs0 as ->.
    cbn. by rewrite Z.add_0_r.
  - apply Forall2_app_inv_l in Hzs as (zs1 & zs2 & Hzs1 & Hzs2 & ->).
    rewrite Zabs_sum_app in Hbound. rewrite Zsum_app.
    pose proof (Zabs_sum_nonneg zs1). pose proof (Zabs_sum_nonneg zs2).
    pose proof (Zsum_abs_le zs1). pose proof (Zsum_abs_le zs2).
    apply add_whole; [apply IHu | apply IHv |]; try done; lia.
  - destruct (Forall2_perm_l is_whole l k zs Hperm Hzs) as (zs' & Hp & Hf).
    rewrite <- (Zsum_perm _ _ Hp). apply IH; [done|].
    by rewrite (Zabs_sum_perm _ _ Hp).
Qed.

Lemma np_sum_whole (l : list float) (zs : list Z) :
  Forall2 is_whole l zs → (Zabs_sum zs < 2 ^ 53)%Z → is_whole (np_sum l) (Zsum zs).
Proof. intros Hl Hb. by apply (tree_sum_whole l); [apply np_sum_tree | |]. Qed.

(** The mean of whole numbers whose sum the count divides is the whole
    number sum / count: the arithmetic mean, exactly. *)
Lemma np_average_whole (l : list float) (zs : list Z) :
  Forall2 is_whole l zs → (Zabs_sum zs < 2 ^ 53)%Z →
  (0 < Z.of_nat (length l) < 2 ^ 53)%Z → (Z.of_nat (length l) | Zsum zs)%Z →
  is_whole (np_average l) (Zsum zs / Z.of_nat (length l)).
Proof.
  intros Hl Hb Hn Hdiv. unfold np_average.
  apply div_whole; [by apply np_sum_whole | apply of_count_whole; lia | lia | done].
Qed.

Lemma scalar_add_whole (B : float) (b : Z) (x : list float) (xs : list Z) :
  is_whole B b → Forall2 is_whole x xs →
  (Zabs_sum ((λ z, b + z) <$> xs) < 2 ^ 53)%Z →
  Forall2 is_whole (scalar_add B x) ((λ z, (b + z)%Z) <$> xs).
Proof.
  intros HB Hx. induction Hx as [|a z x xs Ha Hx IH]; intros Hb; [constructor|].
  cbn [scalar_add fmap list_fmap] in *. cbn [Zabs_sum foldr] in Hb.
  fold (Zabs_sum ((λ z, b + z)%Z <$> xs)) in Hb.
  pose proof (Zabs_sum_nonneg ((λ z, b + z)%Z <$> xs)).
  constructor.
  - apply add_whole; [done | done | lia].
  - apply IH. lia.
Qed.

Lemma sub_scalar_whole (x : list float) (xs : list Z) (c : float) (m : Z) :
  Forall2 is_whole x xs → is_whole c m →
  (∀ z, z ∈ xs → Z.abs (z - m) < 2 ^ 53)%Z →
  Forall2 is_whole (sub_scalar x c) ((λ z, (z - m)%Z) <$> xs).
Proof.
  intros Hx Hc. induction Hx as [|a z x xs Ha Hx IH]; intros Hb; [constructor|].
  cbn [sub_scalar fmap list_fmap] in *.
  constructor.
  - apply sub_whole; [done | done |]. apply Hb, list_elem_of_here.
  - apply IH. intros z' Hz'. by apply Hb, list_elem_of_further.
Qed.

Lemma Forall2_whole_inj (l k : list float) (zs : list Z) :
  Forall2 is_whole l zs → Forall2 is_whole k zs → l = k.
Proof.
  intros Hl. revert k; induction Hl as [|a z l zs Ha Hl IH]; intros k Hk.
  - by apply Forall2_nil_inv_r in Hk as ->.
  - apply Forall2_cons_inv_r in Hk as (b & k' & Hb & Hk' & ->).
    f_equal; [by eapply is_whole_inj | by apply IH].
Qed.

Lemma mean_abs_le (s n : Z) : (0 < n)%Z → (Z.abs (s / n) ≤ Z.abs s)%Z.
Proof.
  intros Hn. destruct (Z.le_gt_cases 0 s) as [Hs | Hs].
  - rewrite !Z.abs_eq; [|lia|by apply Z.div_pos].
    apply Z.div_le_upper_bound; [lia | nia].
  - assert (s / n < 0)%Z by (apply Z.div_lt_upper_bound; lia).
    assert (s ≤ s / n)%Z; [|lia].
    apply Z.div_le_lower_bound; [lia | nia].
Qed.

(** Whole abscissae with a whole mean, shifted by a whole offset, keep
    their centred values, bit for bit. *)
Lemma centred_offset_whole (x : list float) (xs : list Z) (B : float) (b : Z) :
  Forall2 is_whole x xs → is_whole B b →
  (Zabs_sum xs < 2 ^ 52)%Z → (Zabs_sum ((λ z, b + z) <$> xs) < 2 ^ 52)%Z →
  (0 < Z.of_nat (length x) < 2 ^ 53)%Z → (Z.of_nat (length x) | Zsum xs)%Z →
  sub_scalar (scalar_add B x) (np_average (scalar_add B x))
  = sub_scalar x (np_average x).
Proof.
  intros Hx HB Hb1 Hb2 Hn Hdiv.
  pose proof (Forall2_length _ _ _ Hx) as Hlen.
  set (n := Z.of_nat (length x)) in *.
  set (m := (Zsum xs / n)%Z).
  assert (Hm : is_whole (np_average x) m) by (apply np_average_whole; (done || lia)).
  assert (Hx' : Forall2 is_whole (scalar_add B x) ((λ z, (b + z)%Z) <$> xs))
    by (apply scalar_add_whole; (done || lia)).
  assert (Hlen' : length (scalar_add B x) = length x)
    by (unfold scalar_add; by rewrite length_fmap).
  assert (Hsum' : Zsum ((λ z, (b + z)%Z) <$> xs) = (n * b + Zsum xs)%Z).
  { rewrite Zsum_shift. subst n. by rewrite <- Hlen. }
  assert (Hm' : is_whole (np_average (scalar_add B x)) (b + m)).
  { replace (b + m)%Z with (Zsum ((λ z, (b + z)%Z) <$> xs) / Z.of_nat (length (scalar_add B x)))%Z.
    - apply np_average_whole; rewrite ?Hlen'; try done; try lia.
      fold n. rewrite Hsum'. apply Z.divide_add_r; [by apply Z.divide_factor_l | done].
    - rewrite Hlen'. fold n. rewrite Hsum'. subst m.
      rewrite Z.add_comm, Z.mul_comm, Z.div_add by lia. lia. }
  pose proof (Zsum_abs_le xs) as Hs1.
  pose proof (mean_abs_le (Zsum xs) n ltac:(lia)) as Hm1. fold m in Hm1.
  apply (Forall2_whole_inj _ _ ((λ z, (z - m)%Z) <$> xs)).
  - replace ((λ z, (z - m)%Z) <$> xs)
      with ((λ z, (z - (b + m))%Z) <$> ((λ z, (b + z)%Z) <$> xs)).
    + apply sub_scalar_whole; [done | done |].
      intros z (z0 & -> & Hz0)%list_elem_of_fmap.
      pose proof (Zabs_sum_elem xs z0 Hz0). lia.
    + rewrite <- list_fmap_compose. apply list_fmap_ext. intros _ z _. cbn. lia.
  - apply sub_scalar_whole; [done | done |].
    intros z Hz. pose proof (Zabs_sum_elem xs z Hz). lia.
Qed.

(** Hence the stable estimator returns the same slope with and without
    the offset, whatever the ordinates. *)
Lemma LinearFit2_offset_whole (x y : list float) (xs : list Z) (B : float) (b : Z) :
  Forall2 is_whole x xs → is_whole B b →
  (Zabs_sum xs < 2 ^ 52)%Z → (Zabs_sum ((λ z, b + z) <$> xs) < 2 ^ 52)%Z →
  (0 < Z.of_nat (length x) < 2 ^ 53)%Z → (Z.of_nat (length x) | Zsum xs)%Z →
  length x = length y →
  ∃ β α α', LinearFit2 x y = Ok (β, α) ∧ LinearFit2 (scalar_add B x) y = Ok (β, α').
Proof.
  intros Hx HB Hb1 Hb2 Hn Hdiv Hlen.
  apply LinearFit2_centred; [done | unfold scalar_add; by rewrite length_fmap |].
  symmetry. by eapply centred_offset_whole.
Qed.
End WholeFloats.

(** ** Binary64: small samples *)

Section GridFacts.
Local Open Scope float_scope.

Lemma forallb_elem_of {A : Type} (f : A → bool) (l : list A) (a : A) :
  forallb f l = true → a ∈ l → f a = true.
Proof.
  intros H Ha. induction Ha as [a l|a b l _ IH]; cbn [forallb] in H;
    apply andb_true_iff in H as [H1 H2]; [done|by apply IH].
Qed.

Lemma row_elem_of (f : list float → bool) (x y : list float) :
  all_equal x || forallb f triples = true → all_equal x = false →
  y ∈ triples → f y = true.
Proof.
  intros H Hne Hy. rewrite Hne in H. by apply (forallb_elem_of f triples).
Qed.

Lemma grid_agree : forallb agree_row triples = true.
Proof. vm_compute. reflexivity. Qed.

Lemma grid_offsets : forallb kept_row triples = true.
Proof. vm_compute. reflexivity. Qed.

Lemma grid_means : forallb mean_accurate short_lists = true.
Proof. vm_compute. reflexivity. Qed.

(** On every sample of the grid with two distinct abscissae, and with
    every power within one unit in the last place, the two estimators
    agree. *)
Lemma triples_agree (pow2 : float → float) (x y : list float) :
  x ∈ triples → y ∈ triples → all_equal x = false →
  faithful_at pow2 (np_average x) →
  agree (LinearFit_pow pow2 x y) (LinearFit2 x y) = true.
Proof.
  intros Hx Hy Hne Hp.
  pose proof (row_elem_of (agree_at x) x y
                (forallb_elem_of agree_row triples x grid_agree Hx) Hne Hy) as H.
  pose proof (forallb_elem_of _ _ _ H Hp) as H'. cbv beta in H'.
  rewrite (LinearFit_pow_ext pow2 (λ _, pow2 (np_average x))); [exact H'|reflexivity].
Qed.

(** On every such sample the stable slope with an offset of the grid is
    the slope without it to within 4e-15 times the offset. *)
Lemma triples_offsets (x y : list float) (B : float) :
  x ∈ triples → y ∈ triples → all_equal x = false → B ∈ offsets_grid →
  slope_kept B (LinearFit2 (scalar_add B x) y) (LinearFit2 x y) = true.
Proof.
  intros Hx Hy Hne HB.
  pose proof (row_elem_of (kept_at x) x y
                (forallb_elem_of kept_row triples x grid_offsets Hx) Hne Hy) as H.
  exact (forallb_elem_of _ _ _ H HB).
Qed.

(** The mean of up to four values of the grid is accurate. *)
Lemma lists_means (a : list float) : a ∈ short_lists → mean_accurate a = true.
Proof. exact (forallb_elem_of mean_accurate short_lists a grid_means). Qed.
End GridFacts.


(** ** Programs over the store: what they return and what they leave alone *)

Module StoreFacts.

Section Frame.
Context {A : Type}.
Implicit Types (σ : Store.state A) (a : list A) (l x y : Store.loc).


#[export] Instance extends_preorder : PreOrder (@Store.extends A).
Proof.
  split.
  - by intros σ.
  - intros σ1 σ2 σ3 [Hh12 Ho12] [Hh23 Ho23].
    split; [by etrans | congruence].
Qed.

Lemma extends_lookup σ σ' l a :
  Store.extends σ σ' → Store.heap σ !! l = Some a → Store.heap σ' !! l = Some a.
Proof. intros [Hh _] Hl. by eapply lookup_weaken. Qed.

Lemma bind_unfold {X Y} (m : Store.prog A X) (k : X → Store.prog A Y) σ :
  (m ≫= k) σ = match m σ with
               | (Ok v, σ') => k v σ'
               | (Raise e, σ') => (Raise e, σ')
               end.
Proof. reflexivity. Qed.

Lemma bind_ok {X Y} (m : Store.prog A X) (k : X → Store.prog A Y) σ v σ' :
  m σ = (Ok v, σ') → (m ≫= k) σ = k v σ'.
Proof. intros Hm. by rewrite bind_unfold, Hm. Qed.

Lemma bind_raise {X Y} (m : Store.prog A X) (k : X → Store.prog A Y) σ e σ' :
  m σ = (Raise e, σ') → (m ≫= k) σ = (Raise e, σ').
Proof. intros Hm. by rewrite bind_unfold, Hm. Qed.

Lemma load_run σ l a : Store.heap σ !! l = Some a → Store.load l σ = (Ok a, σ).
Proof. intros Hl. unfold Store.load. by rewrite Hl. Qed.

Lemma alloc_run σ a :
  ∃ l σ', Store.alloc a σ = (Ok l, σ') ∧ Store.heap σ !! l = None
          ∧ Store.heap σ' !! l = Some a ∧ Store.extends σ σ'.
Proof.
  assert (Hnew : Store.heap σ !! fresh (dom (Store.heap σ)) = None)
    by apply not_elem_of_dom, is_fresh.
  eexists _, _. split; [reflexivity|]. split; [exact Hnew|].
  cbn [Store.heap Store.stdout]. split.
  - apply lookup_insert_eq.
  - split; [|done]. cbn [Store.heap]. by apply insert_subseteq.
Qed.

(** An array expression [f(x)]: a new array, the operand untouched. *)
Lemma unary_run (f : list A → list A) σ x a :
  Store.heap σ !! x = Some a →
  ∃ l σ', (a' ← Store.load x; Store.alloc (f a')) σ = (Ok l, σ')
          ∧ Store.heap σ' !! l = Some (f a) ∧ Store.extends σ σ'.
Proof.
  intros Hx. destruct (alloc_run σ (f a)) as (l & σ' & Hrun & _ & Hl & Hext).
  exists l, σ'. split; [|done].
  by rewrite (bind_ok _ _ _ _ _ (load_run _ _ _ Hx)).
Qed.

Lemma copy_run σ x a :
  Store.heap σ !! x = Some a →
  ∃ l σ', Store.copy x σ = (Ok l, σ') ∧ Store.heap σ !! l = None
          ∧ Store.heap σ' !! l = Some a ∧ Store.extends σ σ'.
Proof.
  intros Hx. destruct (alloc_run σ a) as (l & σ' & Hrun & Hnew & Hl & Hext).
  exists l, σ'. split; [|done]. unfold Store.copy.
  by rewrite (bind_ok _ _ _ _ _ (load_run _ _ _ Hx)).
Qed.
End Frame.

Section Estimators.
Context {A : Type} `{Arith A}.
Implicit Types (σ : Store.state A) (a b : list A) (x y : Store.loc).

Lemma average_run σ x a :
  Store.heap σ !! x = Some a → Store.average x σ = (Ok (np_average a), σ).
Proof. intros Hx. unfold Store.average. by rewrite (bind_ok _ _ _ _ _ (load_run _ _ _ Hx)). Qed.

Lemma sum_run σ x a : Store.heap σ !! x = Some a → Store.sum x σ = (Ok (np_sum a), σ).
Proof. intros Hx. unfold Store.sum. by rewrite (bind_ok _ _ _ _ _ (load_run _ _ _ Hx)). Qed.

Lemma power2_run σ x a :
  Store.heap σ !! x = Some a →
  ∃ l σ', Store.power2 x σ = (Ok l, σ') ∧ Store.heap σ' !! l = Some (square a) ∧ Store.extends σ σ'.
Proof. apply (unary_run square). Qed.

Lemma minus_run σ x a (c : A) :
  Store.heap σ !! x = Some a →
  ∃ l σ', Store.minus x c σ = (Ok l, σ') ∧ Store.heap σ' !! l = Some (sub_scalar a c) ∧ Store.extends σ σ'.
Proof. apply (unary_run (λ a, sub_scalar a c)). Qed.

Lemma times_run σ x y a b :
  Store.heap σ !! x = Some a → Store.heap σ !! y = Some b →
  match multiply a b with
  | Ok c => ∃ l σ', Store.times x y σ = (Ok l, σ') ∧ Store.heap σ' !! l = Some c ∧ Store.extends σ σ'
  | Raise e => Store.times x y σ = (Raise e, σ)
  end.
Proof.
  intros Hx Hy. unfold Store.times.
  rewrite (bind_ok _ _ _ _ _ (load_run _ _ _ Hx)).
  rewrite (bind_ok _ _ _ _ _ (load_run _ _ _ Hy)).
  destruct (multiply a b) as [c | e].
  - destruct (alloc_run σ c) as (l & σ' & Hrun & _ & Hl & Hext).
    exists l, σ'. split; [|done].
    by rewrite (bind_ok (Store.of_result (Ok c)) _ σ c σ eq_refl).
  - reflexivity.
Qed.

(** The estimators return what the formulas give on the contents of the
    arrays, print nothing and change no array that existed. *)
Lemma LinearFit_run σ x y a b :
  Store.heap σ !! x = Some a → Store.heap σ !! y = Some b →
  ∃ σ', Store.LinearFit x y σ = (LinearFit a b, σ') ∧ Store.extends σ σ'.
Proof.
  intros Hx Hy. unfold Store.LinearFit, LinearFit.
  rewrite (bind_ok _ _ _ _ _ (average_run _ _ _ Hx)).
  rewrite (bind_ok _ _ _ _ _ (average_run _ _ _ Hy)).
  destruct (power2_run σ x a Hx) as (x2 & σ1 & Hrun1 & Hx2 & Hext1).
  rewrite (bind_ok _ _ _ _ _ Hrun1).
  rewrite (bind_ok _ _ _ _ _ (average_run _ _ _ Hx2)).
  pose proof (times_run σ1 x y a b (extends_lookup _ _ _ _ Hext1 Hx)
                (extends_lookup _ _ _ _ Hext1 Hy)) as Htimes.
  destruct (multiply a b) as [c | e].
  - destruct Htimes as (xy & σ2 & Hrun2 & Hxy & Hext2).
    rewrite (bind_ok _ _ _ _ _ Hrun2).
    rewrite (bind_ok _ _ _ _ _ (average_run _ _ _ Hxy)).
    exists σ2. split; [reflexivity | by etrans].
  - rewrite (bind_raise _ _ _ _ _ Htimes). by exists σ1.
Qed.

Lemma LinearFit2_run σ x y a b :
  Store.heap σ !! x = Some a → Store.heap σ !! y = Some b →
  ∃ σ', Store.LinearFit2 x y σ = (LinearFit2 a b, σ') ∧ Store.extends σ σ'.
Proof.
  intros Hx Hy. unfold Store.LinearFit2, LinearFit2.
  rewrite (bind_ok _ _ _ _ _ (average_run _ _ _ Hx)).
  rewrite (bind_ok _ _ _ _ _ (average_run _ _ _ Hy)).
  destruct (minus_run σ x a (np_average a) Hx) as (dx & σ1 & Hrun1 & Hdx & Hext1).
  rewrite (bind_ok _ _ _ _ _ Hrun1).
  destruct (minus_run σ1 y b (np_average b) (extends_lookup _ _ _ _ Hext1 Hy))
    as (dy & σ2 & Hrun2 & Hdy & Hext2).
  rewrite (bind_ok _ _ _ _ _ Hrun2).
  pose proof (times_run σ2 dx dy _ _ (extends_lookup _ _ _ _ Hext2 Hdx) Hdy) as Htimes.
  destruct (multiply (sub_scalar a (np_average a)) (sub_scalar b (np_average b)))
    as [c | e].
  - destruct Htimes as (dxy & σ3 & Hrun3 & Hdxy & Hext3).
    rewrite (bind_ok _ _ _ _ _ Hrun3).
    rewrite (bind_ok _ _ _ _ _ (sum_run _ _ _ Hdxy)).
    assert (Hx3 : Store.heap σ3 !! x = Some a).
    { eapply extends_lookup; [|exact Hx]. by repeat (etrans; [eassumption|]). }
    destruct (minus_run σ3 x a (np_average a) Hx3) as (dx' & σ4 & Hrun4 & Hdx' & Hext4).
    rewrite (bind_ok _ _ _ _ _ Hrun4).
    destruct (power2_run σ4 dx' _ Hdx') as (dx2 & σ5 & Hrun5 & Hdx2 & Hext5).
    rewrite (bind_ok _ _ _ _ _ Hrun5).
    rewrite (bind_ok _ _ _ _ _ (sum_run _ _ _ Hdx2)).
    exists σ5. split; [reflexivity|].
    by repeat (etrans; [eassumption|]).
  - rewrite (bind_raise _ _ _ _ _ Htimes).
    exists σ2. split; [reflexivity | by etrans].
Qed.

Lemma print_run σ (o : Store.out A) :
  Store.print o σ = (Ok (), Store.State (Store.heap σ) (Store.stdout σ ++ [o])).
Proof. reflexivity. Qed.



(** Whatever the outcome, the comparator cell changes no array that
    existed and only adds to the output. *)
Lemma comparator_frame σ (baseline : A) t ph ts phs :
  Store.heap σ !! t = Some ts → Store.heap σ !! ph = Some phs →
  ∃ r σ', Store.comparator baseline t ph σ = (r, σ')
          ∧ Store.heap σ ⊆ Store.heap σ'
          ∧ Store.stdout σ `prefix_of` Store.stdout σ'.
Proof.
  intros Ht Hph. unfold Store.comparator.
  rewrite (bind_ok _ _ _ _ _ (print_run _ _)).
  set (σ1 := Store.State _ _).
  destruct (LinearFit_run σ1 t ph ts phs Ht Hph) as (σ2 & Hrun2 & Hh2 & Ho2).
  destruct (LinearFit ts phs) as [r1 | e1]; cycle 1.
  { rewrite (bind_raise _ _ _ _ _ Hrun2). eexists _, _. split; [reflexivity|].
    split; [done|]. rewrite Ho2. by apply prefix_app_r. }
  rewrite (bind_ok _ _ _ _ _ Hrun2).
  rewrite (bind_ok _ _ _ _ _ (print_run _ _)).
  rewrite (bind_ok _ _ _ _ _ (print_run _ _)).
  set (σ3 := Store.State _ _).
  assert (Hpre3 : Store.stdout σ `prefix_of` Store.stdout σ3).
  { cbn [Store.stdout σ3]. rewrite Ho2. cbn [Store.stdout σ1].
    rewrite <- !(assoc_L (++)). by apply prefix_app_r. }
  assert (Ht3 : Store.heap σ3 !! t = Some ts) by exact (lookup_weaken _ _ _ _ Ht Hh2).
  assert (Hph3 : Store.heap σ3 !! ph = Some phs) by exact (lookup_weaken _ _ _ _ Hph Hh2).
  destruct (minus_run σ3 t ts baseline Ht3) as (t0 & σ4 & Hrun4 & Ht0 & Hh4 & Ho4).
  rewrite (bind_ok _ _ _ _ _ Hrun4).
  assert (Hph4 : Store.heap σ4 !! ph = Some phs) by exact (lookup_weaken _ _ _ _ Hph3 Hh4).
  destruct (LinearFit_run σ4 t0 ph _ phs Ht0 Hph4) as (σ5 & Hrun5 & Hh5 & Ho5).
  assert (Hsub5 : Store.heap σ ⊆ Store.heap σ5).
  { etrans; [exact Hh2|]. etrans; [exact Hh4|]. exact Hh5. }
  destruct (LinearFit (sub_scalar ts baseline) phs) as [r2 | e2]; cycle 1.
  { rewrite (bind_raise _ _ _ _ _ Hrun5). eexists _, _. split; [reflexivity|].
    split; [done|]. by rewrite Ho5, Ho4. }
  rewrite (bind_ok _ _ _ _ _ Hrun5).
  rewrite (bind_ok _ _ _ _ _ (print_run _ _)).
  rewrite (bind_ok _ _ _ _ _ (print_run _ _)).
  set (σ6 := Store.State _ _).
  assert (Hsub6 : Store.heap σ ⊆ Store.heap σ6) by exact Hsub5.
  assert (Hpre6 : Store.stdout σ `prefix_of` Store.stdout σ6).
  { cbn [Store.stdout σ6]. rewrite Ho5, Ho4.
    rewrite <- !(assoc_L (++)). by apply prefix_app_r. }
  assert (Ht6 : Store.heap σ6 !! t = Some ts) by exact (lookup_weaken _ _ _ _ Ht Hsub6).
  assert (Hph6 : Store.heap σ6 !! ph = Some phs) by exact (lookup_weaken _ _ _ _ Hph Hsub6).
  destruct (LinearFit2_run σ6 t ph ts phs Ht6 Hph6) as (σ7 & Hrun7 & Hh7 & Ho7).
  destruct (LinearFit2 ts phs) as [r3 | e3]; cycle 1.
  { rewrite (bind_raise _ _ _ _ _ Hrun7). eexists _, _. split; [reflexivity|].
    split; [by etrans | by rewrite Ho7]. }
  rewrite (bind_ok _ _ _ _ _ Hrun7).
  rewrite (bind_ok _ _ _ _ _ (print_run _ _)).
  eexists _, _. split; [reflexivity|]. cbn [Store.heap Store.stdout]. split.
  - by etrans.
  - rewrite Ho7. by apply prefix_app_r.
Qed.
End Estimators.

Section Scope.
Context {A : Type} (of_int : Z → A).
Implicit Types (σ : Store.state A) (a : list A) (e : Store.loc).

Lemma print_format_run σ (s : string) e a :
  Store.heap σ !! e = Some a →
  Store.print_format s e σ
  = (Ok (), Store.State (Store.heap σ) (Store.stdout σ ++ [Store.Formatted s a])).
Proof.
  intros He. unfold Store.print_format.
  by rewrite (bind_ok _ _ _ _ _ (load_run _ _ _ He)).
Qed.

Lemma setitem_run σ e a (i : nat) (v : A) :
  Store.heap σ !! e = Some a → i < length a →
  Store.setitem e i v σ
  = (Ok (), Store.State (<[e := <[i := v]> a]> (Store.heap σ)) (Store.stdout σ)).
Proof. intros He Hi. unfold Store.setitem. by rewrite He, decide_True. Qed.

Lemma setitem_out_of_range σ e a (i : nat) (v : A) :
  Store.heap σ !! e = Some a → length a ≤ i →
  Store.setitem e i v σ = (Raise IndexError, σ).
Proof. intros He Hi. unfold Store.setitem. rewrite He, decide_False; [done | lia]. Qed.

(** [function4] replaces element 2 of the array the caller holds. *)
Lemma function4_run σ e a :
  Store.heap σ !! e = Some a → 2 < length a →
  Store.function4 of_int e σ
  = (Ok (),
     Store.State (<[e := <[2 := of_int 0]> a]> (Store.heap σ))
       (Store.stdout σ ++
        [Store.Formatted " Inside the function, we receive an argument with value {0}" a;
         Store.Formatted " We set one element to zero - now, inside the function, e={0}"
           (<[2 := of_int 0]> a)])).
Proof.
  intros He Hlen. unfold Store.function4.
  rewrite (bind_ok _ _ _ _ _ (print_format_run _ _ _ _ He)).
  set (σ1 := Store.State _ _).
  rewrite (bind_ok _ _ _ _ _ (setitem_run σ1 e a 2 _ He Hlen)).
  rewrite (print_format_run _ _ e (<[2 := of_int 0]> a)).
  - subst σ1. cbn [Store.heap Store.stdout]. by rewrite <- (assoc_L (++)).
  - cbn [Store.heap]. apply lookup_insert_eq.
Qed.

(** [function4_safe] works on a new array: whatever the outcome, every
    array that existed, the argument included, is unchanged. *)
Lemma function4_safe_frame σ e a :
  Store.heap σ !! e = Some a →
  ∃ r σ', Store.function4_safe of_int e σ = (r, σ')
          ∧ Store.heap σ ⊆ Store.heap σ'
          ∧ (2 < length a → r = Ok ()).
Proof.
  intros He. unfold Store.function4_safe.
  destruct (copy_run σ e a He) as (e' & σ1 & Hrun1 & Hnew & He' & Hh1 & Ho1).
  rewrite (bind_ok _ _ _ _ _ Hrun1).
  rewrite (bind_ok _ _ _ _ _ (print_format_run _ _ _ _ He')).
  set (σ2 := Store.State _ _).
  destruct (decide (2 < length a)) as [Hlen | Hlen].
  - rewrite (bind_ok _ _ _ _ _ (setitem_run σ2 e' a 2 _ He' Hlen)).
    rewrite (print_format_run _ _ e' (<[2 := of_int 1]> a)).
    + eexists _, _. split; [reflexivity|]. cbn [Store.heap]. split; [|done].
      by apply insert_subseteq_r.
    + cbn [Store.heap]. apply lookup_insert_eq.
  - rewrite (bind_raise _ _ _ _ _ (setitem_out_of_range σ2 e' a 2 _ He' ltac:(lia))).
    eexists _, _. split; [reflexivity|]. split; [done | lia].
Qed.
End Scope.
End StoreFacts.

(** ** Exact arithmetic: the estimators against the specification *)

Section ExactEstimators.
Local Open Scope Qc_scope.
Import Spec.

Lemma mean_products_eq (x y : list Qc) :
  mean (products x y) = mean_products (zip x y).
Proof. unfold mean, mean_products, count, products. by rewrite length_fmap. Qed.

Lemma LinearFit_exact (x y : list Qc) :
  length x = length y → LinearFit x y = Ok (naive x y).
Proof.
  intros Hlen. unfold LinearFit. rewrite multiply_same_length by done.
  cbn [mbind result_bind]. unfold naive.
  by rewrite !np_average_mean, zip_with_products, square_products, !mean_products_eq.
Qed.

Lemma LinearFit2_exact (x y : list Qc) :
  length x = length y → LinearFit2 x y = Ok (stable x y).
Proof.
  intros Hlen. unfold LinearFit2.
  rewrite multiply_same_length by (unfold sub_scalar; by rewrite !length_fmap).
  cbn [mbind result_bind]. unfold stable.
  by rewrite zip_with_centred, square_centred, !np_sum_total, !np_average_mean.
Qed.

(** The two slopes as expressions in n, Σx, Σy, Σx², Σxy. *)
Lemma slope_identity (n Sx Sy Sxx Sxy : Qc) :
  n ≠ 0 →
  Sxx - Sx / n * Sx - Sx / n * Sx + n * (Sx / n) * (Sx / n) ≠ 0 →
  (Sxy / n - Sx / n * (Sy / n)) / (Sxx / n - Sx / n * (Sx / n))
  = (Sxy - Sx / n * Sy - Sy / n * Sx + n * (Sx / n) * (Sy / n))
    / (Sxx - Sx / n * Sx - Sx / n * Sx + n * (Sx / n) * (Sx / n)).
Proof.
  intros Hn Hden.
  assert (Hden' : Sxx * n - Sx * Sx ≠ 0).
  { intros Hz. apply Hden.
    replace (Sxx - Sx / n * Sx - Sx / n * Sx + n * (Sx / n) * (Sx / n))
      with ((Sxx * n - Sx * Sx) / n) by (field; done).
    rewrite Hz. field. done. }
  field. repeat split; try done.
  by replace (Sxx * n - Sx * Sx - Sx * Sx + Sx * Sx) with (Sxx * n - Sx * Sx) by ring.
Qed.

Lemma naive_eq_stable (x y : list Qc) :
  length x = length y → two_distinct x → naive x y = stable x y.
Proof.
  intros Hlen Hdist. unfold naive, stable.
  pose proof (count_nonzero x (two_distinct_nonempty x Hdist)) as Hn.
  pose proof (centred_squares_nonzero x (mean x) Hdist) as Hden.
  rewrite total_centred_products by done.
  rewrite total_centred_squares in *.
  rewrite <- !mean_products_eq.
  unfold mean in *. rewrite (count_eq (products x y) x), (count_eq (products x x) x),
    <- (count_eq x y) in * by (by rewrite ?length_products).
  by rewrite slope_identity.
Qed.

(** Adding an offset leaves the centred abscissae as they were. *)
Lemma mean_scalar_add (B : Qc) (x : list Qc) :
  x ≠ [] → mean (scalar_add B x) = B + mean x.
Proof.
  intros Hx. pose proof (count_nonzero x Hx) as Hn. unfold mean.
  rewrite total_scalar_add, (count_eq (scalar_add B x) x)
    by (unfold scalar_add; by rewrite length_fmap).
  field. done.
Qed.

Lemma centred_products_scalar_add (B c d : Qc) (x y : list Qc) :
  (λ p, (p.1 - (B + c)) * (p.2 - d)) <$> zip (scalar_add B x) y
  = (λ p, (p.1 - c) * (p.2 - d)) <$> zip x y.
Proof.
  unfold scalar_add. revert y; induction x as [|a x IH]; intros [|b y]; cbn; try done.
  rewrite IH. f_equal. ring.
Qed.

Lemma centred_squares_scalar_add (B c : Qc) (x : list Qc) :
  (λ a, (a - (B + c)) * (a - (B + c))) <$> scalar_add B x
  = (λ a, (a - c) * (a - c)) <$> x.
Proof.
  unfold scalar_add. rewrite <- list_fmap_compose.
  apply list_fmap_ext. intros i a _. cbn. ring.
Qed.

Lemma stable_scalar_add (B : Qc) (x y : list Qc) :
  x ≠ [] →
  stable (scalar_add B x) y = ((stable x y).1, (stable x y).2 - (stable x y).1 * B).
Proof.
  intros Hx. unfold stable. rewrite mean_scalar_add by done.
  rewrite centred_products_scalar_add, centred_squares_scalar_add.
  cbn [fst snd]. f_equal. ring.
Qed.
(** The naive denominator is not zero on a sample with two distinct
    abscissae. *)
Lemma naive_denominator_nonzero (x : list Qc) :
  two_distinct x → np_average (square x) - np_average x * np_average x ≠ 0.
Proof.
  intros Hdist.
  pose proof (count_nonzero x (two_distinct_nonempty x Hdist)) as Hn.
  pose proof (centred_squares_nonzero x (Spec.mean x) Hdist) as Hden.
  rewrite total_centred_squares in Hden.
  rewrite !np_average_mean, square_products.
  unfold Spec.mean in *. rewrite (count_eq (products x x) x) by by rewrite length_products.
  intros Hz. apply Hden.
  replace (Spec.total (products x x) - Spec.total x / Spec.count x * Spec.total x
           - Spec.total x / Spec.count x * Spec.total x
           + Spec.count x * (Spec.total x / Spec.count x) * (Spec.total x / Spec.count x))
    with (Spec.count x * (Spec.total (products x x) / Spec.count x
                          - Spec.total x / Spec.count x * (Spec.total x / Spec.count x)))
    by (field; done).
  rewrite Hz. ring.
Qed.

Lemma stable_denominator_nonzero (x : list Qc) :
  two_distinct x → np_sum (square (sub_scalar x (np_average x))) ≠ 0.
Proof.
  intros Hdist. rewrite square_centred, np_sum_total.
  by apply centred_squares_nonzero.
Qed.
End ExactEstimators.


(** * Properties *)

Section Properties.
Local Open Scope float_scope.

(** C1, as stated, fails.  Every threshold is passed by the largest
    finite offset and by an infinite one, and there the naive estimator
    returns a NaN as slope, whatever the power of the mean is: a NaN
    differs from nothing by more than a tolerance.  The same happens at
    2^601 when the power is the rounded product. *)
Lemma C1_counterexample :
  is_huge 0x1.fffffffffffffp+1023 = true
  ∧ (∀ pow2 : float → float,
       LinearFit_pow pow2 (scalar_add 0x1.fffffffffffffp+1023 _t) ph = Ok (nan, nan))
  ∧ (∀ pow2 : float → float,
       LinearFit_pow pow2 (scalar_add infinity _t) ph = Ok (nan, nan))
  ∧ LinearFit_pow sq (scalar_add 0x1p601 _t) ph = Ok (nan, nan)
  ∧ deviates 1 nan 27.269338884970193 = false
  ∧ deviates 1 nan 27.2693 = false.
Proof.
  split; [vm_compute; reflexivity|].
  split; [intros pow2; apply naive_offset_overflow; by left|].
  split; [intros pow2; apply naive_offset_overflow; by right|].
  repeat split; vm_compute; reflexivity.
Qed.

(** C1, amended.  On the notebook's sample, where the power of the mean
    is the rounded product: without offset the naive slope is 27.26933...,
    within 0.0001 of 27.2693; at the notebook's offset 770656.892832 it is
    26.355..., more than 0.5 away; at each of the offsets 10^6 ... 10^15 it
    is more than 1 away.  Against the least-squares slope of the very
    data the estimator is given, in exact arithmetic: without offset the
    returned slope is accurate to a relative 1e-11, at the notebook's
    offset not to 1e-2, at 10^6 ... 10^15 not to 1e-1.  For every offset
    above 2^600 in absolute value no slope of the data is returned: the
    result is a NaN (always, when the power of the mean overflows) or a
    zero, which is more than 1 away from the slope without offset; a NaN
    deviates from nothing. *)
Theorem C1_naive_offset_sensitivity (pow2 : float → float) :
  square_at pow2 (np_average _t) → square_at pow2 (np_average t) →
  (LinearFit_pow pow2 _t ph = Ok (27.269338884970193, 556.18109511781211)
   ∧ within 0.0001 27.269338884970193 27.2693 = true)
  ∧ (LinearFit_pow pow2 t ph = Ok (26.355189732142858, -20310252.004286788)
     ∧ deviates 0.5 26.355189732142858 27.2693 = true
     ∧ deviates 0.5 26.355189732142858 27.269338884970193 = true)
  ∧ (∀ B : float, B ∈ offsets_naive →
       square_at pow2 (np_average (scalar_add B _t)) →
       ∃ β α, LinearFit_pow pow2 (scalar_add B _t) ph = Ok (β, α)
              ∧ deviates 1 β 27.2693 = true)
  ∧ (∀ B : float, is_huge B = true →
       ∃ β α, LinearFit_pow pow2 (scalar_add B _t) ph = Ok (β, α)
              ∧ zero_or_nan β
              ∧ (pow2 (np_average (scalar_add B _t)) = infinity → β = nan)
              ∧ (β = nan ∨ deviates 1 β 27.269338884970193 = true))
  ∧ (∀ tol β0 : float, deviates tol nan β0 = false)
  ∧ (slope_accurate (tenth_to 11) (LinearFit_pow pow2 _t ph)
       (LinearFit2 (rationals _t) (rationals ph)) = true
     ∧ slope_accurate (tenth_to 2) (LinearFit_pow pow2 t ph)
         (LinearFit2 (rationals t) (rationals ph)) = false
     ∧ ∀ B : float, B ∈ offsets_naive →
         square_at pow2 (np_average (scalar_add B _t)) →
         slope_accurate (tenth_to 1) (LinearFit_pow pow2 (scalar_add B _t) ph)
           (LinearFit2 (rationals (scalar_add B _t)) (rationals ph)) = false).
Proof.
  intros Ht0 Ht.
  assert (Hacc : slope_accurate (tenth_to 11) (LinearFit_pow pow2 _t ph)
                   (LinearFit2 (rationals _t) (rationals ph)) = true
                 ∧ slope_accurate (tenth_to 2) (LinearFit_pow pow2 t ph)
                     (LinearFit2 (rationals t) (rationals ph)) = false
                 ∧ ∀ B : float, B ∈ offsets_naive →
                     square_at pow2 (np_average (scalar_add B _t)) →
                     slope_accurate (tenth_to 1)
                       (LinearFit_pow pow2 (scalar_add B _t) ph)
                       (LinearFit2 (rationals (scalar_add B _t)) (rationals ph)) = false).
  { split; [|split].
    - rewrite LinearFit_pow_agree by done. vm_compute. reflexivity.
    - rewrite LinearFit_pow_agree by done. vm_compute. reflexivity.
    - intros B HB Hp. rewrite LinearFit_pow_agree by done. clear Hp.
      unfold offsets_naive in HB.
      repeat (apply elem_of_cons in HB as [-> | HB]; [vm_compute; reflexivity|]).
      by apply elem_of_nil in HB. }
  split; [|split; [|split; [|split; [|split; [|exact Hacc]]]]]; clear Hacc;
    repeat split.
  - rewrite LinearFit_pow_agree by done. vm_compute. reflexivity.
  - rewrite LinearFit_pow_agree by done. apply LinearFit_baseline.
  - intros B HB Hp. rewrite LinearFit_pow_agree by done. clear Hp.
    unfold offsets_naive in HB.
    repeat (apply elem_of_cons in HB as [-> | HB];
            [eexists _, _; split; vm_compute; reflexivity|]).
    by apply elem_of_nil in HB.
  - intros B HB.
    destruct (naive_offset_degenerate pow2 B HB) as (β & α & Hfit & Hβ & Hnan).
    exists β, α. repeat split; [done | done | done |].
    destruct Hβ as [-> | [-> | ->]]; [right | right | left]; vm_compute; reflexivity.
  - apply deviates_nan.
Qed.

Lemma C1_witness :
  square_at sq (np_average _t) ∧ square_at sq (np_average t)
  ∧ LinearFit_pow sq _t ph = Ok (27.269338884970193, 556.18109511781211)
  ∧ within 0.0001 27.269338884970193 27.2693 = true.
Proof.
  split; [reflexivity|]. split; [reflexivity|].
  exact (proj1 (C1_naive_offset_sensitivity sq eq_refl eq_refl)).
Defined.

(** C2, as stated, fails.  The estimator returns a pair, and the
    intercept moves with the offset: with x = [0, 1], y = [0, 1] and B = 1
    every operation is exact and the intercept goes from 0 to -1.  The
    slope is not kept for every offset either, and what it loses is set
    by the size of B: on the notebook's sample B = 10^12 gives 27.256...,
    off in the fourth figure, and with B = 2^53 the shifted abscissae
    [0, 1] coincide and the result is NaN. *)
Lemma C2_counterexample :
  LinearFit2 [0; 1] [0; 1] = Ok (1, 0)
  ∧ LinearFit2 (scalar_add 1 [0; 1]) [0; 1] = Ok (1, -1)
  ∧ LinearFit2 (scalar_add 1 [0; 1]) [0; 1] ≠ LinearFit2 [0; 1] [0; 1]
  ∧ LinearFit2 (scalar_add 0x1p53 [0; 1]) [0; 1] = Ok (nan, nan)
  ∧ LinearFit2 (scalar_add 1e12 _t) ph = Ok (27.25622410498621, -27256224104430.02)
  ∧ rel_within 1e-4 27.25622410498621 27.269338885037484 = false.
Proof.
  repeat split; try (vm_compute; reflexivity).
  intros Heq.
  apply (f_equal (λ r, match r with Ok (_, α) => α =? 0 | Raise _ => false end)) in Heq.
  vm_compute in Heq. discriminate.
Qed.

(** C2, amended.  In exact arithmetic, for every sample with two distinct
    abscissae and every offset B, no divisor is zero and
    [LinearFit2 (B + x) y] has the slope of [LinearFit2 x y] and its
    intercept lowered by slope * B.  In binary64, on the notebook's
    sample, the slope with the offset 770656.892832 agrees with the slope
    without it to a relative 1e-9, and the intercept with the intercept
    lowered by slope * B; at each of the offsets 10^0 ... 10^11 the slope
    agrees to a relative 1e-4, and at each of 10^0 ... 10^8, as at the
    notebook's offset, the slope returned is the least-squares slope of
    the shifted data, taken in exact arithmetic, to a relative 1e-12.  On
    every sample of three points of the grid with two distinct abscissae
    and each of the offsets 1, 10^3, 10^6 the slope with the offset is
    the slope without it to within 4e-15 * B.  The slope reads the
    abscissae through
    their centred values only: two arrays with the same centred values
    give the same slope, bit for bit.  They do whenever the shift rounds
    nothing: for whole abscissae with a whole mean and a whole offset,
    all within 2^52, the centred values, and so the slope, are the same
    with and without the offset, whatever the ordinates. *)
Theorem C2_stable_offset :
  (∀ (x y : list Qc) (B : Qc),
     length x = length y → two_distinct x →
     np_sum (square (sub_scalar x (np_average x))) ≠ 0%Qc
     ∧ np_sum (square (sub_scalar (scalar_add B x) (np_average (scalar_add B x)))) ≠ 0%Qc
     ∧ ∃ β α, LinearFit2 x y = Ok (β, α)
              ∧ LinearFit2 (scalar_add B x) y = Ok (β, (α - β * B)%Qc))
  ∧ (LinearFit2 _t ph = Ok (27.269338885037484, 556.18109511777948)
     ∧ LinearFit2 (scalar_add baseline _t) ph
       = Ok (27.269338887270596, -21014747.795351669)
     ∧ rel_within 1e-9 27.269338887270596 27.269338885037484 = true
     ∧ rel_within 1e-9 (-21014747.795351669)
         (556.18109511777948 - 27.269338885037484 * baseline) = true)
  ∧ (∀ B : float, B ∈ offsets_stable →
       ∃ β α, LinearFit2 (scalar_add B _t) ph = Ok (β, α)
              ∧ rel_within 1e-4 β 27.269338885037484 = true)
  ∧ (∀ x x' y : list float,
       length x = length y → length x' = length y →
       sub_scalar x (np_average x) = sub_scalar x' (np_average x') →
       ∃ β α α', LinearFit2 x y = Ok (β, α) ∧ LinearFit2 x' y = Ok (β, α'))
  ∧ (∀ (x y : list float) (xs : list Z) (B : float) (b : Z),
       Forall2 is_whole x xs → is_whole B b →
       (Zabs_sum xs < 2 ^ 52)%Z → (Zabs_sum ((λ z, b + z) <$> xs) < 2 ^ 52)%Z →
       (0 < Z.of_nat (length x) < 2 ^ 53)%Z → (Z.of_nat (length x) | Zsum xs)%Z →
       length x = length y →
       sub_scalar (scalar_add B x) (np_average (scalar_add B x))
       = sub_scalar x (np_average x)
       ∧ ∃ β α α', LinearFit2 x y = Ok (β, α)
                   ∧ LinearFit2 (scalar_add B x) y = Ok (β, α'))
  ∧ (slope_accurate (tenth_to 12) (LinearFit2 t ph)
       (LinearFit2 (rationals t) (rationals ph)) = true
     ∧ ∀ B : float, B ∈ offsets_small →
         slope_accurate (tenth_to 12) (LinearFit2 (scalar_add B _t) ph)
           (LinearFit2 (rationals (scalar_add B _t)) (rationals ph)) = true)
  ∧ (∀ (x y : list float) (B : float),
       x ∈ triples → y ∈ triples → all_equal x = false → B ∈ offsets_grid →
       slope_kept B (LinearFit2 (scalar_add B x) y) (LinearFit2 x y) = true).
Proof.
  split; [|split; [|split; [|split; [|split; [|split; [|exact triples_offsets]]]]]].
  - intros x y B Hlen Hdist.
    split; [by apply stable_denominator_nonzero|].
    split; [by apply stable_denominator_nonzero, two_distinct_scalar_add|].
    exists (Spec.stable x y).1, (Spec.stable x y).2. split.
    + rewrite LinearFit2_exact by done. by destruct (Spec.stable x y).
    + rewrite LinearFit2_exact by (unfold scalar_add; by rewrite length_fmap).
      by rewrite stable_scalar_add by by apply two_distinct_nonempty.
  - repeat split; vm_compute; reflexivity.
  - intros B HB. unfold offsets_stable in HB.
    repeat (apply elem_of_cons in HB as [-> | HB];
            [eexists _, _; split; vm_compute; reflexivity|]).
    by apply elem_of_nil in HB.
  - apply LinearFit2_centred.
  - intros x y xs B b Hx HB Hb1 Hb2 Hn Hdiv Hlen.
    split; [by eapply centred_offset_whole | by eapply LinearFit2_offset_whole].
  - split; [vm_compute; reflexivity|].
    intros B HB. unfold offsets_small in HB.
    repeat (apply elem_of_cons in HB as [-> | HB]; [vm_compute; reflexivity|]).
    by apply elem_of_nil in HB.
Qed.

Lemma C2_witness :
  (length [0; 1]%Qc = length [0; 1]%Qc ∧ two_distinct [0; 1]%Qc
   ∧ ∃ β α, LinearFit2 [0; 1]%Qc [0; 1]%Qc = Ok (β, α)
            ∧ LinearFit2 (scalar_add 1%Qc [0; 1]%Qc) [0; 1]%Qc = Ok (β, (α - β * 1)%Qc))
  ∧ (Forall2 is_whole [0; 1; 2; 3; 4] [0; 1; 2; 3; 4]%Z ∧ is_whole 1000000 1000000
     ∧ ∃ β α α', LinearFit2 [0; 1; 2; 3; 4] [1.5; 0.25; 2; 5; 3.1] = Ok (β, α)
                 ∧ LinearFit2 (scalar_add 1000000 [0; 1; 2; 3; 4]) [1.5; 0.25; 2; 5; 3.1]
                   = Ok (β, α')).
Proof.
  assert (Hdist : two_distinct [0; 1]%Qc).
  { exists 0%Qc, 1%Qc. repeat split; [set_solver | set_solver |].
    intros Heq. by apply Q_apart_0_1. }
  assert (Hx : Forall2 is_whole [0; 1; 2; 3; 4] [0; 1; 2; 3; 4]%Z).
  { repeat constructor; vm_compute; reflexivity. }
  assert (HB : is_whole 1000000 1000000) by (split; vm_compute; reflexivity).
  split.
  - split; [reflexivity|]. split; [exact Hdist|].
    exact (proj2 (proj2 (proj1 C2_stable_offset [0; 1]%Qc [0; 1]%Qc 1%Qc eq_refl Hdist))).
  - split; [exact Hx|]. split; [exact HB|].
    refine (proj2 (proj1 (proj2 (proj2 (proj2 (proj2 C2_stable_offset))))
                     [0; 1; 2; 3; 4] [1.5; 0.25; 2; 5; 3.1] [0; 1; 2; 3; 4]%Z
                     1000000 1000000%Z Hx HB _ _ _ _ eq_refl));
      [vm_compute; reflexivity | vm_compute; reflexivity | cbn; lia
      | exists 2%Z; reflexivity].
Defined.

(** C3, as stated, fails.  Both samples have the abscissae 1, 2, 3 and no
    offset, and the mean 2 has the exact square 4.  On y = [1.1, 2.2, 3.3]
    the intercept is 0 in exact arithmetic; the stable estimator returns
    0 and the naive one 4.4e-16, which no relative tolerance reconciles.
    On y = [0.2, 1.1, 0.2] the same happens to the slope. *)
Lemma C3_counterexample :
  (∀ pow2 : float → float, pow2 2 = 4 →
     LinearFit_pow pow2 [1; 2; 3] [1.1; 2.2; 3.3]
     = Ok (1.0999999999999996, 4.4408920985006262e-16))
  ∧ LinearFit2 [1; 2; 3] [1.1; 2.2; 3.3] = Ok (1.0999999999999999, 0)
  ∧ rel_within 1e-9 4.4408920985006262e-16 0 = false
  ∧ rel_within 1e-9 0 4.4408920985006262e-16 = false
  ∧ (∀ pow2 : float → float, pow2 2 = 4 →
       LinearFit_pow pow2 [1; 2; 3] [0.2; 1.1; 0.2]
       = Ok (3.3306690738754681e-16, 0.49999999999999933))
  ∧ LinearFit2 [1; 2; 3] [0.2; 1.1; 0.2] = Ok (0, 0.5)
  ∧ rel_within 1e-9 3.3306690738754681e-16 0 = false
  ∧ rel_within 1e-9 0 3.3306690738754681e-16 = false.
Proof.
  assert (Hsq : ∀ pow2 : float → float, pow2 2 = 4 →
                square_at pow2 (np_average [1; 2; 3])).
  { intros pow2 Hp. unfold square_at.
    replace (np_average [1; 2; 3]) with 2 by (vm_compute; reflexivity).
    rewrite Hp. vm_compute. reflexivity. }
  repeat split; try (vm_compute; reflexivity);
    intros pow2 Hp; rewrite LinearFit_pow_agree by (by apply Hsq);
    vm_compute; reflexivity.
Qed.

(** C3, amended.  In exact arithmetic, where the power is the product, on
    every sample with two distinct abscissae (so n ≥ 2) neither
    denominator is zero and [LinearFit] and [LinearFit2] return the same
    slope and intercept.  In binary64 the two agree to a relative 1e-9 on
    the notebook's sample without offset, where the naive slope is the
    exact least-squares slope of the data to a relative 1e-11 and the
    stable one to 1e-15; on the samples x = [1, 2, 3],
    y = [1.1, 2.2, 3.3] and y = [0.2, 1.1, 0.2], where a relative
    tolerance fails, they agree to an absolute 1e-15.  On every sample of
    three points of the grid with two distinct abscissae, and with every
    power of the mean within one unit in the last place of the product,
    slopes and intercepts agree to an absolute 1e-12 and, where they are
    at least 1e-3 in absolute value, to a relative 1e-9. *)
Theorem C3_estimators_agree :
  (∀ x y : list Qc,
     length x = length y → two_distinct x →
     LinearFit x y = LinearFit2 x y
     ∧ (∃ β α, LinearFit x y = Ok (β, α))
     ∧ (np_average (square x) - sq (np_average x) ≠ 0)%Qc
     ∧ np_sum (square (sub_scalar x (np_average x))) ≠ 0%Qc)
  ∧ (∀ pow2 : float → float, square_at pow2 (np_average _t) →
       ∃ β1 α1 β2 α2 : float,
         LinearFit_pow pow2 _t ph = Ok (β1, α1) ∧ LinearFit2 _t ph = Ok (β2, α2)
         ∧ rel_within 1e-9 β1 β2 = true ∧ rel_within 1e-9 α1 α2 = true)
  ∧ (∀ pow2 : float → float, pow2 2 = 4 →
       ∀ y : list float, y = [1.1; 2.2; 3.3] ∨ y = [0.2; 1.1; 0.2] →
       ∃ β1 α1 β2 α2 : float,
         LinearFit_pow pow2 [1; 2; 3] y = Ok (β1, α1) ∧ LinearFit2 [1; 2; 3] y = Ok (β2, α2)
         ∧ within 1e-15 β1 β2 = true ∧ within 1e-15 α1 α2 = true)
  ∧ (∀ pow2 : float → float, square_at pow2 (np_average _t) →
       slope_accurate (tenth_to 11) (LinearFit_pow pow2 _t ph)
         (LinearFit (rationals _t) (rationals ph)) = true
       ∧ slope_accurate (tenth_to 15) (LinearFit2 _t ph)
           (LinearFit2 (rationals _t) (rationals ph)) = true)
  ∧ (∀ (pow2 : float → float) (x y : list float),
       x ∈ triples → y ∈ triples → all_equal x = false →
       faithful_at pow2 (np_average x) →
       agree (LinearFit_pow pow2 x y) (LinearFit2 x y) = true).
Proof.
  split; [|split; [|split; [|split; [|exact triples_agree]]]].
  - intros x y Hlen Hdist. repeat split.
    + by rewrite LinearFit_exact, LinearFit2_exact, naive_eq_stable.
    + apply LinearFit_same_length in Hlen as [[β α] Hfit]. by exists β, α.
    + by apply naive_denominator_nonzero.
    + by apply stable_denominator_nonzero.
  - intros pow2 Hp. rewrite LinearFit_pow_agree by done.
    exists 27.269338884970193, 556.18109511781211,
      27.269338885037484, 556.18109511777948.
    repeat split; vm_compute; reflexivity.
  - intros pow2 Hp y Hy.
    rewrite LinearFit_pow_agree.
    + destruct Hy as [-> | ->]; eexists _, _, _, _; repeat split; vm_compute; reflexivity.
    + unfold square_at.
      replace (np_average [1; 2; 3]) with 2 by (vm_compute; reflexivity).
      rewrite Hp. vm_compute. reflexivity.
  - intros pow2 Hp. rewrite LinearFit_pow_agree by done.
    split; vm_compute; reflexivity.
Qed.

Lemma C3_witness :
  (LinearFit [0; 1; 2]%Qc [1; 0; 2]%Qc = LinearFit2 [0; 1; 2]%Qc [1; 0; 2]%Qc)
  ∧ ∃ β1 α1 β2 α2 : float,
      LinearFit_pow sq _t ph = Ok (β1, α1) ∧ LinearFit2 _t ph = Ok (β2, α2)
      ∧ rel_within 1e-9 β1 β2 = true ∧ rel_within 1e-9 α1 α2 = true.
Proof.
  split.
  - apply (proj1 C3_estimators_agree [0; 1; 2]%Qc [1; 0; 2]%Qc); [reflexivity|].
    exists 0%Qc, 1%Qc. repeat split; [set_solver | set_solver |].
    intros Heq. by apply Q_apart_0_1.
  - exact (proj1 (proj2 C3_estimators_agree) sq eq_refl).
Defined.

(** C4. The naive estimator.  On binary64 arrays of one length, whatever
    the power of a scalar returns, [LinearFit] returns the slope
    (mean(x·y) − mean(x)·mean(y)) / (mean(x²) − mean(x)²) and the intercept
    mean(y) − slope·mean(x), every operation being the rounded one; each
    mean is numpy's: the elements, each added once, over their number.
    In exact arithmetic, on a sample with two distinct abscissae (so
    n ≥ 2), no divisor is zero and the result is the formula of
    Section 4.2 on the arithmetic means.  On x = [0, 1, 2], y = [1, 0, 2]
    binary64 returns (0.49999999999999983, 0.50000000000000022), exact
    arithmetic (1/2, 1/2). *)
Theorem C4_naive_algorithm :
  (∀ (pow2 : float → float) (x y : list float),
     length x = length y →
     let meanX := np_average x in
     let meanY := np_average y in
     let meanX2 := np_average (zip_with PrimFloat.mul x x) in
     let meanXY := np_average (zip_with PrimFloat.mul x y) in
     let slope := (meanXY - meanX * meanY) / (meanX2 - pow2 meanX) in
     LinearFit_pow pow2 x y = Ok (slope, meanY - slope * meanX)
     ∧ is_mean x meanX ∧ is_mean y meanY
     ∧ is_mean (zip_with PrimFloat.mul x x) meanX2
     ∧ is_mean (zip_with PrimFloat.mul x y) meanXY)
  ∧ (∀ x y : list Qc,
       length x = length y → two_distinct x →
       Spec.count x ≠ 0%Qc
       ∧ (Spec.mean_products (zip x x) - Spec.mean x * Spec.mean x ≠ 0)%Qc
       ∧ LinearFit x y = Ok (Spec.naive x y))
  ∧ (∀ pow2 : float → float, pow2 1 = 1 →
       LinearFit_pow pow2 [0; 1; 2] [1; 0; 2]
       = Ok (0.49999999999999983, 0.50000000000000022)).
Proof.
  split; [|split].
  - intros pow2 x y Hlen. cbv zeta. split.
    + by rewrite LinearFit_pow_same_length.
    + repeat split; apply np_average_is_mean.
  - intros x y Hlen Hdist.
    split; [by apply count_nonzero, two_distinct_nonempty|].
    split; [|by apply LinearFit_exact].
    pose proof (naive_denominator_nonzero x Hdist) as Hden.
    by rewrite !np_average_mean, square_products, mean_products_eq in Hden.
  - intros pow2 Hp. rewrite LinearFit_pow_agree; [vm_compute; reflexivity|].
    unfold square_at.
    replace (np_average [0; 1; 2]) with 1 by (vm_compute; reflexivity).
    rewrite Hp. vm_compute. reflexivity.
Qed.

Lemma C4_witness :
  length [0; 1; 2] = length [1; 0; 2]
  ∧ LinearFit_pow sq [0; 1; 2] [1; 0; 2]
    = Ok (let slope := (np_average (zip_with PrimFloat.mul [0; 1; 2] [1; 0; 2])
                        - np_average [0; 1; 2] * np_average [1; 0; 2])
                       / (np_average (zip_with PrimFloat.mul [0; 1; 2] [0; 1; 2])
                          - sq (np_average [0; 1; 2])) in
          (slope, np_average [1; 0; 2] - slope * np_average [0; 1; 2])).
Proof.
  split; [reflexivity|].
  exact (proj1 (proj1 C4_naive_algorithm sq [0; 1; 2] [1; 0; 2] eq_refl)).
Defined.

(** C5. The stable estimator.  On binary64 arrays of one length,
    [LinearFit2] returns the slope
    Σ (x_i − mean(x)) (y_i − mean(y)) / Σ (x_i − mean(x))² and the intercept
    mean(y) − slope·mean(x), every operation being the rounded one; each
    sum adds every term once, each mean is such a sum over the number of
    elements.  In exact arithmetic, on a sample with two distinct
    abscissae (so n ≥ 2), no divisor is zero and the result is the
    formula of Section 4.3 on the arithmetic means.  On x = [0, 1, 2],
    y = [1, 0, 2] binary64 returns (0.5, 0.5). *)
Theorem C5_stable_algorithm :
  (∀ x y : list float,
     length x = length y →
     let meanX := np_average x in
     let meanY := np_average y in
     let products := zip_with (λ a b, (a - meanX) * (b - meanY)) x y in
     let squares := (λ a, (a - meanX) * (a - meanX)) <$> x in
     let slope := np_sum products / np_sum squares in
     LinearFit2 x y = Ok (slope, meanY - slope * meanX)
     ∧ is_mean x meanX ∧ is_mean y meanY
     ∧ tree_sum products (np_sum products)
     ∧ tree_sum squares (np_sum squares))
  ∧ (∀ x y : list Qc,
       length x = length y → two_distinct x →
       Spec.count x ≠ 0%Qc
       ∧ Spec.total ((λ a, (a - Spec.mean x) * (a - Spec.mean x))%Qc <$> x) ≠ 0%Qc
       ∧ LinearFit2 x y = Ok (Spec.stable x y))
  ∧ LinearFit2 [0; 1; 2] [1; 0; 2] = Ok (0.5, 0.5).
Proof.
  split; [|split].
  - intros x y Hlen. cbv zeta. split.
    + by rewrite LinearFit2_same_length_eq.
    + repeat split; first [apply np_average_is_mean | apply np_sum_tree].
  - intros x y Hlen Hdist.
    split; [by apply count_nonzero, two_distinct_nonempty|].
    split; [|by apply LinearFit2_exact].
    by apply centred_squares_nonzero.
  - vm_compute. reflexivity.
Qed.

Lemma C5_witness :
  length [0; 1; 2] = length [1; 0; 2]
  ∧ LinearFit2 [0; 1; 2] [1; 0; 2]
    = Ok (let slope :=
            np_sum (zip_with (λ a b, (a - np_average [0; 1; 2]) * (b - np_average [1; 0; 2]))
                      [0; 1; 2] [1; 0; 2])
            / np_sum ((λ a, (a - np_average [0; 1; 2]) * (a - np_average [0; 1; 2]))
                        <$> [0; 1; 2]) in
          (slope, np_average [1; 0; 2] - slope * np_average [0; 1; 2])).
Proof.
  split; [reflexivity|].
  exact (proj1 (proj1 C5_stable_algorithm [0; 1; 2] [1; 0; 2] eq_refl)).
Defined.

(** C6, as stated, fails.  All abscissae are 0.7, yet the rounded mean
    differs from 0.7: the denominator of the stable estimator is not zero,
    a finite slope comes back and no operation warns.  The naive estimator
    does the same on x = [0.3, 0.3, 0.3].  On the single point x = [2.759]
    a power that returns 7.612080999999999, the neighbour of the product
    7.612081, leaves the naive denominator different from zero: the slope
    0 and the intercept y come back, without a warning. *)
Lemma C6_counterexample :
  LinearFit2 [0.7; 0.7; 0.7] [1; 2; 4]
  = Ok (-1.3333333333333333, 3.2666666666666666)
  ∧ (np_sum (square (sub_scalar [0.7; 0.7; 0.7] (np_average [0.7; 0.7; 0.7]))) =? 0)
    = false
  ∧ is_finite (-1.3333333333333333) = true
  ∧ warned (LinearFit2 (quiet <$> [0.7; 0.7; 0.7]) (quiet <$> [1; 2; 4])) = false
  ∧ (∀ pow2 : float → float, square_at pow2 (np_average [0.3; 0.3; 0.3]) →
       LinearFit_pow pow2 [0.3; 0.3; 0.3] [1; 2; 4] = Ok (-16, 7.1333333333333329)
       ∧ warned (LinearFit_pow (flagged_pow pow2)
                   (quiet <$> [0.3; 0.3; 0.3]) (quiet <$> [1; 2; 4])) = false)
  ∧ (∀ pow2 : float → float, pow2 2.759 = 7.612080999999999 →
       LinearFit_pow pow2 [2.759] [1] = Ok (0, 1)
       ∧ warned (LinearFit_pow (flagged_pow pow2) [quiet 2.759] [quiet 1]) = false).
Proof.
  repeat split; try (vm_compute; reflexivity).
  - rewrite LinearFit_pow_agree by done. vm_compute. reflexivity.
  - rewrite (LinearFit_pow_ext _ (flagged_pow sq)); [vm_compute; reflexivity|].
    replace (np_average (quiet <$> [0.3; 0.3; 0.3]))
      with (quiet (np_average [0.3; 0.3; 0.3])) by (vm_compute; reflexivity).
    unfold flagged_pow. cbn [fst snd quiet]. by rewrite H.
  - rewrite (LinearFit_pow_ext _ (λ _, 7.612080999999999)); [vm_compute; reflexivity|].
    by replace (np_average [2.759]) with 2.759 by (vm_compute; reflexivity).
  - rewrite (LinearFit_pow_ext _ (flagged_pow (λ _, 7.612080999999999)));
      [vm_compute; reflexivity|].
    replace (np_average [quiet 2.759]) with (quiet 2.759) by (vm_compute; reflexivity).
    unfold flagged_pow. cbn [fst snd quiet]. by rewrite H.
Qed.

(** C6, amended.  The estimators raise nothing; what signals a degenerate
    input is numpy's RuntimeWarning, and it comes with every NaN: on data
    without NaN neither estimator returns a NaN, as slope or as intercept,
    without a warning, and the flags change no number.  A NaN slope and a
    NaN intercept are returned for x = [1, 1, 1] with any three ordinates
    (the power of 1 being 1), for no point at all, and for a single point
    by the stable estimator and, where the power of the abscissa is the
    product, by the naive one.  Other inputs whose abscissae are all equal
    need not make the denominator zero, and then nothing is signalled. *)
Theorem C6_degenerate_input (pow2 : float → float) :
  pow2 1 = 1 →
  (∀ y1 y2 y3 : float,
     LinearFit_pow pow2 [1; 1; 1] [y1; y2; y3] = Ok (nan, nan)
     ∧ LinearFit2 [1; 1; 1] [y1; y2; y3] = Ok (nan, nan))
  ∧ (LinearFit_pow pow2 [] [] = Ok (nan, nan)
     ∧ LinearFit2 (@nil float) [] = Ok (nan, nan))
  ∧ (∀ a b : float,
       LinearFit2 [a] [b] = Ok (nan, nan)
       ∧ (square_at pow2 (np_average [a]) → LinearFit_pow pow2 [a] [b] = Ok (nan, nan)))
  ∧ (∀ x y : list float,
       Forall (λ v, is_nan v = false) x → Forall (λ v, is_nan v = false) y →
       values (LinearFit_pow (flagged_pow pow2) (quiet <$> x) (quiet <$> y))
       = LinearFit_pow pow2 x y
       ∧ values (LinearFit2 (quiet <$> x) (quiet <$> y)) = LinearFit2 x y
       ∧ (has_nan (LinearFit_pow pow2 x y) = true →
          warned (LinearFit_pow (flagged_pow pow2) (quiet <$> x) (quiet <$> y)) = true)
       ∧ (has_nan (LinearFit2 x y) = true →
          warned (LinearFit2 (quiet <$> x) (quiet <$> y)) = true)).
Proof.
  intros Hp. split; [|split; [|split]].
  - intros y1 y2 y3. split; [by apply LinearFit_pow_ones | apply LinearFit2_ones].
  - split; [apply LinearFit_pow_empty | apply LinearFit2_empty].
  - intros a b. split; [apply LinearFit2_singleton | apply LinearFit_pow_singleton].
  - intros x y Hx Hy. repeat split.
    + by rewrite values_LinearFit_pow, !fst_quiet.
    + by rewrite values_LinearFit2, !fst_quiet.
    + by apply LinearFit_pow_never_silent.
    + by apply LinearFit2_never_silent.
Qed.

Lemma C6_witness :
  sq 1 = 1
  ∧ LinearFit_pow sq [1; 1; 1] [1; 2; 4] = Ok (nan, nan)
  ∧ LinearFit2 [1; 1; 1] [1; 2; 4] = Ok (nan, nan)
  ∧ warned (LinearFit_pow (flagged_pow sq) (quiet <$> [1; 1; 1]) (quiet <$> [1; 2; 4])) = true
  ∧ warned (LinearFit2 (quiet <$> [1; 1; 1]) (quiet <$> [1; 2; 4])) = true.
Proof.
  split; [reflexivity|].
  pose proof (C6_degenerate_input sq eq_refl) as (Hones & _ & _ & Hsilent).
  destruct (Hones 1 2 4) as [H1 H2].
  destruct (Hsilent [1; 1; 1] [1; 2; 4]) as (_ & _ & Hw1 & Hw2).
  { repeat constructor. }
  { repeat constructor. }
  split; [exact H1|]. split; [exact H2|].
  split; [apply Hw1; by rewrite H1 | apply Hw2; by rewrite H2].
Defined.
End Properties.






(** C8, as stated, fails on binary64.  The arithmetic mean of three equal
    numbers is that number, and 0.7 is a binary64 number; the mean the
    code computes of [0.7, 0.7, 0.7] is the number below it. *)
Lemma C8_counterexample :
  np_average [0.7; 0.7; 0.7]%float = 0.69999999999999984%float
  ∧ (0.69999999999999984 <? 0.7)%float = true
  ∧ (∀ q : Qc, Spec.mean [q; q; q] = q).
Proof.
  split; [vm_compute; reflexivity|]. split; [vm_compute; reflexivity|].
  intros q. unfold Spec.mean. cbn [Spec.total].
  change (Spec.count [q; q; q]) with (Qc_of_Z 3).
  assert (H3 : Qc_of_Z 3 ≠ 0%Qc) by done.
  assert (H3' : Qc_of_Z 3 = (1 + 1 + 1)%Qc) by (by apply Qc_is_canon).
  rewrite H3' in *. field. done.
Qed.

(** C8, amended.  [np.average] returns the sum of the elements, each added
    once in numpy's pairwise order, over their number, every operation
    being the rounded one of the array's arithmetic; on [x * y], for
    arrays of one length, the elements are the products of the pairs.  In
    exact arithmetic this is the arithmetic mean of every non-empty
    sequence, and the mean of the products of the pairs; in binary64 the
    mean of a single number is that number (a negative zero comes back
    positive), and for more numbers the rounded operations can leave it
    beside the arithmetic mean: within 2^-52 of its size on each of the
    arrays the notebook takes a mean of, and on every list of one to four
    values of the grid.  Taking a
    mean changes no array and prints nothing; the arrays [x**2] and
    [x * y] it is taken of are new ones.  The mean of an empty binary64
    array is NaN, with a warning; on data without NaN no mean is a NaN
    without a warning.  On whole numbers whose absolute values add up to
    less than 2^53 the binary64 sum is exact: the mean is the quotient of
    the exact sum by the count, rounded once, and the arithmetic mean
    itself when that is a whole number. *)
Theorem C8_summary_statistics :
  (∀ a : list float, is_mean a (np_average a))
  ∧ (∀ x y : list float, length x = length y →
       ∃ xy, multiply x y = Ok xy ∧ xy = zip_with PrimFloat.mul x y
             ∧ is_mean xy (np_average xy))
  ∧ (∀ a : float, np_average [a] = a ∨ (a = (-0)%float ∧ np_average [a] = 0%float))
  ∧ (∀ l : list Qc, l ≠ [] →
       Spec.count l ≠ 0%Qc
       ∧ np_average l = Spec.mean l
       ∧ (np_average l * Spec.count l = Spec.total l)%Qc)
  ∧ (∀ x y : list Qc, x ≠ [] → length x = length y →
       ∃ xy, multiply x y = Ok xy
             ∧ np_average xy = Spec.mean_products (zip x y))
  ∧ (∀ (σ : Store.state float) (x y : Store.loc) (a b : list float),
       Store.heap σ !! x = Some a → Store.heap σ !! y = Some b →
       length a = length b →
       Store.average x σ = (Ok (np_average a), σ)
       ∧ (∃ σ', (x2 ← Store.power2 x; Store.average x2) σ
                = (Ok (np_average (square a)), σ')
                ∧ Store.extends σ σ')
       ∧ (∃ σ', (xy ← Store.times x y; Store.average xy) σ
                = (Ok (np_average (zip_with PrimFloat.mul a b)), σ')
                ∧ Store.extends σ σ'))
  ∧ (np_average (@nil float) = nan
     ∧ np_average (@nil flagged) = (nan, true))
  ∧ (∀ a : list float, Forall (λ v, is_nan v = false) a →
       (np_average (quiet <$> a)).1 = np_average a
       ∧ (is_nan (np_average a) = true → (np_average (quiet <$> a)).2 = true))
  ∧ (∀ (a : list float) (zs : list Z),
       Forall2 is_whole a zs → (Zabs_sum zs < 2 ^ 53)%Z →
       (0 < Z.of_nat (length a) < 2 ^ 53)%Z →
       is_whole (np_sum a) (Zsum zs)
       ∧ Prim2SF (np_average a)
         = SF64div (whole (Zsum zs)) (whole (Z.of_nat (length a)))
       ∧ ((Z.of_nat (length a) | Zsum zs)%Z →
          is_whole (np_average a) (Zsum zs / Z.of_nat (length a))))
  ∧ (∀ a : list float,
       a ∈ [_t; ph; t; square _t; zip_with PrimFloat.mul _t ph;
            square t; zip_with PrimFloat.mul t ph]
       ∨ a ∈ short_lists →
       mean_accurate a = true).
Proof.
  assert (Hacc : ∀ a : list float,
            a ∈ [_t; ph; t; square _t; zip_with PrimFloat.mul _t ph;
                 square t; zip_with PrimFloat.mul t ph]
            ∨ a ∈ short_lists →
            mean_accurate a = true).
  { intros a [Ha | Ha]; [|by apply lists_means].
    repeat (apply elem_of_cons in Ha as [-> | Ha]; [vm_compute; reflexivity|]).
    by apply elem_of_nil in Ha. }
  split; [apply @np_average_is_mean|].
  split.
  { intros x y Hlen. exists (zip_with PrimFloat.mul x y).
    split; [exact (multiply_same_length x y Hlen)|]. split; [done|].
    apply np_average_is_mean. }
  split; [apply np_average_singleton|].
  split.
  { intros l Hl. split; [by apply count_nonzero|]. split; [apply np_average_mean|].
    rewrite np_average_mean. unfold Spec.mean.
    pose proof (count_nonzero l Hl) as Hn. field. done. }
  split.
  { intros x y _ Hlen. exists (zip_with amul x y).
    split; [by apply multiply_same_length|].
    by rewrite np_average_mean, zip_with_products, mean_products_eq. }
  split; [|split; [split; vm_compute; reflexivity |
                   split; [apply np_average_never_silent|split; [|exact Hacc]]]].
  2:{ intros a zs Ha Hb Hn.
      pose proof (np_sum_whole a zs Ha Hb) as Hs.
      split; [done|]. split; [|by apply np_average_whole].
      unfold np_average. cbn [adiv binary64]. rewrite div_spec.
      destruct Hs as [_ ->].
      by destruct (of_count_whole (length a) ltac:(lia)) as [_ ->]. }
  intros σ x y a b Hx Hy Hlen. split; [by apply StoreFacts.average_run|]. split.
  - destruct (StoreFacts.power2_run σ x a Hx) as (l & σ' & Hrun & Hl & Hext).
    exists σ'. split; [|done].
    rewrite (StoreFacts.bind_ok _ _ _ _ _ Hrun). by apply StoreFacts.average_run.
  - pose proof (StoreFacts.times_run σ x y a b Hx Hy) as Hrun.
    rewrite multiply_same_length in Hrun by done.
    destruct Hrun as (l & σ' & Hrun & Hl & Hext).
    exists σ'. split; [|done].
    rewrite (StoreFacts.bind_ok _ _ _ _ _ Hrun). by apply StoreFacts.average_run.
Qed.

Lemma C8_witness :
  (length [1; 2; 0]%float = length [3; 1; 2]%float
   ∧ ∃ xy, multiply [1; 2; 0]%float [3; 1; 2]%float = Ok xy
           ∧ xy = zip_with PrimFloat.mul [1; 2; 0]%float [3; 1; 2]%float
           ∧ is_mean xy (np_average xy))
  ∧ ([1; 2; 0]%Qc ≠ [] ∧ np_average [1; 2; 0]%Qc = Spec.mean [1; 2; 0]%Qc).
Proof.
  split.
  - split; [reflexivity|].
    exact (proj1 (proj2 C8_summary_statistics) [1; 2; 0]%float [3; 1; 2]%float eq_refl).
  - split; [done|].
    by apply (proj1 (proj2 (proj2 (proj2 C8_summary_statistics))) [1; 2; 0]%Qc).
Defined.

(** C9. Frame condition.  Running [LinearFit], [LinearFit2] or the
    comparator cell on arrays of the store leaves every array that existed,
    the two inputs among them, with the contents it had.  The estimators
    return what the formulas give and print nothing; the comparator only
    adds lines to the output. *)
Theorem C9_inputs_unchanged (A : Type) (H : Arith A) (σ : Store.state A) (B : A)
    (x y : Store.loc) (xs ys : list A) :
  Store.heap σ !! x = Some xs → Store.heap σ !! y = Some ys →
  (∃ σ', Store.LinearFit x y σ = (LinearFit xs ys, σ')
         ∧ Store.heap σ ⊆ Store.heap σ'
         ∧ Store.heap σ' !! x = Some xs ∧ Store.heap σ' !! y = Some ys
         ∧ Store.stdout σ' = Store.stdout σ)
  ∧ (∃ σ', Store.LinearFit2 x y σ = (LinearFit2 xs ys, σ')
           ∧ Store.heap σ ⊆ Store.heap σ'
           ∧ Store.heap σ' !! x = Some xs ∧ Store.heap σ' !! y = Some ys
           ∧ Store.stdout σ' = Store.stdout σ)
  ∧ (∃ r σ', Store.comparator B x y σ = (r, σ')
             ∧ Store.heap σ ⊆ Store.heap σ'
             ∧ Store.heap σ' !! x = Some xs ∧ Store.heap σ' !! y = Some ys
             ∧ Store.stdout σ `prefix_of` Store.stdout σ').
Proof.
  intros Hx Hy. repeat split.
  - destruct (StoreFacts.LinearFit_run σ x y xs ys Hx Hy) as (σ' & Hrun & Hh & Ho).
    exists σ'. repeat split; try done; by eapply lookup_weaken.
  - destruct (StoreFacts.LinearFit2_run σ x y xs ys Hx Hy) as (σ' & Hrun & Hh & Ho).
    exists σ'. repeat split; try done; by eapply lookup_weaken.
  - destruct (StoreFacts.comparator_frame σ B x y xs ys Hx Hy) as (r & σ' & Hrun & Hh & Ho).
    exists r, σ'. repeat split; try done; by eapply lookup_weaken.
Qed.

Lemma C9_witness :
  ∃ σ', Store.LinearFit t_ref ph_ref notebook_store = (LinearFit t ph, σ')
        ∧ Store.heap notebook_store ⊆ Store.heap σ'
        ∧ Store.heap σ' !! t_ref = Some t ∧ Store.heap σ' !! ph_ref = Some ph
        ∧ Store.stdout σ' = Store.stdout notebook_store.
Proof.
  apply (C9_inputs_unchanged float binary64 notebook_store baseline
           t_ref ph_ref t ph); reflexivity.
Defined.

(** C10. Variable scope.  For an array of at least three elements held by
    the caller, [function4] writes 0 at index 2 of that very array and
    touches no other array, while [function4_safe] writes to a copy and
    leaves the caller's array, and every other array, as it was. *)
Theorem C10_function4_aliasing (A : Type) (of_int : Z → A) (σ : Store.state A)
    (e : Store.loc) (a : list A) :
  Store.heap σ !! e = Some a → 2 < length a →
  (∃ σ', Store.function4 of_int e σ = (Ok (), σ')
         ∧ Store.heap σ' !! e = Some (<[2 := of_int 0%Z]> a)
         ∧ (<[2 := of_int 0%Z]> a) !! 2 = Some (of_int 0%Z)
         ∧ ∀ l, l ≠ e → Store.heap σ' !! l = Store.heap σ !! l)
  ∧ (∃ σ', Store.function4_safe of_int e σ = (Ok (), σ')
           ∧ Store.heap σ' !! e = Some a
           ∧ Store.heap σ ⊆ Store.heap σ').
Proof.
  intros He Hlen. split.
  - eexists. split; [by apply StoreFacts.function4_run|].
    cbn [Store.heap]. repeat split.
    + apply lookup_insert_eq.
    + by apply list_lookup_insert_eq.
    + intros l Hl. by apply lookup_insert_ne.
  - destruct (StoreFacts.function4_safe_frame of_int σ e a He) as (r & σ' & Hrun & Hh & Hr).
    exists σ'. rewrite Hrun, (Hr Hlen). repeat split; [|done].
    by eapply lookup_weaken.
Qed.

Lemma C10_witness :
  (∃ σ', Store.function4 id e_ref scope_store = (Ok (), σ')
         ∧ Store.heap σ' !! e_ref = Some (<[2 := 0%Z]> [1; 2; 3]%Z)
         ∧ (<[2 := 0%Z]> [1; 2; 3]%Z) !! 2 = Some 0%Z
         ∧ ∀ l, l ≠ e_ref → Store.heap σ' !! l = Store.heap scope_store !! l)
  ∧ (∃ σ', Store.function4_safe id e_ref scope_store = (Ok (), σ')
           ∧ Store.heap σ' !! e_ref = Some [1; 2; 3]%Z
           ∧ Store.heap scope_store ⊆ Store.heap σ').
Proof.
  apply (C10_function4_aliasing Z id scope_store e_ref [1; 2; 3]%Z);
    [reflexivity | cbn; lia].
Defined.


(** * Further properties *)

(** ** Least squares (exact arithmetic)

    Both estimators are meant to return the line of least squared error.
    In exact arithmetic they do: the pair they return solves the normal
    equations, and every other line has a strictly larger error. *)

Section LeastSquares.
Local Open Scope Qc_scope.
Import Spec.

Lemma count_pos (l : list Qc) : l ≠ [] → 0 < count l.
Proof.
  intros Hl. unfold count. rewrite <- Z2Qc_inj_0.
  apply (proj1 (Z2Qc_inj_lt 0 _)). destruct l; [done | cbn [length]; lia].
Qed.

(** Σ (y_i − (m x_i + c)) and Σ x_i (y_i − (m x_i + c)) in the raw sums. *)
Lemma total_residuals (x y : list Qc) (m c : Qc) :
  length x = length y →
  total (zip_with Qcminus y (linear x m c)) = total y - m * total x - count x * c.
Proof.
  unfold linear.
  revert y; induction x as [|a x IH]; intros [|b y] Hlen; try discriminate.
  - cbn. change (count []) with (Qc_of_Z 0). rewrite Z2Qc_inj_0. ring.
  - cbn [fmap list_fmap zip_with total]. rewrite IH by (cbn in Hlen; lia).
    rewrite count_cons. cbn [aadd amul exact]. ring.
Qed.

Lemma total_weighted_residuals (x y : list Qc) (m c : Qc) :
  length x = length y →
  total (zip_with Qcmult x (zip_with Qcminus y (linear x m c)))
  = total (products x y) - m * total (products x x) - c * total x.
Proof.
  unfold linear, products.
  revert y; induction x as [|a x IH]; intros [|b y] Hlen; try discriminate.
  - cbn. ring.
  - cbn [fmap list_fmap zip zip_with total fst snd]. rewrite IH by (cbn in Hlen; lia).
    cbn [aadd amul exact]. ring.
Qed.

Lemma squared_error_expand (x y : list Qc) (m c : Qc) :
  length x = length y →
  squared_error x y m c
  = total (products y y) - 2 * m * total (products x y) - 2 * c * total y
    + m * m * total (products x x) + 2 * m * c * total x + count x * c * c.
Proof.
  unfold squared_error, square, sq, linear, products.
  revert y; induction x as [|a x IH]; intros [|b y] Hlen; try discriminate.
  - cbn. change (count []) with (Qc_of_Z 0). rewrite Z2Qc_inj_0. ring.
  - cbn [fmap list_fmap zip zip_with total fst snd]. rewrite IH by (cbn in Hlen; lia).
    rewrite count_cons. cbn [aadd amul exact]. ring.
Qed.

(** The excess of the error of any line over the error of the line that
    solves the normal equations. *)
Lemma error_excess (n Sx Sy Sxx Sxy Syy m c β α : Qc) :
  n ≠ 0 →
  α = Sy / n - β * (Sx / n) →
  β * (Sxx - Sx / n * Sx - Sx / n * Sx + n * (Sx / n) * (Sx / n))
  = Sxy - Sx / n * Sy - Sy / n * Sx + n * (Sx / n) * (Sy / n) →
  (Syy - 2 * m * Sxy - 2 * c * Sy + m * m * Sxx + 2 * m * c * Sx + n * c * c)
  - (Syy - 2 * β * Sxy - 2 * α * Sy + β * β * Sxx + 2 * β * α * Sx + n * α * α)
  = n * ((c - α + (m - β) * (Sx / n)) * (c - α + (m - β) * (Sx / n)))
    + (Sxx - Sx / n * Sx - Sx / n * Sx + n * (Sx / n) * (Sx / n)) * ((m - β) * (m - β)).
Proof.
  intros Hn -> Hβ.
  assert (HSxy : Sxy = β * (Sxx - Sx / n * Sx - Sx / n * Sx + n * (Sx / n) * (Sx / n))
                       + Sx / n * Sy + Sy / n * Sx - n * (Sx / n) * (Sy / n)).
  { rewrite Hβ. ring. }
  rewrite HSxy. field. done.
Qed.

(** What [stable] returns solves the normal equations. *)
Lemma stable_normal (x y : list Qc) :
  length x = length y → two_distinct x →
  (stable x y).2 = total y / count x - (stable x y).1 * (total x / count x)
  ∧ (stable x y).1
    * (total (products x x) - total x / count x * total x - total x / count x * total x
       + count x * (total x / count x) * (total x / count x))
    = total (products x y) - total x / count x * total y - total y / count x * total x
      + count x * (total x / count x) * (total y / count x).
Proof.
  intros Hlen Hdist.
  pose proof (centred_squares_nonzero x (mean x) Hdist) as Hden.
  unfold stable. cbn [fst snd].
  rewrite total_centred_products by done.
  rewrite total_centred_squares in *.
  unfold mean in *. rewrite <- (count_eq x y) by done.
  split; [reflexivity|].
  set (D := total (products x x) - _ - _ + _) in *.
  pose proof (count_nonzero x (two_distinct_nonempty x Hdist)) as Hn.
  field. by split.
Qed.

Lemma centred_squares_pos (x : list Qc) (c : Qc) :
  two_distinct x → 0 < total ((λ a, (a - c) * (a - c)) <$> x).
Proof.
  intros Hdist.
  destruct (Qcle_lt_or_eq _ _ (total_squares_nonneg (λ a, a - c) x)) as [Hpos | Hz]; [done|].
  by destruct (centred_squares_nonzero x c Hdist).
Qed.

Lemma nonneg_sum_zero (a b : Qc) : 0 ≤ a → 0 ≤ b → a + b = 0 → a = 0 ∧ b = 0.
Proof.
  intros Ha Hb Hab.
  assert (Ha0 : a = 0).
  { apply Qcle_antisym; [|done].
    rewrite <- Hab. rewrite <- (Qcplus_0_r a) at 1. by apply Qcplus_le_mono_l. }
  split; [done|]. rewrite Ha0 in Hab. by rewrite Qcplus_0_l in Hab.
Qed.

Lemma square_zero (a : Qc) : a * a = 0 → a = 0.
Proof. intros Ha. by destruct (Qcmult_integral _ _ Ha). Qed.

(** X1. Least squares.  On a sample with two distinct abscissae, in exact
    arithmetic, [LinearFit] and [LinearFit2] return the same pair
    (β, α), and the line [linear x β α] has the least sum of squared
    deviations from the ordinates among all lines: no line does better,
    and a line that does as well is that line. *)
Theorem fit_is_least_squares (x y : list Qc) :
  length x = length y → two_distinct x →
  ∃ β α, LinearFit x y = Ok (β, α) ∧ LinearFit2 x y = Ok (β, α)
    ∧ ∀ m c, squared_error x y β α ≤ squared_error x y m c
             ∧ (squared_error x y m c = squared_error x y β α → m = β ∧ c = α).
Proof.
  intros Hlen Hdist.
  exists (stable x y).1, (stable x y).2.
  split; [rewrite LinearFit_exact, naive_eq_stable by done; by destruct (stable x y)|].
  split; [rewrite LinearFit2_exact by done; by destruct (stable x y)|].
  intros m c.
  pose proof (two_distinct_nonempty x Hdist) as Hx.
  pose proof (count_nonzero x Hx) as Hn.
  pose proof (count_pos x Hx) as Hnpos.
  pose proof (centred_squares_pos x (mean x) Hdist) as HD.
  rewrite total_centred_squares in HD. unfold mean in HD.
  destruct (stable_normal x y Hlen Hdist) as [Hα Hβ].
  pose proof (error_excess (count x) (total x) (total y) (total (products x x))
                (total (products x y)) (total (products y y)) m c
                (stable x y).1 (stable x y).2 Hn Hα Hβ) as Hex.
  rewrite !squared_error_expand by done.
  set (Em := total (products y y) - 2 * m * _ - _ + _ + _ + _) in *.
  set (Eβ := total (products y y) - 2 * (stable x y).1 * _ - _ + _ + _ + _) in *.
  set (w := c - (stable x y).2 + (m - (stable x y).1) * (total x / count x)) in *.
  set (u := m - (stable x y).1) in *.
  set (D := total (products x x) - _ - _ + _) in *.
  assert (Hw : 0 ≤ count x * (w * w)).
  { apply Qcmult_nonneg_nonneg; [by apply Qclt_le_weak | apply Qc_square_nonneg]. }
  assert (Hu : 0 ≤ D * (u * u)).
  { apply Qcmult_nonneg_nonneg; [by apply Qclt_le_weak | apply Qc_square_nonneg]. }
  split.
  - apply Qcle_minus_iff. change (0 ≤ Em - Eβ). rewrite Hex.
    by apply Qcplus_nonneg_nonneg.
  - intros Heq.
    assert (Hz : count x * (w * w) + D * (u * u) = 0).
    { rewrite <- Hex, Heq. ring. }
    destruct (nonneg_sum_zero _ _ Hw Hu Hz) as [Hw0 Hu0].
    assert (Hu' : u = 0).
    { apply square_zero. apply (Qcmult_integral_l D); [|done].
      intros HD0. rewrite HD0 in HD. by apply Qclt_not_le in HD. }
    assert (Hw' : w = 0).
    { apply square_zero. by apply (Qcmult_integral_l (count x)). }
    assert (Hm : m = (stable x y).1).
    { replace m with (u + (stable x y).1) by (subst u; ring). rewrite Hu'. ring. }
    split; [done|].
    replace c with (w - u * (total x / count x) + (stable x y).2) by (subst w u; ring).
    rewrite Hu', Hw'. ring.
Qed.

Lemma fit_is_least_squares_witness :
  ∃ β α, LinearFit [0; 1; 2] [1; 0; 2] = Ok (β, α)
         ∧ LinearFit2 [0; 1; 2] [1; 0; 2] = Ok (β, α)
         ∧ ∀ m c, squared_error [0; 1; 2] [1; 0; 2] β α
                  ≤ squared_error [0; 1; 2] [1; 0; 2] m c
                  ∧ (squared_error [0; 1; 2] [1; 0; 2] m c
                     = squared_error [0; 1; 2] [1; 0; 2] β α → m = β ∧ c = α).
Proof.
  apply (fit_is_least_squares [0; 1; 2] [1; 0; 2]); [reflexivity|].
  exists 0, 1. repeat split; [set_solver | set_solver |].
  intros Heq. by apply Q_apart_0_1.
Defined.

(** X2. The normal equations.  On a sample with two distinct abscissae,
    in exact arithmetic, the deviations of the ordinates from the fitted
    line sum to zero, they are orthogonal to the abscissae, and the line
    passes through the point of the two means. *)
Theorem fit_normal_equations (x y : list Qc) :
  length x = length y → two_distinct x →
  ∃ β α, LinearFit x y = Ok (β, α) ∧ LinearFit2 x y = Ok (β, α)
         ∧ total (zip_with Qcminus y (linear x β α)) = 0
         ∧ total (zip_with Qcmult x (zip_with Qcminus y (linear x β α))) = 0
         ∧ β * mean x + α = mean y.
Proof.
  intros Hlen Hdist.
  pose proof (count_nonzero x (two_distinct_nonempty x Hdist)) as Hn.
  destruct (stable_normal x y Hlen Hdist) as [Hα Hβ].
  exists (stable x y).1, (stable x y).2.
  split; [rewrite LinearFit_exact, naive_eq_stable by done; by destruct (stable x y)|].
  split; [rewrite LinearFit2_exact by done; by destruct (stable x y)|].
  split; [|split].
  - rewrite total_residuals, Hα by done. field. done.
  - rewrite total_weighted_residuals by done.
    assert (HSxy : total (products x y)
                   = (stable x y).1
                     * (total (products x x) - total x / count x * total x
                        - total x / count x * total x
                        + count x * (total x / count x) * (total x / count x))
                     + total x / count x * total y + total y / count x * total x
                     - count x * (total x / count x) * (total y / count x)).
    { rewrite Hβ. ring. }
    rewrite HSxy, Hα. field. done.
  - rewrite Hα. unfold mean. rewrite <- (count_eq x y) by done. ring.
Qed.

Lemma fit_normal_equations_witness :
  ∃ β α, LinearFit [0; 1; 2] [1; 0; 2] = Ok (β, α)
         ∧ LinearFit2 [0; 1; 2] [1; 0; 2] = Ok (β, α)
         ∧ total (zip_with Qcminus [1; 0; 2] (linear [0; 1; 2] β α)) = 0
         ∧ total (zip_with Qcmult [0; 1; 2]
                    (zip_with Qcminus [1; 0; 2] (linear [0; 1; 2] β α))) = 0
         ∧ β * mean [0; 1; 2] + α = mean [1; 0; 2].
Proof.
  apply (fit_normal_equations [0; 1; 2] [1; 0; 2]); [reflexivity|].
  exists 0, 1. repeat split; [set_solver | set_solver |].
  intros Heq. by apply Q_apart_0_1.
Defined.

Lemma total_perm (l k : list Qc) : l ≡ₚ k → total l = total k.
Proof.
  induction 1 as [|a l k _ IH|a b l|l k m _ IH1 _ IH2]; cbn.
  - done.
  - by rewrite IH.
  - ring.
  - by rewrite IH1.
Qed.

(** X3. The order of the points.  In exact arithmetic the two estimators
    depend on the set of points only: listing the same points in another
    order gives the same results. *)
Theorem fit_order_independent (ps ps' : list (Qc * Qc)) :
  ps ≡ₚ ps' →
  LinearFit (ps.*1) (ps.*2) = LinearFit (ps'.*1) (ps'.*2)
  ∧ LinearFit2 (ps.*1) (ps.*2) = LinearFit2 (ps'.*1) (ps'.*2).
Proof.
  intros Hperm.
  assert (Hlen : ∀ qs : list (Qc * Qc), length (qs.*1) = length (qs.*2))
    by (intros qs; by rewrite !length_fmap).
  assert (Hmean1 : mean (ps.*1) = mean (ps'.*1)).
  { unfold mean, count. by rewrite (total_perm _ _ (fmap_Permutation fst _ _ Hperm)),
      !length_fmap, (Permutation_length Hperm). }
  assert (Hmean2 : mean (ps.*2) = mean (ps'.*2)).
  { unfold mean, count. by rewrite (total_perm _ _ (fmap_Permutation snd _ _ Hperm)),
      !length_fmap, (Permutation_length Hperm). }
  split.
  - rewrite !LinearFit_exact by done. f_equal. unfold naive.
    rewrite Hmean1, Hmean2.
    assert (Hxy : mean_products (zip (ps.*1) (ps.*2)) = mean_products (zip (ps'.*1) (ps'.*2))).
    { unfold mean_products. rewrite !zip_fst_snd.
      by rewrite (total_perm _ _ (fmap_Permutation _ _ _ Hperm)), (Permutation_length Hperm). }
    assert (Hxx : mean_products (zip (ps.*1) (ps.*1)) = mean_products (zip (ps'.*1) (ps'.*1))).
    { unfold mean_products.
      assert (Hz : ∀ qs : list (Qc * Qc),
                (λ p : Qc * Qc, p.1 * p.2) <$> zip (qs.*1) (qs.*1)
                = (λ p : Qc * Qc, p.1 * p.1) <$> qs).
      { intros qs. induction qs as [|q qs IH]; [done|]. cbn. by rewrite <- IH. }
      rewrite !Hz, !length_zip, !length_fmap.
      by rewrite (total_perm _ _ (fmap_Permutation _ _ _ Hperm)), (Permutation_length Hperm). }
    by rewrite Hxy, Hxx.
  - rewrite !LinearFit2_exact by done. f_equal. unfold stable.
    rewrite Hmean1, Hmean2, !zip_fst_snd.
    rewrite <- !list_fmap_compose.
    by rewrite (total_perm _ _ (fmap_Permutation _ _ _ Hperm)),
      (total_perm _ _ (fmap_Permutation (_ ∘ fst) _ _ Hperm)).
Qed.

Lemma fit_order_independent_witness :
  LinearFit ([(0, 1); (1, 0)].*1) ([(0, 1); (1, 0)].*2)
  = LinearFit ([(1, 0); (0, 1)].*1) ([(1, 0); (0, 1)].*2)
  ∧ LinearFit2 ([(0, 1); (1, 0)].*1) ([(0, 1); (1, 0)].*2)
    = LinearFit2 ([(1, 0); (0, 1)].*1) ([(1, 0); (0, 1)].*2).
Proof. apply (fit_order_independent [(0, 1); (1, 0)] [(1, 0); (0, 1)]). apply perm_swap. Defined.

End LeastSquares.

(** ** A line is recovered (exact arithmetic) *)

Section Recovery.
Local Open Scope Qc_scope.
Import Spec.

Lemma total_linear (x : list Qc) (m c : Qc) :
  total (linear x m c) = m * total x + count x * c.
Proof.
  unfold linear. induction x as [|a x IH].
  - cbn. change (count []) with (Qc_of_Z 0). rewrite Z2Qc_inj_0. ring.
  - cbn [fmap list_fmap total]. rewrite IH, count_cons. cbn [aadd amul exact]. ring.
Qed.

Lemma mean_linear (x : list Qc) (m c : Qc) :
  x ≠ [] → mean (linear x m c) = m * mean x + c.
Proof.
  intros Hx. pose proof (count_nonzero x Hx) as Hn. unfold mean.
  rewrite total_linear, (count_eq (linear x m c) x)
    by (unfold linear; by rewrite length_fmap).
  field. done.
Qed.

Lemma centred_products_linear (x : list Qc) (m c d : Qc) :
  total ((λ p, (p.1 - d) * (p.2 - (m * d + c))) <$> zip x (linear x m c))
  = m * total ((λ a, (a - d) * (a - d)) <$> x).
Proof.
  unfold linear. induction x as [|a x IH].
  - cbn. ring.
  - cbn [fmap list_fmap zip zip_with total fst snd] in *. rewrite IH.
    cbn [aadd amul exact]. ring.
Qed.

(** X4. A line is recovered.  In exact arithmetic, when the ordinates lie
    on a line, [y = linear x m c], and the abscissae have two distinct
    values, both estimators return that line: slope [m], intercept [c]. *)
Theorem fit_recovers_line (x : list Qc) (m c : Qc) :
  two_distinct x →
  LinearFit x (linear x m c) = Ok (m, c) ∧ LinearFit2 x (linear x m c) = Ok (m, c).
Proof.
  intros Hdist.
  pose proof (two_distinct_nonempty x Hdist) as Hx.
  pose proof (centred_squares_nonzero x (mean x) Hdist) as Hden.
  assert (Hlen : length x = length (linear x m c))
    by (unfold linear; by rewrite length_fmap).
  assert (Hst : stable x (linear x m c) = (m, c)).
  { unfold stable. rewrite mean_linear, centred_products_linear by done.
    set (S := total _) in *. f_equal; field; done. }
  split.
  - by rewrite LinearFit_exact, naive_eq_stable, Hst.
  - by rewrite LinearFit2_exact, Hst.
Qed.

Lemma fit_recovers_line_witness :
  LinearFit [0; 1; 2] (linear [0; 1; 2] 2 1) = Ok (2, 1)
  ∧ LinearFit2 [0; 1; 2] (linear [0; 1; 2] 2 1) = Ok (2, 1).
Proof.
  apply (fit_recovers_line [0; 1; 2] 2 1).
  exists 0, 1. repeat split; [set_solver | set_solver |].
  intros Heq. by apply Q_apart_0_1.
Defined.
End Recovery.

(** ** Offsets (exact arithmetic) *)

Section Offsets.
Local Open Scope Qc_scope.
Import Spec.

Lemma sub_scalar_scalar_add (x : list Qc) (B : Qc) : sub_scalar x B = scalar_add (- B) x.
Proof.
  unfold sub_scalar, scalar_add. apply list_fmap_ext. intros i a _.
  cbn [aadd asub exact]. ring.
Qed.

(** X5. The two lines of the plot cell.  The cell draws
    [linear(t, *LinearFit(t, ph))] and
    [linear(t-baseline, *LinearFit(t-baseline, ph))].  In exact arithmetic,
    on abscissae with two distinct values, subtracting an offset keeps
    the slope, raises the intercept by slope·offset, and the two lines
    have the same ordinates. *)
Theorem fitted_line_offset (t ph : list Qc) (B : Qc) :
  length t = length ph → two_distinct t →
  ∃ β α, LinearFit t ph = Ok (β, α)
         ∧ LinearFit (sub_scalar t B) ph = Ok (β, α + β * B)
         ∧ linear (sub_scalar t B) β (α + β * B) = linear t β α.
Proof.
  intros Hlen Hdist.
  exists (stable t ph).1, (stable t ph).2. split; [|split].
  - rewrite LinearFit_exact, naive_eq_stable by done. by destruct (stable t ph).
  - rewrite sub_scalar_scalar_add.
    rewrite LinearFit_exact by (unfold scalar_add; by rewrite length_fmap).
    rewrite naive_eq_stable
      by (try apply two_distinct_scalar_add; unfold scalar_add; by rewrite ?length_fmap).
    rewrite stable_scalar_add by by apply two_distinct_nonempty.
    do 2 f_equal. ring.
  - unfold linear, sub_scalar. rewrite <- list_fmap_compose.
    apply list_fmap_ext. intros i a _. cbn. ring.
Qed.

Lemma fitted_line_offset_witness :
  ∃ β α, LinearFit [0; 1; 2] [1; 0; 2] = Ok (β, α)
         ∧ LinearFit (sub_scalar [0; 1; 2] 1) [1; 0; 2] = Ok (β, α + β * 1)
         ∧ linear (sub_scalar [0; 1; 2] 1) β (α + β * 1) = linear [0; 1; 2] β α.
Proof.
  apply (fitted_line_offset [0; 1; 2] [1; 0; 2] 1); [reflexivity|].
  exists 0, 1. repeat split; [set_solver | set_solver |].
  intros Heq. by apply Q_apart_0_1.
Defined.

Lemma total_square_scalar_add (B : Qc) (x : list Qc) :
  total (square (scalar_add B x))
  = count x * (B * B) + 2 * B * total x + total (square x).
Proof.
  unfold square, scalar_add, sq. induction x as [|a x IH].
  - cbn. change (count []) with (Qc_of_Z 0). rewrite Z2Qc_inj_0. ring.
  - cbn [fmap list_fmap total]. rewrite IH, count_cons. cbn [aadd amul exact]. ring.
Qed.

Lemma total_products_scalar_add (B : Qc) (x y : list Qc) :
  length x = length y →
  total (products (scalar_add B x) y) = B * total y + total (products x y).
Proof.
  unfold products, scalar_add.
  revert y; induction x as [|a x IH]; intros [|b y] Hlen; try discriminate.
  - cbn. ring.
  - cbn [fmap list_fmap zip zip_with total fst snd]. rewrite IH by (cbn in Hlen; lia).
    cbn [aadd exact]. ring.
Qed.

Lemma of_count_2 : of_count (A:=Qc) 2 = 2.
Proof. apply Qc_is_canon. reflexivity. Qed.

(** X6. The cell that expands the denominator.  In exact arithmetic the
    two expansions are the two terms of the naive denominator on the
    abscissae with the offset, their difference is [denom], free of the
    offset, and the quotient the cell prints last is the slope
    [LinearFit] returns without the offset. *)
Theorem rearrangement_exact (B : Qc) (x y : list Qc) :
  x ≠ [] → length x = length y →
  x2Mean_expanded B x = np_average (square (scalar_add B x))
  ∧ xMean2_expanded B x = sq (np_average (scalar_add B x))
  ∧ np_average (square (scalar_add B x)) - sq (np_average (scalar_add B x)) = denom x
  ∧ slope_with_denom (scalar_add B x) y x = fst <$> LinearFit x y.
Proof.
  intros Hx Hlen.
  pose proof (count_nonzero x Hx) as Hn.
  assert (Hx2 : x2Mean_expanded B x = np_average (square (scalar_add B x))).
  { unfold x2Mean_expanded. rewrite !np_average_mean, of_count_2. unfold mean.
    rewrite total_square_scalar_add.
    rewrite (count_eq (square (scalar_add B x)) x), (count_eq (square x) x)
      by (unfold square, scalar_add; by rewrite !length_fmap).
    unfold sq. cbn [aadd amul exact]. field. done. }
  assert (Hm2 : xMean2_expanded B x = sq (np_average (scalar_add B x))).
  { unfold xMean2_expanded. rewrite !np_average_mean, of_count_2, mean_scalar_add by done.
    unfold sq. cbn [aadd amul exact]. ring. }
  split; [done|]. split; [done|]. split.
  - rewrite <- Hx2, <- Hm2. unfold x2Mean_expanded, xMean2_expanded, denom.
    cbn [aadd asub amul exact]. ring.
  - unfold slope_with_denom, LinearFit.
    rewrite !multiply_same_length by (unfold scalar_add; by rewrite ?length_fmap).
    cbn [mbind result_bind fmap result_fmap fst]. f_equal. unfold denom.
    cbn [aadd asub amul adiv exact]. f_equal.
    rewrite !zip_with_products, !np_average_mean, mean_scalar_add by done.
    unfold mean. rewrite total_products_scalar_add by done.
    rewrite (count_eq (products (scalar_add B x) y) x), (count_eq (products x y) x),
      <- (count_eq x y)
      by (rewrite ?length_products; unfold scalar_add; by rewrite ?length_fmap).
    field. done.
Qed.

Lemma rearrangement_exact_witness :
  x2Mean_expanded 1 [0; 1; 2] = np_average (square (scalar_add 1 [0; 1; 2]))
  ∧ xMean2_expanded 1 [0; 1; 2] = sq (np_average (scalar_add 1 [0; 1; 2]))
  ∧ np_average (square (scalar_add 1 [0; 1; 2]))
    - sq (np_average (scalar_add 1 [0; 1; 2])) = denom [0; 1; 2]
  ∧ slope_with_denom (scalar_add 1 [0; 1; 2]) [1; 0; 2] [0; 1; 2]
    = fst <$> LinearFit [0; 1; 2] [1; 0; 2].
Proof. apply (rearrangement_exact 1 [0; 1; 2] [1; 0; 2]); [done | reflexivity]. Defined.

(** X7. A one-element [y].  The estimators do not insist on equal
    lengths: an array [y] of one element is broadcast against [x].  In
    exact arithmetic, on abscissae with two distinct values, both then
    return the horizontal line through that element. *)
Theorem fit_broadcast_constant (x : list Qc) (b : Qc) :
  two_distinct x →
  LinearFit x [b] = Ok (0, b) ∧ LinearFit2 x [b] = Ok (0, b).
Proof.
  intros Hdist.
  pose proof (two_distinct_length x Hdist) as Hlen.
  pose proof (count_nonzero x (two_distinct_nonempty x Hdist)) as Hn.
  assert (Hmul : ∀ (u : list Qc) (c : Qc), length u = length x →
            multiply u [c] = Ok ((λ a, a * c) <$> u)).
  { intros u c Hu. unfold multiply. rewrite decide_False by (cbn; lia).
    destruct u as [|u1 [|u2 u]]; cbn in Hu; try lia; reflexivity. }
  assert (Hb : np_average [b] = b).
  { rewrite np_average_mean. unfold mean. change (count [b]) with (Qc_of_Z 1).
    rewrite Z2Qc_inj_1. cbn [total]. field. done. }
  assert (Htot : ∀ (u : list Qc) (c : Qc), total ((λ a, a * c) <$> u) = c * total u).
  { intros u c. induction u as [|a u IH]; cbn; [ring | rewrite IH; ring]. }
  assert (HN : np_average ((λ a, a * b) <$> x) - np_average x * b = 0).
  { rewrite !np_average_mean. unfold mean.
    rewrite Htot, (count_eq (_ <$> x) x) by by rewrite length_fmap.
    field. done. }
  split.
  - unfold LinearFit. rewrite Hmul by done. cbn [mbind result_bind].
    rewrite Hb. cbn [asub amul adiv exact]. rewrite HN.
    f_equal. f_equal; unfold Qcdiv; ring.
  - unfold LinearFit2. rewrite Hb.
    replace (sub_scalar [b] b) with [0 : Qc]
      by (unfold sub_scalar; cbn; f_equal; ring).
    rewrite Hmul by (unfold sub_scalar; by rewrite length_fmap).
    cbn [mbind result_bind]. rewrite np_sum_total, Htot.
    cbn [asub amul adiv exact]. f_equal. f_equal.
    + unfold Qcdiv. ring.
    + unfold Qcdiv. ring.
Qed.

Lemma fit_broadcast_constant_witness :
  LinearFit [0; 1] [2] = Ok (0, 2) ∧ LinearFit2 [0; 1] [2] = Ok (0, 2).
Proof.
  apply (fit_broadcast_constant [0; 1] 2).
  exists 0, 1. repeat split; [set_solver | set_solver |].
  intros Heq. by apply Q_apart_0_1.
Defined.
End Offsets.

(** ** Shapes that do not fit *)

Section ShapeErrors.
Context {A : Type} `{Arith A}.

Lemma multiply_raise (x y : list A) (e : exn) :
  multiply x y = Raise e ↔
  e = ValueError ∧ length x ≠ length y ∧ length x ≠ 1 ∧ length y ≠ 1.
Proof.
  unfold multiply. case_decide as Hlen.
  - split; [done | intros (_ & ? & _); done].
  - destruct x as [|a [|a' x]], y as [|b [|b' y]]; cbn in *;
      (split; [intros [= <-] || intros [=]; repeat split; lia || done
              | intros (-> & ? & ? & ?); done || lia]).
Qed.

Lemma bind_raise_iff {X Y} (r : result X) (k : X → result Y) (e : exn) :
  (∀ v, k v ≠ Raise e) → (r ≫= k) = Raise e ↔ r = Raise e.
Proof.
  intros Hk. destruct r as [v | e']; cbn; [|split; by intros [= ->]].
  split; [by intros ?%Hk | done].
Qed.

(** X8. Shape errors.  [LinearFit] and [LinearFit2] raise exactly when
    the lengths of [x] and [y] differ and neither is 1, and what they
    raise is then a [ValueError]; for any other pair of lengths they
    return a result. *)
Theorem fit_shape_error (x y : list A) (e : exn) :
  (LinearFit x y = Raise e ↔
     e = ValueError ∧ length x ≠ length y ∧ length x ≠ 1 ∧ length y ≠ 1)
  ∧ (LinearFit2 x y = Raise e ↔
       e = ValueError ∧ length x ≠ length y ∧ length x ≠ 1 ∧ length y ≠ 1).
Proof.
  split.
  - unfold LinearFit. rewrite bind_raise_iff by done. apply multiply_raise.
  - unfold LinearFit2. rewrite bind_raise_iff by done.
    rewrite multiply_raise. unfold sub_scalar. by rewrite !length_fmap.
Qed.
End ShapeErrors.


(** ** Binary64: a NaN in the data *)

Section NaN.
Local Open Scope float_scope.

(** X9. A NaN in the data.  In binary64, when [x] and [y] have one length
    and one of their elements is a NaN, both estimators return NaN as
    slope and as intercept, and raise nothing. *)
Theorem fit_nan_propagates (x y : list float) :
  length x = length y → nan ∈ x ∨ nan ∈ y →
  LinearFit x y = Ok (nan, nan) ∧ LinearFit2 x y = Ok (nan, nan).
Proof.
  intros Hlen Hnan. split.
  - unfold LinearFit. rewrite multiply_same_length by done. cbn [mbind result_bind].
    cbn [asub amul adiv binary64]. destruct Hnan as [Hx | Hy].
    + rewrite (np_average_nan x) by done. unfold sq. cbn [amul binary64].
      by nan_absorb.
    + rewrite (np_average_nan y) by done.
      by nan_absorb.
  - unfold LinearFit2.
    rewrite multiply_same_length by (unfold sub_scalar; by rewrite !length_fmap).
    cbn [mbind result_bind]. cbn [asub amul adiv binary64]. destruct Hnan as [Hx | Hy].
    + rewrite (np_average_nan x) by done.
      assert (Hden : np_sum (square (sub_scalar x nan)) = nan).
      { apply np_sum_nan. unfold square, sub_scalar. rewrite <- list_fmap_compose.
        apply list_elem_of_fmap. exists nan. split; [|done].
        cbn. unfold sq. cbn [asub amul binary64]. by nan_absorb. }
      rewrite Hden. by nan_absorb.
    + rewrite (np_average_nan y) by done.
      assert (Hnum : np_sum (zip_with PrimFloat.mul (sub_scalar x (np_average x))
                               (sub_scalar y nan))
                     = nan).
      { apply np_sum_nan.
        apply list_elem_of_lookup in Hy as [i Hi].
        destruct (lookup_lt_is_Some_2 x i) as [a Ha].
        { rewrite Hlen. by eapply lookup_lt_Some. }
        apply elem_of_lookup_zip_with.
        exists i, (a - np_average x), nan. unfold sub_scalar.
        rewrite !list_lookup_fmap, Ha, Hi. cbn [fmap option_fmap option_map].
        cbn [asub amul binary64]. split; [by nan_absorb|]. split; [done|].
        by nan_absorb. }
      rewrite Hnum. by nan_absorb.
Qed.

Lemma fit_nan_propagates_witness :
  LinearFit [nan; 1] [1; 2] = Ok (nan, nan) ∧ LinearFit2 [nan; 1] [1; 2] = Ok (nan, nan).
Proof.
  apply (fit_nan_propagates [nan; 1] [1; 2]); [reflexivity|].
  left. apply list_elem_of_here.
Defined.
End NaN.

(** ** The variable-scope notebook: an array too short for [e[2]] *)

Section ScopeEdges.
Context {A : Type} (of_int : Z → A).
Implicit Types (σ : Store.state A) (a : list A) (e : Store.loc).
Import StoreFacts.

Lemma function4_short σ e a :
  Store.heap σ !! e = Some a → length a ≤ 2 →
  Store.function4 of_int e σ
  = (Raise IndexError,
     Store.State (Store.heap σ)
       (Store.stdout σ ++
        [Store.Formatted " Inside the function, we receive an argument with value {0}" a])).
Proof.
  intros He Hlen. unfold Store.function4.
  rewrite (bind_ok _ _ _ _ _ (print_format_run _ _ _ _ He)).
  set (σ1 := Store.State _ _).
  by rewrite (bind_raise _ _ _ _ _ (setitem_out_of_range σ1 e a 2 _ He Hlen)).
Qed.

Lemma function4_dangling σ e :
  Store.heap σ !! e = None → Store.function4 of_int e σ = (Raise NameError, σ).
Proof.
  intros He. unfold Store.function4, Store.print_format.
  apply bind_raise, bind_raise. unfold Store.load. by rewrite He.
Qed.

Lemma function4_safe_run σ e a :
  Store.heap σ !! e = Some a → 2 < length a →
  Store.function4_safe of_int e σ
  = (Ok (),
     Store.State (<[fresh (dom (Store.heap σ)) := <[2 := of_int 1]> a]> (Store.heap σ))
       (Store.stdout σ ++
        [Store.Formatted " Inside the function, we receive an argument with value {0}" a;
         Store.Formatted " We set one element to zero - now, inside the function, e={0}"
           (<[2 := of_int 1]> a)])).
Proof.
  intros He Hlen. unfold Store.function4_safe, Store.copy.
  rewrite (bind_ok _ _ _ _ _ (bind_ok _ _ _ _ _ (load_run _ _ _ He))).
  set (e' := fresh _). set (σ1 := Store.State _ _).
  assert (He' : Store.heap σ1 !! e' = Some a) by apply lookup_insert_eq.
  rewrite (bind_ok _ _ _ _ _ (print_format_run _ _ _ _ He')).
  set (σ2 := Store.State _ _).
  rewrite (bind_ok _ _ _ _ _ (setitem_run σ2 e' a 2 _ He' Hlen)).
  rewrite (print_format_run _ _ e' (<[2 := of_int 1]> a)).
  - subst σ2 σ1. cbn [Store.heap Store.stdout].
    by rewrite insert_insert_eq, <- (assoc_L (++)).
  - cbn [Store.heap]. apply lookup_insert_eq.
Qed.

Lemma function4_safe_short σ e a :
  Store.heap σ !! e = Some a → length a ≤ 2 →
  Store.function4_safe of_int e σ
  = (Raise IndexError,
     Store.State (<[fresh (dom (Store.heap σ)) := a]> (Store.heap σ))
       (Store.stdout σ ++
        [Store.Formatted " Inside the function, we receive an argument with value {0}" a])).
Proof.
  intros He Hlen. unfold Store.function4_safe, Store.copy.
  rewrite (bind_ok _ _ _ _ _ (bind_ok _ _ _ _ _ (load_run _ _ _ He))).
  set (e' := fresh _). set (σ1 := Store.State _ _).
  assert (He' : Store.heap σ1 !! e' = Some a) by apply lookup_insert_eq.
  rewrite (bind_ok _ _ _ _ _ (print_format_run _ _ _ _ He')).
  set (σ2 := Store.State _ _).
  by rewrite (bind_raise _ _ _ _ _ (setitem_out_of_range σ2 e' a 2 _ He' Hlen)).
Qed.

Lemma function4_safe_dangling σ e :
  Store.heap σ !! e = None → Store.function4_safe of_int e σ = (Raise NameError, σ).
Proof.
  intros He. unfold Store.function4_safe, Store.copy.
  apply bind_raise, bind_raise. unfold Store.load. by rewrite He.
Qed.
(** X10. An array without an index 2.  On an array of fewer than three
    elements [function4] prints its first line and then raises
    [IndexError], leaving the array as it was; [function4_safe] raises the
    same error after the same line and leaves the caller's array as it
    was. *)
Theorem function4_index_error (σ : Store.state A) (e : Store.loc) (a : list A) :
  Store.heap σ !! e = Some a → length a ≤ 2 →
  Store.function4 of_int e σ
  = (Raise IndexError,
     Store.State (Store.heap σ)
       (Store.stdout σ ++
        [Store.Formatted " Inside the function, we receive an argument with value {0}" a]))
  ∧ ∃ σ', Store.function4_safe of_int e σ = (Raise IndexError, σ')
          ∧ Store.heap σ ⊆ Store.heap σ'
          ∧ Store.heap σ' !! e = Some a
          ∧ Store.stdout σ'
            = Store.stdout σ ++
              [Store.Formatted " Inside the function, we receive an argument with value {0}" a].
Proof.
  intros He Hlen. split; [by apply function4_short|].
  eexists. split; [by apply function4_safe_short|].
  cbn [Store.heap Store.stdout].
  assert (Hnew : Store.heap σ !! fresh (dom (Store.heap σ)) = None)
    by apply not_elem_of_dom, is_fresh.
  split; [by apply insert_subseteq|]. split; [|done].
  rewrite lookup_insert_ne; [done|]. intros Heq. rewrite Heq in Hnew. congruence.
Qed.
End ScopeEdges.

Lemma function4_index_error_witness :
  Store.function4 id 1%positive (Store.State {[ 1%positive := [1; 2]%Z ]} [])
  = (Raise IndexError,
     Store.State {[ 1%positive := [1; 2]%Z ]}
       [Store.Formatted " Inside the function, we receive an argument with value {0}"
          [1; 2]%Z]).
Proof.
  refine (proj1 (function4_index_error id (Store.State {[ 1%positive := [1; 2]%Z ]} [])
                   1%positive [1; 2]%Z _ _)); [reflexivity | cbn; lia].
Defined.

(** ** Names and scopes: how the programs run *)

Module ScopeFacts.
Implicit Types (σ : Scope.state) (x : string) (v : Scope.value) (l : Store.loc)
  (a : list Z).

Lemma bind_return {X Y} (m : Scope.prog X) (k : X → Scope.prog Y) σ r σ' :
  m σ = (Scope.Return r, σ') → (m ≫= k) σ = k r σ'.
Proof. intros Hm. unfold mbind, Scope.prog_bind. by rewrite Hm. Qed.

Lemma bind_throw {X Y} (m : Scope.prog X) (k : X → Scope.prog Y) σ e σ' :
  m σ = (Scope.Throw e, σ') → (m ≫= k) σ = (Scope.Throw e, σ').
Proof. intros Hm. unfold mbind, Scope.prog_bind. by rewrite Hm. Qed.

Ltac step := erewrite bind_return by reflexivity.
Ltac fields :=
  cbn [Scope.globals Scope.frames Scope.store Scope.heap Scope.stdout
       Store.heap Store.stdout].

(** A name the running frame does not bind is read among the globals. *)
Lemma lookup_global σ x :
  head (Scope.frames σ) ≫= (.!! x) = None →
  Scope.lookup x σ
  = match Scope.globals σ !! x with
    | Some v => (Scope.Return v, σ)
    | None => (Scope.Throw (Scope.Builtin NameError), σ)
    end.
Proof. intros Hx. unfold Scope.lookup. by rewrite Hx. Qed.

Lemma show_ref σ l :
  Scope.show (Scope.Ref l) σ
  = match Scope.heap σ !! l with
    | Some a => (Scope.Return a, σ)
    | None => (Scope.Throw (Scope.Builtin NameError), σ)
    end.
Proof.
  destruct σ as [g fs [h o]]. unfold Scope.show, Scope.lift, Store.load, Scope.heap.
  cbn [Scope.store Store.heap]. by destruct (h !! l).
Qed.

Lemma shows_one σ x v a :
  Scope.lookup x σ = (Scope.Return v, σ) →
  Scope.show v σ = (Scope.Return a, σ) →
  Scope.shows [x] σ = (Scope.Return a, σ).
Proof.
  intros Hx Hv. cbn [Scope.shows].
  rewrite (bind_return _ _ _ _ _ Hx), (bind_return _ _ _ _ _ Hv).
  step. unfold mret, Scope.prog_ret. by rewrite app_nil_r.
Qed.

Lemma print_format_one σ (s : string) x v a :
  Scope.lookup x σ = (Scope.Return v, σ) →
  Scope.show v σ = (Scope.Return a, σ) →
  Scope.print_format s [x] σ = (Scope.Return (), Scope.printed σ [Store.Formatted s a]).
Proof.
  intros Hx Hv. unfold Scope.print_format.
  by rewrite (bind_return _ _ _ _ _ (shows_one _ _ _ _ Hx Hv)).
Qed.

Lemma print_format_fails σ (s : string) x v e :
  Scope.lookup x σ = (Scope.Return v, σ) →
  Scope.show v σ = (Scope.Throw e, σ) →
  Scope.print_format s [x] σ = (Scope.Throw e, σ).
Proof.
  intros Hx Hv. unfold Scope.print_format. cbn [Scope.shows].
  apply bind_throw. rewrite (bind_return _ _ _ _ _ Hx).
  by apply bind_throw.
Qed.

Lemma print_text_run σ (s : string) :
  Scope.print_text s σ = (Scope.Return (), Scope.printed σ [Store.Text s]).
Proof. reflexivity. Qed.

Lemma printed_printed σ (o o' : list (Store.out Z)) :
  Scope.printed (Scope.printed σ o) o' = Scope.printed σ (o ++ o').
Proof. unfold Scope.printed. fields. by rewrite <- (assoc_L (++)). Qed.

Ltac enter_call :=
  unfold Scope.call at 1;
  cbn [Scope.params Scope.body Scope.function1 Scope.function2 Scope.function3
       Scope.function4 Scope.function4_safe length];
  rewrite decide_True by done;
  cbn [zip zip_with list_to_map foldr uncurry fst snd]; fields.


Lemma lookup_top σ x v :
  Scope.frames σ = [] → Scope.globals σ !! x = Some v →
  Scope.lookup x σ = (Scope.Return v, σ).
Proof. intros Hf Hx. rewrite lookup_global by by rewrite Hf. by rewrite Hx. Qed.

Lemma show_ref_ok σ l a :
  Scope.heap σ !! l = Some a → Scope.show (Scope.Ref l) σ = (Scope.Return a, σ).
Proof. intros Hl. by rewrite show_ref, Hl. Qed.

Lemma setitem_ok σ x l a (i : nat) (z : Z) :
  Scope.lookup x σ = (Scope.Return (Scope.Ref l), σ) →
  Scope.heap σ !! l = Some a → i < length a →
  Scope.setitem x i z σ
  = (Scope.Return (),
     Scope.State (Scope.globals σ) (Scope.frames σ)
       (Store.State (<[l := <[i := z]> a]> (Scope.heap σ)) (Scope.stdout σ))).
Proof.
  intros Hx Hl Hi. unfold Scope.setitem. rewrite (bind_return _ _ _ _ _ Hx).
  unfold Scope.lift. by rewrite (StoreFacts.setitem_run _ l a i z Hl Hi).
Qed.

Lemma setitem_index_error σ x l a (i : nat) (z : Z) :
  Scope.lookup x σ = (Scope.Return (Scope.Ref l), σ) →
  Scope.heap σ !! l = Some a → length a ≤ i →
  Scope.setitem x i z σ = (Scope.Throw (Scope.Builtin IndexError), σ).
Proof.
  intros Hx Hl Hi. unfold Scope.setitem. rewrite (bind_return _ _ _ _ _ Hx).
  unfold Scope.lift. rewrite (StoreFacts.setitem_out_of_range _ l a i z Hl Hi).
  by destruct σ.
Qed.

Lemma function1_run σ :
  Scope.call Scope.function1 [] σ
  = (Scope.Return (),
     Scope.printed σ
       [Store.Formatted
          " Inside the function, we can use variables b and c. They have values of {0} and {1}"
          [10; 11]%Z]).
Proof.
  destruct σ as [g fs [h o]]. enter_call.
  do 2 step. unfold Scope.print_format. cbn [Scope.shows]. step.
  reflexivity.
Qed.

Lemma function2_run σ v a :
  Scope.show v σ = (Scope.Return a, σ) →
  Scope.call Scope.function2 [v] σ
  = (Scope.Return (),
     Scope.printed σ
       [Store.Formatted " Inside the function, we receive an argument with value {0}" a;
        Store.Formatted " We set it to a new value - now, inside the function, c={0}" [0%Z]]).
Proof.
  intros Hv. destruct σ as [g fs [h o]]. enter_call.
  set (σ1 := Scope.State _ _ _).
  assert (Hshow : Scope.show v σ1 = (Scope.Return a, σ1)).
  { destruct v as [z | l]; [by injection Hv as <- | ].
    rewrite show_ref in Hv |- *. subst σ1. fields.
    unfold Scope.heap in Hv. cbn [Scope.store Store.heap] in Hv.
    destruct (h !! l); by simplify_eq. }
  rewrite (bind_return _ _ _ _ _ (print_format_one σ1 _ "c" v a eq_refl Hshow)).
  step. unfold Scope.print_format. cbn [Scope.shows]. step.
  subst σ1. unfold Scope.printed, Scope.lift. fields. cbn [Store.print]. fields.
  cbn [tail]. by rewrite <- (assoc_L (++)).
Qed.

Lemma function3_run σ :
  Scope.call Scope.function3 [] σ
  = match Scope.globals σ !! "d" with
    | Some v =>
        match Scope.show v σ with
        | (Scope.Return a, _) =>
            (Scope.Return (),
             Scope.printed σ
               [Store.Formatted
                  " Inside the function, we can actually access d. It has value {0}" a])
        | (Scope.Throw e, _) => (Scope.Throw e, σ)
        end
    | None => (Scope.Throw (Scope.Builtin NameError), σ)
    end.
Proof.
  destruct σ as [g fs [h o]]. enter_call.
  set (σ1 := Scope.State _ _ _).
  assert (Hlook : Scope.lookup "d" σ1
                  = match g !! "d" with
                    | Some v => (Scope.Return v, σ1)
                    | None => (Scope.Throw (Scope.Builtin NameError), σ1)
                    end) by by rewrite lookup_global.
  destruct (g !! "d") as [v|].
  - destruct v as [z | l].
    + rewrite (print_format_one σ1 _ "d" (Scope.Int z) [z] Hlook eq_refl). done.
    + rewrite !show_ref. unfold Scope.heap. fields. cbn [Scope.store Store.heap].
      destruct (h !! l) as [a|] eqn:Hl.
      * rewrite (print_format_one σ1 _ "d" (Scope.Ref l) a Hlook); [done|].
        by apply show_ref_ok.
      * rewrite (print_format_fails σ1 _ "d" (Scope.Ref l) (Scope.Builtin NameError) Hlook);
          [done|]. rewrite show_ref. unfold Scope.heap. subst σ1. fields.
        cbn [Scope.store Store.heap]. by rewrite Hl.
  - unfold Scope.print_format. cbn [Scope.shows].
    by rewrite (bind_throw _ _ _ _ _ (bind_throw _ _ _ _ _ Hlook)).
Qed.

(** The call with names does what the function on references does. *)
Lemma function4_call σ l :
  Scope.call Scope.function4 [Scope.Ref l] σ = Scope.lift (Store.function4 id l) σ.
Proof.
  destruct σ as [g fs [h o]]. enter_call.
  set (σ1 := Scope.State _ _ _). unfold Scope.lift. fields. cbn [Scope.store].
  destruct (h !! l) as [a|] eqn:Hl; cycle 1.
  { rewrite (function4_dangling id (Store.State h o) l Hl).
    rewrite (bind_throw _ _ _ _ (σ1) (print_format_fails σ1 _ "e" (Scope.Ref l)
               (Scope.Builtin NameError) eq_refl ltac:(by rewrite show_ref; subst σ1;
                  unfold Scope.heap; cbn [Scope.store Store.heap]; rewrite Hl))).
    done. }
  rewrite (bind_return _ _ _ _ _ (print_format_one σ1 _ "e" (Scope.Ref l) a eq_refl
             ltac:(by apply show_ref_ok))).
  set (σ2 := Scope.printed σ1 _).
  assert (Hl2 : Scope.heap σ2 !! l = Some a) by done.
  destruct (decide (2 < length a)) as [Hlen | Hlen].
  - rewrite (StoreFacts.function4_run id (Store.State h o) l a Hl Hlen).
    rewrite (bind_return _ _ _ _ _ (setitem_ok σ2 "e" l a 2 0 eq_refl Hl2 Hlen)).
    set (σ3 := Scope.State _ _ _).
    rewrite (print_format_one σ3 _ "e" (Scope.Ref l) (<[2 := 0%Z]> a) eq_refl).
    + subst σ3 σ2 σ1. unfold Scope.printed. fields. cbn [tail].
      by rewrite <- (assoc_L (++)).
    + apply show_ref_ok. subst σ3. unfold Scope.heap at 1. cbn [Scope.store Store.heap].
      apply lookup_insert_eq.
  - rewrite (function4_short id (Store.State h o) l a Hl ltac:(lia)).
    by rewrite (bind_throw _ _ _ _ _
                  (setitem_index_error σ2 "e" l a 2 0 eq_refl Hl2 ltac:(lia))).
Qed.

Lemma copy_ok σ x l a :
  Scope.lookup x σ = (Scope.Return (Scope.Ref l), σ) →
  Scope.heap σ !! l = Some a →
  Scope.copy x σ
  = (Scope.Return (Scope.Ref (fresh (dom (Scope.heap σ)))),
     Scope.State (Scope.globals σ) (Scope.frames σ)
       (Store.State (<[fresh (dom (Scope.heap σ)) := a]> (Scope.heap σ)) (Scope.stdout σ))).
Proof.
  intros Hx Hl. unfold Scope.copy. rewrite (bind_return _ _ _ _ _ Hx).
  assert (Hc : Scope.lift (Store.copy l) σ
               = (Scope.Return (fresh (dom (Scope.heap σ))),
                  Scope.State (Scope.globals σ) (Scope.frames σ)
                    (Store.State (<[fresh (dom (Scope.heap σ)) := a]> (Scope.heap σ))
                       (Scope.stdout σ)))).
  { unfold Scope.lift, Store.copy.
    by rewrite (StoreFacts.bind_ok _ _ _ _ _ (StoreFacts.load_run _ _ _ Hl)). }
  by rewrite (bind_return _ _ _ _ _ Hc).
Qed.

Lemma copy_dangling σ x l :
  Scope.lookup x σ = (Scope.Return (Scope.Ref l), σ) →
  Scope.heap σ !! l = None →
  Scope.copy x σ = (Scope.Throw (Scope.Builtin NameError), σ).
Proof.
  intros Hx Hl. unfold Scope.copy. rewrite (bind_return _ _ _ _ _ Hx).
  apply bind_throw. unfold Scope.lift, Store.copy.
  rewrite (StoreFacts.bind_raise _ _ (Scope.store σ) NameError (Scope.store σ)).
  - by destruct σ.
  - unfold Store.load. unfold Scope.heap in Hl. by rewrite Hl.
Qed.

Lemma function4_safe_call σ l :
  Scope.call Scope.function4_safe [Scope.Ref l] σ
  = Scope.lift (Store.function4_safe id l) σ.
Proof.
  destruct σ as [g fs [h o]]. enter_call.
  set (σ1 := Scope.State _ _ _). unfold Scope.lift. fields. cbn [Scope.store].
  destruct (h !! l) as [a|] eqn:Hl; cycle 1.
  { rewrite (function4_safe_dangling id (Store.State h o) l Hl).
    by rewrite (bind_throw _ _ _ _ _ (copy_dangling σ1 "e" l eq_refl Hl)). }
  rewrite (bind_return _ _ _ _ _ (copy_ok σ1 "e" l a eq_refl Hl)).
  subst σ1. fields. set (l' := fresh (dom h)).
  step. fields. set (σ2 := Scope.State _ _ _).
  assert (Hl2 : Scope.heap σ2 !! l' = Some a) by apply lookup_insert_eq.
  rewrite (bind_return _ _ _ _ _ (print_format_one σ2 _ "e" (Scope.Ref l') a eq_refl
             ltac:(by apply show_ref_ok))).
  set (σ3 := Scope.printed σ2 _).
  assert (Hl3 : Scope.heap σ3 !! l' = Some a) by exact Hl2.
  destruct (decide (2 < length a)) as [Hlen | Hlen].
  - rewrite (function4_safe_run id (Store.State h o) l a Hl Hlen).
    rewrite (bind_return _ _ _ _ _ (setitem_ok σ3 "e" l' a 2 1 eq_refl Hl3 Hlen)).
    set (σ4 := Scope.State _ _ _).
    rewrite (print_format_one σ4 _ "e" (Scope.Ref l') (<[2 := 1%Z]> a) eq_refl).
    + subst σ4 σ3 σ2. unfold Scope.printed. fields. cbn [tail].
      by rewrite insert_insert_eq, <- (assoc_L (++)).
    + apply show_ref_ok. subst σ4. unfold Scope.heap at 1. cbn [Scope.store Store.heap].
      apply lookup_insert_eq.
  - rewrite (function4_safe_short id (Store.State h o) l a Hl ltac:(lia)).
    by rewrite (bind_throw _ _ _ _ _
                  (setitem_index_error σ3 "e" l' a 2 1 eq_refl Hl3 ltac:(lia))).
Qed.

Lemma function4_call_ok σ l a :
  Scope.heap σ !! l = Some a → 2 < length a →
  Scope.call Scope.function4 [Scope.Ref l] σ
  = (Scope.Return (),
     Scope.State (Scope.globals σ) (Scope.frames σ)
       (Store.State (<[l := <[2 := 0%Z]> a]> (Scope.heap σ))
          (Scope.stdout σ ++
           [Store.Formatted " Inside the function, we receive an argument with value {0}" a;
            Store.Formatted " We set one element to zero - now, inside the function, e={0}"
              (<[2 := 0%Z]> a)]))).
Proof.
  intros Hl Hlen. rewrite function4_call. unfold Scope.lift.
  by rewrite (StoreFacts.function4_run id (Scope.store σ) l a Hl Hlen).
Qed.

Lemma function4_safe_call_ok σ l a :
  Scope.heap σ !! l = Some a → 2 < length a →
  Scope.call Scope.function4_safe [Scope.Ref l] σ
  = (Scope.Return (),
     Scope.State (Scope.globals σ) (Scope.frames σ)
       (Store.State (<[fresh (dom (Scope.heap σ)) := <[2 := 1%Z]> a]> (Scope.heap σ))
          (Scope.stdout σ ++
           [Store.Formatted " Inside the function, we receive an argument with value {0}" a;
            Store.Formatted " We set one element to zero - now, inside the function, e={0}"
              (<[2 := 1%Z]> a)]))).
Proof.
  intros Hl Hlen. rewrite function4_safe_call. unfold Scope.lift.
  by rewrite (function4_safe_run id (Scope.store σ) l a Hl Hlen).
Qed.
End ScopeFacts.

(** ** Names and scopes: the cells of the notebook *)

Import ScopeFacts.

Ltac top_level σ H :=
  let g := fresh "g" in let fs := fresh "fs" in
  let h := fresh "h" in let o := fresh "o" in
  destruct σ as [g fs [h o]]; cbn [Scope.frames] in H; subst fs.


(** X11. Names bound in a function stay there.  A call of [function1]
    prints the two values it bound and leaves the globals, the frames of
    its callers, and the arrays as they were, whatever they hold.  Run at
    the top level, the cell then fails at [print(b)] with a [NameError]
    when no global [b] exists, after three lines of output; when a global
    [b] exists it is the one printed, not the 10 of the function. *)
Theorem function1_locals_stay_local :
  (∀ σ, Scope.call Scope.function1 [] σ
        = (Scope.Return (),
           Scope.printed σ
             [Store.Formatted
                " Inside the function, we can use variables b and c. They have values of {0} and {1}"
                [10; 11]%Z]))
  ∧ (∀ σ, Scope.frames σ = [] → Scope.globals σ !! "b" = None →
       Scope.cell_function1 σ
       = (Scope.Throw (Scope.Builtin NameError),
          Scope.printed σ
            [Store.Formatted
               " Inside the function, we can use variables b and c. They have values of {0} and {1}"
               [10; 11]%Z;
             Store.Text "After the function returns, we cannot refer to that variable b again";
             Store.Text "The next line of code will therefore fail"]))
  ∧ (∀ σ (z : Z), Scope.frames σ = [] → Scope.globals σ !! "b" = Some (Scope.Int z) →
       Scope.cell_function1 σ
       = (Scope.Return (),
          Scope.printed σ
            [Store.Formatted
               " Inside the function, we can use variables b and c. They have values of {0} and {1}"
               [10; 11]%Z;
             Store.Text "After the function returns, we cannot refer to that variable b again";
             Store.Text "The next line of code will therefore fail";
             Store.Number z])).
Proof.
  split; [exact function1_run|].
  assert (Hcell : ∀ σ, Scope.frames σ = [] →
            Scope.cell_function1 σ
            = Scope.print_name "b"
                (Scope.printed σ
                   [Store.Formatted
                      " Inside the function, we can use variables b and c. They have values of {0} and {1}"
                      [10; 11]%Z;
                    Store.Text "After the function returns, we cannot refer to that variable b again";
                    Store.Text "The next line of code will therefore fail"])).
  { intros σ Htop. unfold Scope.cell_function1.
    rewrite (bind_return _ _ _ _ _ (function1_run σ)).
    rewrite (bind_return _ _ _ _ _ (print_text_run _ _)).
    rewrite (bind_return _ _ _ _ _ (print_text_run _ _)).
    by rewrite !printed_printed. }
  split.
  - intros σ Htop Hb. rewrite Hcell by done. unfold Scope.print_name.
    apply bind_throw. rewrite lookup_global.
    + unfold Scope.printed. fields. by rewrite Hb.
    + unfold Scope.printed. fields. by rewrite Htop.
  - intros σ z Htop Hb. rewrite Hcell by done. unfold Scope.print_name.
    set (σ' := Scope.printed σ _).
    rewrite (bind_return _ _ _ _ _ (lookup_top σ' "b" (Scope.Int z) Htop Hb)).
    subst σ'. destruct σ as [g fs [h o]]. unfold Scope.printed, Scope.lift. fields.
    cbn [Store.print Scope.store]. fields. by rewrite <- (assoc_L (++)).
Qed.

Lemma function1_locals_witness :
  Scope.cell_function1 (Scope.State ∅ [] (Store.State ∅ []))
  = (Scope.Throw (Scope.Builtin NameError),
     Scope.printed (Scope.State ∅ [] (Store.State ∅ []))
       [Store.Formatted
          " Inside the function, we can use variables b and c. They have values of {0} and {1}"
          [10; 11]%Z;
        Store.Text "After the function returns, we cannot refer to that variable b again";
        Store.Text "The next line of code will therefore fail"]).
Proof.
  apply (proj1 (proj2 function1_locals_stay_local)); reflexivity.
Defined.

(** X12. A global and a local of one name.  The cell binds the global
    [c] to 2 and calls [function1], which binds its own [c] to 11: the
    last line shows that the global [c] is still 2, and no other global
    has changed. *)
Theorem global_c_survives_function1 (σ : Scope.state) :
  Scope.frames σ = [] →
  Scope.cell_c σ
  = (Scope.Return (),
     Scope.State (<["c" := Scope.Int 2]> (Scope.globals σ)) []
       (Store.State (Scope.heap σ)
          (Scope.stdout σ ++
           [Store.Text "We will define the variable c outside the function";
            Store.Formatted "It has value {0}" [2%Z];
            Store.Text "Now we will call our function, which will define a *different* internal variable with the same name";
            Store.Formatted
              " Inside the function, we can use variables b and c. They have values of {0} and {1}"
              [10; 11]%Z;
            Store.Formatted
              "After the function returns, back in our main code our variable c still has value {0}"
              [2%Z]]))).
Proof.
  intros Htop. top_level σ Htop. unfold Scope.cell_c.
  rewrite (bind_return _ _ _ _ _ (print_text_run _ _)).
  step. unfold Scope.printed. fields.
  set (σ1 := Scope.State _ _ _).
  assert (Hc1 : Scope.lookup "c" σ1 = (Scope.Return (Scope.Int 2), σ1)).
  { apply lookup_top; [done|]. apply lookup_insert_eq. }
  rewrite (bind_return _ _ _ _ _ (print_format_one σ1 _ "c" _ [2%Z] Hc1 eq_refl)).
  rewrite (bind_return _ _ _ _ _ (print_text_run _ _)).
  rewrite (bind_return _ _ _ _ _ (function1_run _)).
  rewrite !printed_printed. set (σ2 := Scope.printed σ1 _).
  assert (Hc2 : Scope.lookup "c" σ2 = (Scope.Return (Scope.Int 2), σ2)).
  { apply lookup_top; [done|]. apply lookup_insert_eq. }
  rewrite (print_format_one σ2 _ "c" _ [2%Z] Hc2 eq_refl).
  subst σ2 σ1. rewrite printed_printed. unfold Scope.printed. fields.
  by rewrite <- (assoc_L (++)).
Qed.

Lemma global_c_survives_function1_witness :
  Scope.cell_c (Scope.State ∅ [] (Store.State ∅ []))
  = (Scope.Return (),
     Scope.State (<["c" := Scope.Int 2]> ∅) []
       (Store.State ∅
          ([] ++
           [Store.Text "We will define the variable c outside the function";
            Store.Formatted "It has value {0}" [2%Z];
            Store.Text "Now we will call our function, which will define a *different* internal variable with the same name";
            Store.Formatted
              " Inside the function, we can use variables b and c. They have values of {0} and {1}"
              [10; 11]%Z;
            Store.Formatted
              "After the function returns, back in our main code our variable c still has value {0}"
              [2%Z]]))).
Proof.
  apply (global_c_survives_function1 (Scope.State ∅ [] (Store.State ∅ []))). reflexivity.
Defined.

(** X13. Rebinding a parameter.  With the global [c] an integer z, the
    cell passes it to [function2], which rebinds its parameter to 0: the
    function shows z and then 0, the last line shows z again, and the
    globals are as they were. *)
Theorem function2_rebinds_its_parameter (σ : Scope.state) (z : Z) :
  Scope.frames σ = [] → Scope.globals σ !! "c" = Some (Scope.Int z) →
  Scope.cell_function2 σ
  = (Scope.Return (),
     Scope.printed σ
       [Store.Formatted "We start with c={0}, and pass it to our function" [z];
        Store.Formatted " Inside the function, we receive an argument with value {0}" [z];
        Store.Formatted " We set it to a new value - now, inside the function, c={0}" [0%Z];
        Store.Formatted "Back at the top-level scope, c={0} still!" [z]]).
Proof.
  intros Htop Hc. unfold Scope.cell_function2.
  pose proof (lookup_top σ "c" _ Htop Hc) as Hlook.
  rewrite (bind_return _ _ _ _ _ (print_format_one σ _ "c" _ [z] Hlook eq_refl)).
  set (σ1 := Scope.printed σ _).
  rewrite (bind_return _ _ _ _ _ (lookup_top σ1 "c" _ Htop Hc)).
  rewrite (bind_return _ _ _ _ _ (function2_run σ1 (Scope.Int z) [z] eq_refl)).
  set (σ2 := Scope.printed σ1 _).
  rewrite (print_format_one σ2 _ "c" _ [z] (lookup_top σ2 "c" _ Htop Hc) eq_refl).
  subst σ2 σ1. by rewrite !printed_printed.
Qed.

Lemma function2_rebinds_its_parameter_witness :
  Scope.cell_function2 (Scope.State {[ "c" := Scope.Int 2 ]} [] (Store.State ∅ []))
  = (Scope.Return (),
     Scope.printed (Scope.State {[ "c" := Scope.Int 2 ]} [] (Store.State ∅ []))
       [Store.Formatted "We start with c={0}, and pass it to our function" [2%Z];
        Store.Formatted " Inside the function, we receive an argument with value {0}" [2%Z];
        Store.Formatted " We set it to a new value - now, inside the function, c={0}" [0%Z];
        Store.Formatted "Back at the top-level scope, c={0} still!" [2%Z]]).
Proof.
  apply (function2_rebinds_its_parameter
           (Scope.State {[ "c" := Scope.Int 2 ]} [] (Store.State ∅ [])) 2%Z);
    reflexivity.
Defined.

(** X14. The cell that means to call [function3].  The cell binds the
    global [d] to 3, prints two lines, and then calls [function2] with no
    argument: the call raises a [TypeError] before anything of the
    function runs, and [function3] is never called. *)
Theorem cell_function3_type_error (σ : Scope.state) :
  Scope.frames σ = [] →
  Scope.cell_function3 σ
  = (Scope.Throw Scope.TypeError,
     Scope.State (<["d" := Scope.Int 3]> (Scope.globals σ)) []
       (Store.State (Scope.heap σ)
          (Scope.stdout σ ++
           [Store.Text "We will define the variable d outside the function";
            Store.Formatted "It has value {0}" [3%Z]]))).
Proof.
  intros Htop. top_level σ Htop. unfold Scope.cell_function3.
  rewrite (bind_return _ _ _ _ _ (print_text_run _ _)).
  step. unfold Scope.printed. fields.
  set (σ1 := Scope.State _ _ _).
  assert (Hd : Scope.lookup "d" σ1 = (Scope.Return (Scope.Int 3), σ1)).
  { apply lookup_top; [done|]. apply lookup_insert_eq. }
  rewrite (bind_return _ _ _ _ _ (print_format_one σ1 _ "d" _ [3%Z] Hd eq_refl)).
  subst σ1. unfold Scope.printed, Scope.call. fields.
  cbn [Scope.params Scope.function2 length]. rewrite decide_False by done.
  by rewrite <- (assoc_L (++)).
Qed.

Lemma cell_function3_type_error_witness :
  Scope.cell_function3 (Scope.State ∅ [] (Store.State ∅ []))
  = (Scope.Throw Scope.TypeError,
     Scope.State (<["d" := Scope.Int 3]> ∅) []
       (Store.State ∅
          ([] ++
           [Store.Text "We will define the variable d outside the function";
            Store.Formatted "It has value {0}" [3%Z]]))).
Proof.
  apply (cell_function3_type_error (Scope.State ∅ [] (Store.State ∅ []))). reflexivity.
Defined.

(** X15. Reading a global from a function.  [function3] binds nothing and
    reads [d] among the globals as they are when it runs, at any depth of
    calls: with the global [d] an integer z it prints z; with no global
    [d] it raises a [NameError] and prints nothing. *)
Theorem function3_reads_the_global (σ : Scope.state) :
  (∀ z : Z, Scope.globals σ !! "d" = Some (Scope.Int z) →
     Scope.call Scope.function3 [] σ
     = (Scope.Return (),
        Scope.printed σ
          [Store.Formatted
             " Inside the function, we can actually access d. It has value {0}" [z]]))
  ∧ (Scope.globals σ !! "d" = None →
     Scope.call Scope.function3 [] σ = (Scope.Throw (Scope.Builtin NameError), σ)).
Proof.
  split.
  - intros z Hd. by rewrite function3_run, Hd.
  - intros Hd. by rewrite function3_run, Hd.
Qed.

Lemma function3_reads_the_global_witness :
  Scope.call Scope.function3 []
    (Scope.State {[ "d" := Scope.Int 3 ]} [] (Store.State ∅ []))
  = (Scope.Return (),
     Scope.printed (Scope.State {[ "d" := Scope.Int 3 ]} [] (Store.State ∅ []))
       [Store.Formatted
          " Inside the function, we can actually access d. It has value {0}" [3%Z]]).
Proof.
  apply (proj1 (function3_reads_the_global
                  (Scope.State {[ "d" := Scope.Int 3 ]} [] (Store.State ∅ []))) 3%Z).
  reflexivity.
Defined.

(** X16. Passing an array is passing a reference.  Calling [function4] or
    [function4_safe] with a reference as argument, through the parameter
    [e] of a new frame, does to the store exactly what the function on
    references does, in every state and whatever the outcome. *)
Theorem function4_by_name_and_by_reference (σ : Scope.state) (l : Store.loc) :
  Scope.call Scope.function4 [Scope.Ref l] σ = Scope.lift (Store.function4 id l) σ
  ∧ Scope.call Scope.function4_safe [Scope.Ref l] σ
    = Scope.lift (Store.function4_safe id l) σ.
Proof. split; [apply function4_call | apply function4_safe_call]. Qed.

(** X17. The cell of [function4].  Run at the top level, the cell makes a
    new array [1, 2, 3], binds the global [e] to it and calls [function4]:
    the last line, printed from the top level, shows [1, 2, 0], and the
    array behind [e] now holds that. *)
Theorem cell_function4_modifies_e (σ : Scope.state) :
  Scope.frames σ = [] →
  ∃ l, Scope.heap σ !! l = None
       ∧ Scope.cell_function4 σ
         = (Scope.Return (),
            Scope.State (<["e" := Scope.Ref l]> (Scope.globals σ)) []
              (Store.State (<[l := [1; 2; 0]%Z]> (Scope.heap σ))
                 (Scope.stdout σ ++
                  [Store.Formatted "We start with e={0}, and pass it to our function"
                     [1; 2; 3]%Z;
                   Store.Formatted
                     " Inside the function, we receive an argument with value {0}"
                     [1; 2; 3]%Z;
                   Store.Formatted
                     " We set one element to zero - now, inside the function, e={0}"
                     [1; 2; 0]%Z;
                   Store.Formatted "Back at the top-level scope, e={0} has been modified!"
                     [1; 2; 0]%Z]))).
Proof.
  intros Htop. top_level σ Htop. exists (fresh (dom h)).
  split; [apply not_elem_of_dom, is_fresh|].
  unfold Scope.cell_function4, Scope.array. fields.
  set (l := fresh (dom h)).
  step. step. fields. set (σ1 := Scope.State _ _ _).
  assert (Hg : Scope.globals σ1 !! "e" = Some (Scope.Ref l)) by apply lookup_insert_eq.
  pose proof (lookup_top σ1 "e" _ eq_refl Hg) as He1.
  assert (Hl1 : Scope.heap σ1 !! l = Some [1; 2; 3]%Z) by apply lookup_insert_eq.
  rewrite (bind_return _ _ _ _ _ (print_format_one σ1 _ "e" _ _ He1 (show_ref_ok _ _ _ Hl1))).
  set (σ2 := Scope.printed σ1 _).
  rewrite (bind_return _ _ _ _ _ (lookup_top σ2 "e" _ eq_refl Hg)).
  rewrite (bind_return _ _ _ _ _
             (function4_call_ok σ2 l [1; 2; 3]%Z Hl1 ltac:(cbn; lia))).
  set (σ3 := Scope.State _ _ _).
  pose proof (lookup_top σ3 "e" _ eq_refl Hg) as He3.
  assert (Hl3 : Scope.heap σ3 !! l = Some [1; 2; 0]%Z) by apply lookup_insert_eq.
  rewrite (print_format_one σ3 _ "e" _ _ He3 (show_ref_ok _ _ _ Hl3)).
  subst σ3 σ2 σ1. unfold Scope.printed. fields. cbn [Scope.store]. fields.
  rewrite insert_insert_eq. cbn [id]. by rewrite <- !(assoc_L (++)).
Qed.

Lemma cell_function4_modifies_e_witness :
  ∃ l, Scope.heap (Scope.State ∅ [] (Store.State ∅ [])) !! l = None
       ∧ Scope.cell_function4 (Scope.State ∅ [] (Store.State ∅ []))
         = (Scope.Return (),
            Scope.State (<["e" := Scope.Ref l]> ∅) []
              (Store.State (<[l := [1; 2; 0]%Z]> ∅)
                 ([] ++
                  [Store.Formatted "We start with e={0}, and pass it to our function"
                     [1; 2; 3]%Z;
                   Store.Formatted
                     " Inside the function, we receive an argument with value {0}"
                     [1; 2; 3]%Z;
                   Store.Formatted
                     " We set one element to zero - now, inside the function, e={0}"
                     [1; 2; 0]%Z;
                   Store.Formatted "Back at the top-level scope, e={0} has been modified!"
                     [1; 2; 0]%Z]))).
Proof.
  apply (cell_function4_modifies_e (Scope.State ∅ [] (Store.State ∅ []))). reflexivity.
Defined.

(** X18. The cell of [function4_safe].  With the global [e] an array of at
    least three elements, the cell calls [function4_safe], which rebinds
    its own [e] to a copy and writes 1 into the copy: the global [e] still
    refers to the same array, the last line shows its contents unchanged,
    and the only change to the store is the new array. *)
Theorem cell_function4_safe_keeps_e (σ : Scope.state) (l : Store.loc) (a : list Z) :
  Scope.frames σ = [] → Scope.globals σ !! "e" = Some (Scope.Ref l) →
  Scope.heap σ !! l = Some a → 2 < length a →
  ∃ l', l' ≠ l
        ∧ Scope.cell_function4_safe σ
          = (Scope.Return (),
             Scope.State (Scope.globals σ) []
               (Store.State (<[l' := <[2 := 1%Z]> a]> (Scope.heap σ))
                  (Scope.stdout σ ++
                   [Store.Formatted "We start with e={0}, and pass it to our function" a;
                    Store.Formatted
                      " Inside the function, we receive an argument with value {0}" a;
                    Store.Formatted
                      " We set one element to zero - now, inside the function, e={0}"
                      (<[2 := 1%Z]> a);
                    Store.Formatted "Back at the top-level scope, e={0} is unchanged!" a]))).
Proof.
  intros Htop He Hl Hlen. top_level σ Htop. exists (fresh (dom h)).
  assert (Hnew : h !! fresh (dom h) = None) by apply not_elem_of_dom, is_fresh.
  split; [intros Heq; rewrite Heq in Hnew; unfold Scope.heap in Hl; cbn in Hl; congruence|].
  unfold Scope.cell_function4_safe. set (l' := fresh (dom h)) in *.
  set (σ0 := Scope.State _ _ _) in *.
  pose proof (lookup_top σ0 "e" _ eq_refl He) as He0.
  rewrite (bind_return _ _ _ _ _ (print_format_one σ0 _ "e" _ _ He0 (show_ref_ok _ _ _ Hl))).
  set (σ1 := Scope.printed σ0 _).
  rewrite (bind_return _ _ _ _ _ (lookup_top σ1 "e" _ eq_refl He)).
  rewrite (bind_return _ _ _ _ _ (function4_safe_call_ok σ1 l a Hl Hlen)).
  set (σ2 := Scope.State _ _ _).
  assert (He2 : Scope.lookup "e" σ2 = (Scope.Return (Scope.Ref l), σ2))
    by (by apply lookup_top).
  assert (Hl2 : Scope.heap σ2 !! l = Some a).
  { subst σ2 σ1 σ0. unfold Scope.heap, Scope.printed. fields. cbn [Scope.store]. fields.
    rewrite lookup_insert_ne; [done|].
    intros Heq. fold l' in Heq. rewrite Heq in Hnew. unfold Scope.heap in Hl.
    cbn in Hl. congruence. }
  rewrite (print_format_one σ2 _ "e" _ _ He2 (show_ref_ok _ _ _ Hl2)).
  subst σ2 σ1 σ0. unfold Scope.printed. fields. cbn [Scope.store]. fields.
  cbn [id]. by rewrite <- !(assoc_L (++)).
Qed.

Lemma cell_function4_safe_keeps_e_witness :
  ∃ l', l' ≠ 1%positive
        ∧ Scope.cell_function4_safe
            (Scope.State {[ "e" := Scope.Ref 1%positive ]} []
               (Store.State {[ 1%positive := [1; 2; 0]%Z ]} []))
          = (Scope.Return (),
             Scope.State {[ "e" := Scope.Ref 1%positive ]} []
               (Store.State
                  (<[l' := <[2 := 1%Z]> [1; 2; 0]%Z]> {[ 1%positive := [1; 2; 0]%Z ]})
                  ([] ++
                   [Store.Formatted "We start with e={0}, and pass it to our function"
                      [1; 2; 0]%Z;
                    Store.Formatted
                      " Inside the function, we receive an argument with value {0}"
                      [1; 2; 0]%Z;
                    Store.Formatted
                      " We set one element to zero - now, inside the function, e={0}"
                      (<[2 := 1%Z]> [1; 2; 0]%Z);
                    Store.Formatted "Back at the top-level scope, e={0} is unchanged!"
                      [1; 2; 0]%Z]))).
Proof.
  refine (cell_function4_safe_keeps_e
            (Scope.State {[ "e" := Scope.Ref 1%positive ]} []
               (Store.State {[ 1%positive := [1; 2; 0]%Z ]} []))
            1%positive [1; 2; 0]%Z _ _ _ _);
    [reflexivity | reflexivity | reflexivity | cbn; lia].
Defined.

(** ** The curve-fitting notebook *)

Section Sinc.
Local Open Scope float_scope.

Lemma div_zero_cases (s z : float) :
  z = 0 ∨ z = -0 → s / z = nan ∨ s / z = infinity ∨ s / z = neg_infinity.
Proof.
  intros Hz.
  assert (H : Prim2SF (s / z) = S754_nan ∨ Prim2SF (s / z) = S754_infinity false
              ∨ Prim2SF (s / z) = S754_infinity true).
  { rewrite div_spec. destruct Hz as [-> | ->];
      [change (Prim2SF 0) with (S754_zero false)
      |change (Prim2SF (-0)) with (S754_zero true)];
      destruct (Prim2SF s) as [[]|[]| |[] ? ?]; cbn; auto. }
  destruct H as [H | [H | H]]; [left | right; left | right; right];
    apply Prim2SF_inj; by rewrite H.
Qed.

(** X19. [sinc] at zero.  At a zero of either sign [sinc] returns no
    finite number, whatever the sine returns there, and it returns NaN
    when the sine of that zero is a zero; it never returns 1, the limit
    of sin(x)/x. *)
Theorem sinc_at_zero (sin : float → float) (x : float) :
  x = 0 ∨ x = -0 →
  is_finite (sinc sin x) = false
  ∧ (zero_or_nan (sin x) → sinc sin x = nan).
Proof.
  intros Hx. split.
  - unfold sinc. by destruct (div_zero_cases (sin x) x Hx) as [-> | [-> | ->]].
  - intros Hs. unfold sinc. apply zero_or_nan_div; [done|].
    destruct Hx as [-> | ->]; [by left | by right; left].
Qed.

Lemma sinc_at_zero_witness :
  (0 = 0 ∨ 0 = -0)
  ∧ is_finite (sinc (λ v, v) 0) = false
  ∧ (zero_or_nan 0 → sinc (λ v, v) 0 = nan).
Proof. split; [by left|]. apply (sinc_at_zero (λ v, v) 0). by left. Defined.
End Sinc.

Section Polynomials.
Local Open Scope Qc_scope.

(** X20. The family of curves.  In exact arithmetic
    [generalised_quadratic] with [b = c = 0] is [quadratic], with [a = 0] it
    is [linear], and in general it is the sum of the two; all of them keep
    the length of [x].  In binary64 the first identity fails at an
    infinite abscissa, where the term [0 * x] is a NaN. *)
Theorem generalised_quadratic_special_cases :
  (∀ (x : list Qc) (a b c : Qc),
     generalised_quadratic x a 0 0 = quadratic x a
     ∧ generalised_quadratic x 0 b c = linear x b c
     ∧ generalised_quadratic x a b c = zip_with Qcplus (quadratic x a) (linear x b c))
  ∧ (∀ (A : Type) (H : Arith A) (x : list A) (a b c : A),
       length (quadratic x a) = length x
       ∧ length (generalised_quadratic x a b c) = length x)
  ∧ (quadratic [infinity] 1 = [infinity]
     ∧ ∀ a c : float, generalised_quadratic [infinity] a 0 c = [nan])%float.
Proof.
  split; [|split].
  - intros x a b c. unfold generalised_quadratic, quadratic, linear, sq. repeat split.
    + apply list_fmap_ext. intros i v _. cbn. ring.
    + apply list_fmap_ext. intros i v _. cbn. ring.
    + induction x as [|v x IH]; [done|]. cbn [fmap list_fmap zip_with].
      rewrite <- IH. f_equal. cbn. ring.
  - intros A H x a b c. unfold generalised_quadratic, quadratic.
    by rewrite !length_fmap.
  - split; [vm_compute; reflexivity|]. intros a c.
    unfold generalised_quadratic. cbn [fmap list_fmap]. f_equal.
    cbn [aadd amul binary64].
    change (0 * infinity)%float with nan. by rewrite add_nan_r, add_nan_l.
Qed.
End Polynomials.


Section Trials.
Context {A : Type}.
Local Open Scope Z_scope.
Implicit Types (function : list A → Z → result (list A)) (g : Z → list A)
  (xData yData : list A) (log : list (Fitting.event A)).

Lemma trials_ok function g xData yData (values : list Z) log :
  (∀ a, a ∈ values → function xData a = Ok (g a)) →
  Fitting.trials function xData yData values log
  = (Ok (), log ++ (values ≫= λ a, Fitting.figure xData yData a (g a))).
Proof.
  revert log; induction values as [|a values IH]; intros log Hf; cbn [Fitting.trials].
  - cbn. by rewrite app_nil_r.
  - rewrite (Hf a) by apply list_elem_of_here.
    rewrite IH by (intros a' Ha'; apply Hf; by apply list_elem_of_further).
    cbn [mbind list_bind]. unfold Fitting.figure at 2.
    by rewrite <- !(assoc_L (++)).
Qed.

Lemma trials_raise function g xData yData (before after : list Z) (a : Z) (e : exn) log :
  (∀ a', a' ∈ before → function xData a' = Ok (g a')) →
  function xData a = Raise e →
  Fitting.trials function xData yData (before ++ a :: after) log
  = (Raise e,
     log ++ (before ≫= λ a, Fitting.figure xData yData a (g a))
     ++ [Fitting.Title "Function plotted with a={0}" a;
         Fitting.Plot xData yData (Some "x")]).
Proof.
  revert log; induction before as [|b before IH]; intros log Hf Ha; cbn [app Fitting.trials].
  - by rewrite Ha.
  - rewrite (Hf b) by apply list_elem_of_here.
    rewrite IH by (try done; intros a' Ha'; apply Hf; by apply list_elem_of_further).
    cbn [mbind list_bind]. unfold Fitting.figure at 2.
    by rewrite <- !(assoc_L (++)).
Qed.

(** X21. The trials of [silly_curve_fit].  When [function] returns for
    the eight values p0 − 4, ..., p0 + 3, the routine draws one figure for
    each, in this order (p0 + 4 is not tried), and then prints its
    question.  When [function] raises at the k-th of them, the figures of
    the values before it have been shown, the title and the data of the
    failing one have been drawn, nothing more is shown and the question is
    not printed. *)
Theorem silly_curve_fit_trials function g xData yData (p0 : Z) :
  ((∀ a, (p0 - 4 ≤ a < p0 + 4)%Z → function xData a = Ok (g a)) →
   Fitting.silly_curve_fit function xData yData p0
   = (Ok (),
      (seqZ (p0 - 4) 8 ≫= λ a, Fitting.figure xData yData a (g a))
      ++ [Fitting.Print "Which of those looks like the best fit to you?"]))
  ∧ (∀ (k : Z) (e : exn),
       (0 ≤ k < 8)%Z →
       (∀ a, (p0 - 4 ≤ a < p0 - 4 + k)%Z → function xData a = Ok (g a)) →
       function xData (p0 - 4 + k) = Raise e →
       Fitting.silly_curve_fit function xData yData p0
       = (Raise e,
          (seqZ (p0 - 4) k ≫= λ a, Fitting.figure xData yData a (g a))
          ++ [Fitting.Title "Function plotted with a={0}" (p0 - 4 + k);
              Fitting.Plot xData yData (Some "x")])).
Proof.
  assert (Hrange : Fitting.range (p0 - 4) (p0 + 4) = seqZ (p0 - 4) 8).
  { unfold Fitting.range. f_equal. lia. }
  unfold Fitting.silly_curve_fit. rewrite Hrange. split.
  - intros Hf. rewrite (trials_ok function g); [done|].
    intros a Ha%elem_of_seqZ. apply Hf. lia.
  - intros k e Hk Hf Hraise.
    replace 8%Z with (k + (1 + (8 - k - 1)))%Z by lia.
    rewrite seqZ_app by lia. rewrite (seqZ_cons (p0 - 4 + k)) by lia.
    rewrite (trials_raise function g _ _ _ _ _ e); [done| |done].
    intros a Ha%elem_of_seqZ. apply Hf. lia.
Qed.
End Trials.

Lemma silly_curve_fit_trials_witness :
  Fitting.silly_curve_fit (λ x a, Ok ((λ v, a * v)%Z <$> x)) [1; 2]%Z [3; 4]%Z 3%Z
  = (Ok (),
     (seqZ (3 - 4)%Z 8%Z
        ≫= λ a, Fitting.figure [1; 2]%Z [3; 4]%Z a ((λ v, a * v)%Z <$> [1; 2]%Z))
     ++ [Fitting.Print "Which of those looks like the best fit to you?"]).
Proof.
  apply (proj1 (silly_curve_fit_trials (λ x a, Ok ((λ v, a * v)%Z <$> x))
                  (λ a, (λ v, a * v)%Z <$> [1; 2]%Z) [1; 2]%Z [3; 4]%Z 3%Z)).
  intros. reflexivity.
Defined.
